(** * Demand paging in Nachos: userprog/addrspace.cc

    A shallow embedding of the address-space code of
    nachos-3.4/code/userprog/addrspace.cc (SwapHeader, constructor,
    destructor, InitRegisters, SaveState, RestoreState, GenerateSWAP,
    FrameSearch, KillSWAP, PageFaultLoadPage), the properties of its
    specification, and further properties of the code: the agreement of
    registry and page tables, what each function leaves alone, and how
    the functions fit together.

    Conventions.
    - A C++ [int] is a [Z].  Signed overflow is undefined in C++ and no
      property below depends on it; the [unsigned int] computations
      (the size of the address space, the initial stack pointer) have
      their wrap-around written out ([to_uint], [to_int]).  [/] and [%]
      on [int] are [Z.quot] and [Z.rem].
    - A pointer is an [option nat]: [None] is NULL, [Some a] is the
      address [a] in a store of objects ([threads], [spaces]).
    - A call either returns a value and a new machine state, or does not
      return ([Err]): the calling thread blocks on the semaphore, an
      ASSERT fails, or the C++ behaviour is undefined (NULL or dangling
      pointer, index outside an array, uninitialised data).
    - Console output ([printf], [memMap->Print()]) is left out. *)

From stdpp Require Import base numbers list gmap strings pretty.
From Stdlib Require Import Init.Byte QArith.QArith_base QArith.Qround.

Open Scope Z_scope.
#[local] Set Warnings "-clear-no-such-hyp".

(** ** Constants and helpers declared outside addrspace.cc *)

(** machine.h, addrspace.h, noff.h and sysdep.h are not part of the
    source at hand: their constants are parameters of the development.
    [WordToHost] is the byte swap of the host, and [Random_seq n] is the
    value returned by the [n]-th call of [Random()]. *)
Class MachineConfig := {
  PageSize : Z;
  UserStackSize : Z;
  NumPhysPages : Z;
  NOFFMAGIC : Z;
  WordToHost : Z → Z;
  Random_seq : nat → Z;
}.

(** The array bound of [invPageTable[32]], also the bound of the loops over it. *)
Definition invPageTableSize : Z := 32.

(** ** Data *)

(** Modelled from the spec: the Page Table Entry of translate.h, which
    is not part of the source at hand, with the fields the code assigns.
    The constructor leaves [physicalPage] unset, which is [None] here. *)
Record TranslationEntry := mkTranslationEntry {
  virtualPage : Z;
  physicalPage : option Z;
  valid : bool;
  readOnly : bool;
  use : bool;
  dirty : bool;
}.

(** The fields of an [AddrSpace] object. *)
Record AddrSpace := mkAddrSpace {
  pageTable : option (list TranslationEntry);
  numPages : Z;
}.

(** The one field of a [Thread] the code reads. *)
Record Thread := mkThread {
  space : option nat;
}.

(** One element of the static array [invPageTable]. *)
Record InvEntry := mkInvEntry {
  time : Z;
  process : Z;
  processThread : option nat;
  page : Z;
}.

(** Modelled from the spec: the header of an executable (noff.h, not
    part of the source at hand): a magic number and three segments, each
    with a virtual address, a file offset and a size. *)
Record Segment := mkSegment {
  virtualAddr : Z;
  inFileAddr : Z;
  size : Z;
}.

Record NoffHeader := mkNoffHeader {
  noffMagic : Z;
  code : Segment;
  initData : Segment;
  uninitData : Segment;
}.

(** An executable as the code sees it: the header that
    [ReadAt((char * )&noffH, sizeof(noffH), 0)] delivers, and the bytes
    of the file. *)
Record Executable := mkExecutable {
  exe_header : NoffHeader;
  exe_bytes : list byte;
}.

(** The globals the code works on. *)
Record MachineState := mkMachineState {
  swapMode : Z;
  invPageTableSemaphore : Z;
  invPageTable : list InvEntry;
  invPageTableNotYetLoaded : Z;
  memMap : list bool;
  mainMemory : list byte;
  fileSystem : gmap string (list byte);
  threads : gmap nat Thread;
  spaces : gmap nat AddrSpace;
  currentThread : option nat;
  randomCalls : nat;
}.

Definition set_invPageTableSemaphore (v : Z) (s : MachineState) : MachineState :=
  mkMachineState (swapMode s) v (invPageTable s) (invPageTableNotYetLoaded s)
    (memMap s) (mainMemory s) (fileSystem s) (threads s) (spaces s)
    (currentThread s) (randomCalls s).

Definition set_invPageTable (t : list InvEntry) (s : MachineState) : MachineState :=
  mkMachineState (swapMode s) (invPageTableSemaphore s) t (invPageTableNotYetLoaded s)
    (memMap s) (mainMemory s) (fileSystem s) (threads s) (spaces s)
    (currentThread s) (randomCalls s).

Definition set_invPageTableNotYetLoaded (v : Z) (s : MachineState) : MachineState :=
  mkMachineState (swapMode s) (invPageTableSemaphore s) (invPageTable s) v
    (memMap s) (mainMemory s) (fileSystem s) (threads s) (spaces s)
    (currentThread s) (randomCalls s).

Definition set_memMap (m : list bool) (s : MachineState) : MachineState :=
  mkMachineState (swapMode s) (invPageTableSemaphore s) (invPageTable s)
    (invPageTableNotYetLoaded s) m (mainMemory s) (fileSystem s) (threads s)
    (spaces s) (currentThread s) (randomCalls s).

Definition set_mainMemory (m : list byte) (s : MachineState) : MachineState :=
  mkMachineState (swapMode s) (invPageTableSemaphore s) (invPageTable s)
    (invPageTableNotYetLoaded s) (memMap s) m (fileSystem s) (threads s)
    (spaces s) (currentThread s) (randomCalls s).

Definition set_fileSystem (f : gmap string (list byte)) (s : MachineState) : MachineState :=
  mkMachineState (swapMode s) (invPageTableSemaphore s) (invPageTable s)
    (invPageTableNotYetLoaded s) (memMap s) (mainMemory s) f (threads s)
    (spaces s) (currentThread s) (randomCalls s).

Definition set_spaces (m : gmap nat AddrSpace) (s : MachineState) : MachineState :=
  mkMachineState (swapMode s) (invPageTableSemaphore s) (invPageTable s)
    (invPageTableNotYetLoaded s) (memMap s) (mainMemory s) (fileSystem s)
    (threads s) m (currentThread s) (randomCalls s).

Definition set_randomCalls (n : nat) (s : MachineState) : MachineState :=
  mkMachineState (swapMode s) (invPageTableSemaphore s) (invPageTable s)
    (invPageTableNotYetLoaded s) (memMap s) (mainMemory s) (fileSystem s)
    (threads s) (spaces s) (currentThread s) n.

(** ** Calls that may not return *)

Inductive error := Blocked | AssertionFailed | Undefined.

Inductive result (A : Type) :=
  | Ok (a : A)
  | Err (e : error).
Arguments Ok {A} a.
Arguments Err {A} e.

Definition M (A : Type) : Type := MachineState → result (A * MachineState).

Definition ret {A} (a : A) : M A := λ s, Ok (a, s).

Definition bind {A B} (m : M A) (k : A → M B) : M B :=
  λ s, match m s with
       | Ok (a, s') => k a s'
       | Err e => Err e
       end.

Definition fail {A} (e : error) : M A := λ _, Err e.
Definition gets {A} (f : MachineState → A) : M A := λ s, Ok (f s, s).
Definition modify (f : MachineState → MachineState) : M unit := λ s, Ok (tt, f s).

Declare Scope m_scope.
Delimit Scope m_scope with M.
Notation "x <- c ;; k" := (bind c (λ x, k))
  (at level 100, c at next level, k at level 200, right associativity) : m_scope.
Notation "c ;; k" := (bind c (λ _, k))
  (at level 100, k at level 200, right associativity) : m_scope.
Open Scope m_scope.

(** An access through a pointer or an index: outside the object the
    behaviour is undefined. *)
Definition defined {A} (o : option A) : M A :=
  match o with
  | Some a => ret a
  | None => fail Undefined
  end.

(** [a[i]] for an [int] index. *)
Definition index {A} (a : list A) (i : Z) : option A :=
  if 0 <=? i then a !! Z.to_nat i else None.

(** [a[i] = x] for an [int] index; [None] outside the array. *)
Definition store {A} (a : list A) (i : Z) (x : A) : option (list A) :=
  if (0 <=? i) && (i <? Z.of_nat (length a)) then Some (<[Z.to_nat i := x]> a)
  else None.

(** [n] consecutive elements of [a] from [off]: the loop
    [for (i = 0; i < n; i++) ... a[off + i]] as a read. *)
Definition slice {A} (a : list A) (off n : Z) : list A :=
  take (Z.to_nat n) (drop (Z.to_nat off) a).

Definition load_range {A} (a : list A) (off n : Z) : option (list A) :=
  if (0 <=? off) && (off + n <=? Z.of_nat (length a)) then Some (slice a off n)
  else None.

(** The same loop as a write of the list [d]. *)
Definition store_range {A} (a : list A) (off : Z) (d : list A) : option (list A) :=
  if (0 <=? off) && (off + Z.of_nat (length d) <=? Z.of_nat (length a))
  then Some (take (Z.to_nat off) a ++ d ++ drop (Z.to_nat off + length d) a)
  else None.

(** ** The collaborators of addrspace.cc *)

(** Modelled from the spec: the mutual-exclusion lock is a [Semaphore]
    (synch.h, not part of the source at hand) created with the value 1.
    [P] waits until the value is positive and decrements it, [V]
    increments it; with no other thread in the model, a [P] on the value
    0 never returns. *)
Definition Semaphore_P : M unit := λ s,
  if invPageTableSemaphore s =? 0 then Err Blocked
  else Ok (tt, set_invPageTableSemaphore (invPageTableSemaphore s - 1) s).

Definition Semaphore_V : M unit :=
  modify (λ s, set_invPageTableSemaphore (invPageTableSemaphore s + 1) s).

(** Modelled from the spec: the Frame Pool ([memMap], a BitMap, declared
    outside this file) offers find-free, which allocates the frame it
    returns or answers "none" (-1), and release.  [true] is an allocated
    frame.  [BitMap::Clear] asserts that its argument is a frame number. *)
Definition BitMap_Find : M Z := λ s,
  match list_find (λ b, b = false) (memMap s) with
  | Some (i, _) => Ok (Z.of_nat i, set_memMap (<[i := true]> (memMap s)) s)
  | None => Ok (-1, s)
  end.

Definition BitMap_Clear (which : Z) : M unit := λ s,
  if (0 <=? which) && (which <? Z.of_nat (length (memMap s)))
  then Ok (tt, set_memMap (<[Z.to_nat which := false]> (memMap s)) s)
  else Err AssertionFailed.

Definition BitMap_NumClear (m : list bool) : nat :=
  length (filter (λ b, b = false) m).

(** [sprintf(filename, "%d.swap", ID)]. *)
Definition swap_filename (ID : Z) : string := pretty ID +:+ ".swap".

(** Modelled from the spec: the file system (FileSystem::Create, Open,
    Remove and OpenFile::ReadAt, WriteAt, Write, declared outside this
    file) keeps files of a fixed byte length, read and written at a byte
    offset.  [Create] makes a file of exactly the given length; [Open]
    answers NULL for a name that is not there; a read or a write that
    reaches past the end of the file is cut at the end. *)
Definition FileSystem_Create (name : string) (initialSize : Z) : M unit :=
  modify (λ s, set_fileSystem
    (<[name := replicate (Z.to_nat initialSize) x00]> (fileSystem s)) s).

Definition FileSystem_Open (name : string) : M (option string) :=
  gets (λ s, match fileSystem s !! name with
             | Some _ => Some name
             | None => None
             end).

Definition FileSystem_Remove (name : string) : M unit :=
  modify (λ s, set_fileSystem (delete name (fileSystem s)) s).

Definition file_write (contents : list byte) (position : nat) (data : list byte)
    : list byte :=
  let k := ((length contents - position) `min` length data)%nat in
  take position contents ++ take k data ++ drop (position + k)%nat contents.

Definition OpenFile_ReadAt (file : option string) (numBytes position : Z)
    : M (list byte) :=
  name <- defined file ;;
  fs <- gets fileSystem ;;
  contents <- defined (fs !! name) ;;
  if position <? 0 then fail Undefined
  else ret (slice contents position numBytes).

Definition OpenFile_WriteAt (file : option string) (from : list byte)
    (numBytes position : Z) : M unit :=
  name <- defined file ;;
  fs <- gets fileSystem ;;
  contents <- defined (fs !! name) ;;
  if position <? 0 then fail Undefined
  else modify (set_fileSystem
    (<[name := file_write contents (Z.to_nat position)
                 (take (Z.to_nat numBytes) from)]> fs)).

(** Modelled from the spec: [Random()] (sysdep.h, not part of the source
    at hand) is the next value of the host's random number generator. *)
Definition Random `{MachineConfig} : M Z := λ s,
  Ok (Random_seq (randomCalls s), set_randomCalls (S (randomCalls s)) s).

(** Modelled from the spec: the macro [divRoundUp] (utility.h, not part
    of the source at hand) rounds the quotient up to a whole number, as
    [((n) / (s)) + ((((n) % (s)) > 0) ? 1 : 0)]. *)
Definition divRoundUp (n s : Z) : Z :=
  n `quot` s + (if n `rem` s >? 0 then 1 else 0).

(** Conversion to [unsigned int]. *)
Definition to_uint (x : Z) : Z := x `mod` 2 ^ 32.

(** Conversion of an [unsigned int] to [int]: the same 32 bits read in
    two's complement. *)
Definition to_int (x : Z) : Z := (x + 2 ^ 31) `mod` 2 ^ 32 - 2 ^ 31.

(** ** addrspace.cc *)

Section AddrSpace.
Context `{MachineConfig}.

(** Lines 31-44. *)
Definition SwapSegment (g : Segment) : Segment :=
  mkSegment (WordToHost (virtualAddr g)) (WordToHost (inFileAddr g))
    (WordToHost (size g)).

Definition SwapHeader (noffH : NoffHeader) : NoffHeader :=
  mkNoffHeader (WordToHost (noffMagic noffH)) (SwapSegment (code noffH))
    (SwapSegment (initData noffH)) (SwapSegment (uninitData noffH)).

(** Lines 95-99 and, word for word, 216-220: read the header, swap its
    bytes if that makes the magic number right, and assert the magic number. *)
Definition loaded_header (executable : Executable) : NoffHeader :=
  let noffH := exe_header executable in
  if negb (noffMagic noffH =? NOFFMAGIC)
     && (WordToHost (noffMagic noffH) =? NOFFMAGIC)
  then SwapHeader noffH else noffH.

Definition read_header (executable : Executable) : M NoffHeader :=
  let noffH := loaded_header executable in
  if noffMagic noffH =? NOFFMAGIC then ret noffH else fail AssertionFailed.

(** Lines 102-104 and 223-225: how big is the address space? *)
Definition space_size (noffH : NoffHeader) : Z :=
  to_uint (size (code noffH) + size (initData noffH) + size (uninitData noffH)
           + UserStackSize).

Definition space_numPages (noffH : NoffHeader) : Z :=
  divRoundUp (space_size noffH) PageSize.

(** The value the constructor's first loop gives every element of [invPageTable]. *)
Definition cleared_entry : InvEntry := mkInvEntry 0 (-1) None (-1).

(** The entry the constructor's second loop writes at index [i]. *)
Definition fresh_entry (i : Z) : TranslationEntry :=
  mkTranslationEntry i None false false false false.

(** Lines 71-120, [AddrSpace::AddrSpace], for the object at address [this]. *)
Definition AddrSpace_ctor (this : nat) (executable : Executable) : M unit :=
  notYet <- gets invPageTableNotYetLoaded ;;
  (if negb (notYet =? 0) then
     Semaphore_P ;;
     modify (set_invPageTable
               (replicate (Z.to_nat invPageTableSize) cleared_entry)) ;;
     modify (set_invPageTableNotYetLoaded 0) ;;
     Semaphore_V
   else ret tt) ;;
  noffH <- read_header executable ;;
  let numPages := space_numPages noffH in
  let pageTable := fresh_entry <$> seqZ 0 numPages in
  modify (λ s, set_spaces
    (<[this := mkAddrSpace (Some pageTable) numPages]> (spaces s)) s).

(** [this->pageTable[i]], and the assignment to it. *)
Definition get_space (this : nat) : M AddrSpace :=
  sp <- gets spaces ;; defined (sp !! this).

Definition get_entry (this : nat) (i : Z) : M TranslationEntry :=
  a <- get_space this ;;
  pt <- defined (pageTable a) ;;
  defined (index pt i).

Definition set_entry (this : nat) (i : Z) (e : TranslationEntry) : M unit :=
  a <- get_space this ;;
  pt <- defined (pageTable a) ;;
  pt' <- defined (store pt i e) ;;
  modify (λ s, set_spaces
    (<[this := mkAddrSpace (Some pt') (numPages a)]> (spaces s)) s).

(** [invPageTable[i]], and the assignment to it. *)
Definition get_inv (i : Z) : M InvEntry :=
  t <- gets invPageTable ;; defined (index t i).

Definition set_inv (i : Z) (e : InvEntry) : M unit :=
  t <- gets invPageTable ;;
  t' <- defined (store t i e) ;;
  modify (set_invPageTable t').

(** Lines 138-147: the body of the destructor's loop. *)
Definition dtor_body (this : nat) (i : Z) : M unit :=
  e <- get_entry this i ;;
  (if valid e then
     frame <- defined (physicalPage e) ;;
     BitMap_Clear frame ;;
     set_inv frame cleared_entry
   else ret tt) ;;
  set_entry this i
    (mkTranslationEntry (virtualPage e) (physicalPage e) false (readOnly e)
       (use e) false).

Fixpoint for_each (body : Z → M unit) (l : list Z) : M unit :=
  match l with
  | [] => ret tt
  | i :: l' => body i ;; for_each body l'
  end.

(** Lines 137-148: the loop, which leaves the page table in place. *)
Definition dtor_loop (this : nat) : M unit :=
  a <- get_space this ;;
  for_each (dtor_body this) (seqZ 0 (numPages a)).

(** Lines 134-152, [AddrSpace::~AddrSpace]. *)
Definition AddrSpace_dtor (this : nat) : M unit :=
  a <- get_space this ;;
  match pageTable a with
  | Some _ =>
      dtor_loop this ;;
      modify (λ s, set_spaces
        (<[this := mkAddrSpace None (numPages a)]> (spaces s)) s)
  | None => ret tt
  end.

(** Lines 238-242: [executable->ReadAt(&swapData[g.virtualAddr], g.size,
    g.inFileAddr)], guarded by [g.size > 0]. *)
Definition read_segment (executable : Executable) (swapData : list byte)
    (g : Segment) : M (list byte) :=
  if size g >? 0 then
    if inFileAddr g <? 0 then fail Undefined
    else defined (store_range swapData (virtualAddr g)
                    (slice (exe_bytes executable) (inFileAddr g) (size g)))
  else ret swapData.

(** Lines 210-291, [AddrSpace::GenerateSWAP]. *)
Definition GenerateSWAP (this : nat) (executable : Executable) (ID : Z) : M unit :=
  noffH <- read_header executable ;;
  let numPages := space_numPages noffH in
  a <- get_space this ;;
  modify (λ s, set_spaces
    (<[this := mkAddrSpace (pageTable a) numPages]> (spaces s)) s) ;;
  let size := to_uint (numPages * PageSize) in
  let filename := swap_filename ID in
  FileSystem_Create filename size ;;
  swapFile <- FileSystem_Open filename ;;
  let swapData := replicate (Z.to_nat size) x00 in
  swapData <- read_segment executable swapData (code noffH) ;;
  swapData <- read_segment executable swapData (initData noffH) ;;
  OpenFile_WriteAt swapFile swapData size 0.

(** Lines 310-315: the scan of aged-victim mode; [i] is the index of the
    first element of [entries]. *)
Fixpoint FrameSearch_scan (entries : list InvEntry) (i O ans : Z) : Z :=
  match entries with
  | [] => ans
  | e :: rest =>
      if time e >? O then FrameSearch_scan rest (i + 1) (time e) i
      else FrameSearch_scan rest (i + 1) O ans
  end.

(** Lines 299-325, [FrameSearch].  A [swapMode] outside 0, 1 and 2
    matches no case of the switch and leaves [finalAns] at -1. *)
Definition FrameSearch : M Z :=
  mode <- gets swapMode ;;
  if mode =? 0 then ret (-1)
  else if mode =? 1 then
    t <- gets invPageTable ;;
    ret (FrameSearch_scan t 0 0 (-1))
  else if mode =? 2 then
    r <- Random ;;
    ret (r `rem` invPageTableSize)
  else ret (-1).

(** Lines 332-341, [AddrSpace::KillSWAP]. *)
Definition KillSWAP (theThreadID : Z) : M unit :=
  FileSystem_Remove (swap_filename theThreadID).

(** Lines 371-390: the victim [frame] goes back to its owner's swap file
    and its owner's page table entry becomes invalid. *)
Definition write_back (frame : Z) : M unit :=
  let physicalOffset := frame * PageSize in
  e <- get_inv frame ;;
  let virtualOffset := page e * PageSize in
  writeFile <- FileSystem_Open (swap_filename (process e)) ;;
  mem <- gets mainMemory ;;
  writeData <- defined (load_range mem physicalOffset PageSize) ;;
  OpenFile_WriteAt writeFile writeData PageSize virtualOffset ;;
  t <- defined (processThread e) ;;
  ths <- gets threads ;;
  th <- defined (ths !! t) ;;
  owner <- defined (space th) ;;
  pte <- get_entry owner (page e) ;;
  set_entry owner (page e)
    (mkTranslationEntry (virtualPage pte) (physicalPage pte) false
       (readOnly pte) (use pte) (dirty pte)).

(** Lines 422-423: [invPageTable[i].time++] for every [i]. *)
Definition tick (e : InvEntry) : InvEntry :=
  mkInvEntry (time e + 1) (process e) (processThread e) (page e).

(** Lines 398-432: the frame is filled from the swap file of the faulting
    process and the mapping is installed.  [readData] is an uninitialised
    array of [PageSize] bytes: when [ReadAt] delivers fewer, the copy
    into memory reads uninitialised bytes. *)
Definition load_frame (this : nat) (vpn pageOffset frame frameOffset theThreadID : Z)
    : M Z :=
  readFile <- FileSystem_Open (swap_filename theThreadID) ;;
  readData <- OpenFile_ReadAt readFile PageSize pageOffset ;;
  (if Z.of_nat (length readData) <? PageSize then fail Undefined else ret tt) ;;
  mem <- gets mainMemory ;;
  mem' <- defined (store_range mem frameOffset readData) ;;
  modify (set_mainMemory mem') ;;
  pte <- get_entry this vpn ;;
  set_entry this vpn
    (mkTranslationEntry vpn (Some frame) true (readOnly pte) (use pte)
       (dirty pte)) ;;
  modify (λ s, set_invPageTable (tick <$> invPageTable s) s) ;;
  me <- gets currentThread ;;
  set_inv frame (mkInvEntry 0 theThreadID me vpn) ;;
  Semaphore_V ;;
  ret 0.

(** Lines 352-434, [AddrSpace::PageFaultLoadPage]; the source's local
    [page] is [vpn] here. *)
Definition PageFaultLoadPage (this : nat) (pageFaultAddr theThreadID : Z) : M Z :=
  Semaphore_P ;;
  let vpn := pageFaultAddr `quot` PageSize in
  let pageOffset := vpn * PageSize in
  frame <- BitMap_Find ;;
  let frameOffset := frame * PageSize in
  fr <- (if frame =? -1 then
           frame <- FrameSearch ;;
           if negb (frame =? -1) then
             write_back frame ;;
             ret (frame, frame * PageSize)
           else ret (frame, frameOffset)
         else ret (frame, frameOffset)) ;;
  let '(frame, frameOffset) := fr in
  if frame =? -1 then ret 1
  else load_frame this vpn pageOffset frame frameOffset theThreadID.

End AddrSpace.

(** ** The machine at start-up and a configuration to run it on *)

(** Static storage is zero-initialised: every element of [invPageTable]
    is all zeros until the first constructor runs. *)
Definition zero_entry : InvEntry := mkInvEntry 0 0 None 0.

Definition initial_state `{MachineConfig} (mode : Z) : MachineState :=
  {| swapMode := mode;
     invPageTableSemaphore := 1;
     invPageTable := replicate (Z.to_nat invPageTableSize) zero_entry;
     invPageTableNotYetLoaded := 1;
     memMap := replicate (Z.to_nat NumPhysPages) false;
     mainMemory := replicate (Z.to_nat (NumPhysPages * PageSize)) x00;
     fileSystem := ∅;
     threads := ∅;
     spaces := ∅;
     currentThread := None;
     randomCalls := 0 |}.

(** run a call and keep the state *)
Definition exec {A} (m : M A) (s : MachineState) : option MachineState :=
  match m s with
  | Ok (_, s') => Some s'
  | Err _ => None
  end.

(** ** What the properties observe *)

(** The address space a registry entry's thread pointer leads to. *)
Definition owner_of (s : MachineState) (e : InvEntry) : option nat :=
  t ← processThread e; th ← threads s !! t; space th.

(** The page table entry of page [vp] of the address space at [sp]. *)
Definition entry_of (s : MachineState) (sp : nat) (vp : Z)
    : option TranslationEntry :=
  a ← spaces s !! sp; pt ← pageTable a; index pt vp.

(** The bytes of frame [frame] in physical memory. *)
Definition frame_bytes `{MachineConfig} (s : MachineState) (frame : Z) : list byte :=
  slice (mainMemory s) (frame * PageSize) PageSize.

(** The bytes of page [vp] in the swap file of process [ID]. *)
Definition swap_bytes `{MachineConfig} (s : MachineState) (ID vp : Z)
    : option (list byte) :=
  f ← fileSystem s !! swap_filename ID; Some (slice f (vp * PageSize) PageSize).

(** The swap file of process [ID] is there and holds all of page [vp]. *)
Definition backed `{MachineConfig} (s : MachineState) (ID vp : Z) : Prop :=
  ∃ f, fileSystem s !! swap_filename ID = Some f ∧
       0 ≤ vp ∧ vp * PageSize + PageSize ≤ Z.of_nat (length f).

(** The sum the size of an address space is computed from. *)
Definition image_size `{MachineConfig} (noffH : NoffHeader) : Z :=
  size (code noffH) + size (initData noffH) + size (uninitData noffH)
  + UserStackSize.

(** Address [j] lies in segment [g]. *)
Definition in_segment (g : Segment) (j : Z) : Prop :=
  virtualAddr g ≤ j < virtualAddr g + size g.

(** Segment [g] of the executable lies within a swap image of [len]
    bytes and within the executable's file. *)
Definition segment_fits (executable : Executable) (len : Z) (g : Segment) : Prop :=
  0 < size g →
  0 ≤ virtualAddr g ∧ virtualAddr g + size g ≤ len ∧
  0 ≤ inFileAddr g ∧
  inFileAddr g + size g ≤ Z.of_nat (length (exe_bytes executable)).

(** The frames a page table maps valid pages to. *)
Definition frames_of (pt : list TranslationEntry) : list Z :=
  omap (λ e, if valid e then physicalPage e else None) pt.

(** [a[f] = x] for every [f] of [fs]. *)
Definition assign_all {A} (x : A) (fs : list Z) (a : list A) : list A :=
  foldl (λ a f, <[Z.to_nat f := x]> a) a fs.

(** A page table entry after the destructor's loop has passed it. *)
Definition retired (e : TranslationEntry) : TranslationEntry :=
  mkTranslationEntry (virtualPage e) (physicalPage e) false (readOnly e)
    (use e) false.

(** The constants of a stock Nachos 3.4 on a little-endian host, with
    pages of four bytes to keep the examples small. *)
Definition nachos : MachineConfig :=
  {| PageSize := 4;
     UserStackSize := 8;
     NumPhysPages := 32;
     NOFFMAGIC := 0xbadfad;
     WordToHost := λ w, w;
     Random_seq := λ n, 5 + Z.of_nat n |}.

(** The same machine with a pool of two frames. *)
Definition nachos2 : MachineConfig :=
  {| PageSize := 4;
     UserStackSize := 8;
     NumPhysPages := 2;
     NOFFMAGIC := 0xbadfad;
     WordToHost := λ w, w;
     Random_seq := λ n, 5 + Z.of_nat n |}.

(** An executable of 35 pages: six bytes of code at address 0, three
    bytes of initialised data at address 8. *)
Definition prog : Executable :=
  {| exe_header :=
       mkNoffHeader 0xbadfad (mkSegment 0 40 6) (mkSegment 8 46 3)
         (mkSegment 12 0 120);
     exe_bytes :=
       replicate 40 x00 ++ [x01; x02; x03; x04; x05; x06; x0a; x0b; x0c] |}.

(** Thread 3 runs process 1 in the address space at address 7. *)
Definition start_thread : M unit :=
  modify (λ s,
    mkMachineState (swapMode s) (invPageTableSemaphore s) (invPageTable s)
      (invPageTableNotYetLoaded s) (memMap s) (mainMemory s) (fileSystem s)
      (<[3%nat := mkThread (Some 7%nat)]> (threads s)) (spaces s)
      (Some 3%nat) (randomCalls s)).

Definition boot `{MachineConfig} : M unit :=
  AddrSpace_ctor 7 prog ;;
  GenerateSWAP 7 prog 1 ;;
  start_thread.

(** Faults on the first [n] pages, in order. *)
Definition touch `{MachineConfig} (n : Z) : M unit :=
  for_each (λ i, PageFaultLoadPage 7 (i * PageSize) 1 ;; ret tt) (seqZ 0 n).

Definition state_after `{MachineConfig} (mode : Z) (m : M unit) : MachineState :=
  default (initial_state mode) (exec m (initial_state mode)).

(** The machine after the program is loaded, and after its first 32
    pages have been touched: the pool of 32 frames is full. *)
Definition booted (mode : Z) : MachineState :=
  state_after (H := nachos) mode (boot (H := nachos)).

Definition pool_full (mode : Z) : MachineState :=
  state_after (H := nachos) mode (boot (H := nachos) ;; touch (H := nachos) 32).

(** The state a call leaves, if it returns. *)
Definition after {A} (m : M A) (s : MachineState) : MachineState :=
  default s (exec m s).

(** The page table after the first three pages have been touched. *)
Definition three_resident : list TranslationEntry :=
  ((λ i, mkTranslationEntry i (Some i) true false false false) <$> seqZ 0 3)
  ++ (fresh_entry <$> seqZ 3 32).

(** ** The simulator's registers and translation context *)

(** machine.h is not part of the source at hand: the number of registers
    and the numbers of the three registers [InitRegisters] names are
    parameters. *)
Class RegisterFile := {
  NumTotalRegs : Z;
  PCReg : Z;
  NextPCReg : Z;
  StackReg : Z;
}.

(** The fields of [machine] the code writes.  [machine->pageTable] points
    to the array a page table lives in; the arrays are kept with their
    address spaces, so the pointer is the address of the space whose
    array it is, or NULL. *)
Record Machine := mkMachine {
  registers : list Z;
  machine_pageTable : option nat;
  pageTableSize : Z;
}.

Definition and_then {A B} (r : result A) (k : A → result B) : result B :=
  match r with
  | Ok a => k a
  | Err e => Err e
  end.

(** Modelled from the spec: the simulator's register write by index
    ([Machine::WriteRegister], not part of the source at hand). *)
Definition WriteRegister (num value : Z) (m : Machine) : result Machine :=
  match store (registers m) num value with
  | Some r => Ok (mkMachine r (machine_pageTable m) (pageTableSize m))
  | None => Err Undefined
  end.

(** Lines 164-183, [AddrSpace::InitRegisters].  [numPages] is an
    [unsigned int]: the stack pointer is computed in [unsigned int]
    arithmetic and converted to the [int] that [WriteRegister] takes. *)
Definition InitRegisters `{MachineConfig} `{RegisterFile} (this : nat)
    (s : MachineState) (m : Machine) : result Machine :=
  and_then
    (foldl (λ r i, and_then r (WriteRegister i 0)) (Ok m) (seqZ 0 NumTotalRegs))
    (λ m,
  and_then (WriteRegister PCReg 0 m) (λ m,
  and_then (WriteRegister NextPCReg 4 m) (λ m,
  match spaces s !! this with
  | Some a =>
      WriteRegister StackReg (to_int (to_uint (numPages a * PageSize - 16))) m
  | None => Err Undefined
  end))).

(** Lines 193-194, [AddrSpace::SaveState]: nothing. *)
Definition SaveState (m : Machine) : Machine := m.

(** Lines 204-208, [AddrSpace::RestoreState]. *)
Definition RestoreState (this : nat) (s : MachineState) (m : Machine)
    : result Machine :=
  match spaces s !! this with
  | Some a =>
      Ok (mkMachine (registers m)
            (match pageTable a with Some _ => Some this | None => None end)
            (numPages a))
  | None => Err Undefined
  end.

(** ** Invariants *)

(** Every valid page table entry is recorded in the registry: the entry
    of its frame names the entry's address space and page, and the frame
    is allocated in the pool. *)
Definition registry_consistent (s : MachineState) : Prop :=
  ∀ sp vp pte,
    entry_of s sp vp = Some pte → valid pte = true →
    ∃ f e, physicalPage pte = Some f ∧
           index (invPageTable s) f = Some e ∧
           owner_of s e = Some sp ∧ page e = vp ∧
           index (memMap s) f = Some true.

(** The same as a check that runs: one entry, and every entry of every
    page table. *)
Definition entry_recorded (s : MachineState) (sp : nat) (vp : Z)
    (pte : TranslationEntry) : bool :=
  negb (valid pte) ||
  match physicalPage pte with
  | Some f =>
      match index (invPageTable s) f, index (memMap s) f with
      | Some e, Some true =>
          bool_decide (owner_of s e = Some sp) && (page e =? vp)
      | _, _ => false
      end
  | None => false
  end.

Definition registry_consistentb (s : MachineState) : bool :=
  forallb (λ '(sp, a),
    match pageTable a with
    | Some pt =>
        forallb (λ '(i, pte), entry_recorded s sp (Z.of_nat i) pte)
          (imap pair pt)
    | None => true
    end) (map_to_list (spaces s)).

(** No frame is mapped by two valid page table entries. *)
Definition no_double_mapping (s : MachineState) : Prop :=
  ∀ sp1 vp1 pte1 sp2 vp2 pte2,
    entry_of s sp1 vp1 = Some pte1 → valid pte1 = true →
    entry_of s sp2 vp2 = Some pte2 → valid pte2 = true →
    physicalPage pte1 = physicalPage pte2 →
    sp1 = sp2 ∧ vp1 = vp2.

(** Physical memory has one page per frame of the pool. *)
Definition memory_sized `{MachineConfig} (s : MachineState) : Prop :=
  Z.of_nat (length (mainMemory s)) = Z.of_nat (length (memMap s)) * PageSize.

(** The page count of an address space is the length of its page table. *)
Definition space_sized (a : AddrSpace) : Prop :=
  ∃ pt, pageTable a = Some pt ∧ numPages a = Z.of_nat (length pt).

(** The byte swap of a 32-bit word, [WordToHost] on a big-endian host. *)
Definition byte_swap32 (w : Z) : Z :=
  Z.lor (Z.shiftl (Z.land w 255) 24)
    (Z.lor (Z.shiftl (Z.land (Z.shiftr w 8) 255) 16)
       (Z.lor (Z.shiftl (Z.land (Z.shiftr w 16) 255) 8)
          (Z.land (Z.shiftr w 24) 255))).

(** The example machine on a big-endian host. *)
Definition nachos_be : MachineConfig :=
  {| PageSize := 4;
     UserStackSize := 8;
     NumPhysPages := 32;
     NOFFMAGIC := 0xbadfad;
     WordToHost := byte_swap32;
     Random_seq := λ n, 5 + Z.of_nat n |}.

(** The register numbers of machine.h in a stock Nachos 3.4. *)
Definition mips : RegisterFile :=
  {| NumTotalRegs := 40; PCReg := 34; NextPCReg := 35; StackReg := 29 |}.

(** * Properties *)

(** ** Running a call *)

Lemma bind_Ok {A B} (m : M A) (k : A → M B) s b s' :
  bind m k s = Ok (b, s') ↔ ∃ a s1, m s = Ok (a, s1) ∧ k a s1 = Ok (b, s').
Proof.
  unfold bind. split.
  - destruct (m s) as [[a s1]|e]; [eauto | discriminate].
  - intros (a & s1 & -> & Hk). exact Hk.
Qed.

Lemma bind_eval {A B} (m : M A) (k : A → M B) s a s1 :
  m s = Ok (a, s1) → bind m k s = k a s1.
Proof. unfold bind. by intros ->. Qed.

Lemma ret_Ok {A} (a b : A) s s' : ret a s = Ok (b, s') ↔ b = a ∧ s' = s.
Proof. unfold ret. split; [intros [= <- <-] | intros [-> ->]]; done. Qed.

Lemma gets_Ok {A} (f : MachineState → A) s a s' :
  gets f s = Ok (a, s') ↔ a = f s ∧ s' = s.
Proof. unfold gets. split; [intros [= <- <-] | intros [-> ->]]; done. Qed.

Lemma modify_Ok f s u s' : modify f s = Ok (u, s') ↔ s' = f s.
Proof. unfold modify. destruct u. split; [intros [= <-] | intros ->]; done. Qed.

Lemma fail_Ok {A} e s (a : A) s' : fail e s = Ok (a, s') ↔ False.
Proof. unfold fail. split; [discriminate | tauto]. Qed.

Lemma defined_Ok {A} (o : option A) s a s' :
  defined o s = Ok (a, s') ↔ o = Some a ∧ s' = s.
Proof.
  unfold defined. destruct o; [rewrite ret_Ok | rewrite fail_Ok]; naive_solver.
Qed.

(** Take a run that returned apart into the runs of its steps. *)
Ltac minv :=
  repeat match goal with
  | H : bind _ _ _ = Ok _ |- _ => apply bind_Ok in H as (? & ? & ? & ?)
  | H : ret _ _ = Ok _ |- _ => apply ret_Ok in H as [? ?]; subst
  | H : gets _ _ = Ok _ |- _ => apply gets_Ok in H as [? ?]; subst
  | H : modify _ _ = Ok _ |- _ => apply modify_Ok in H; subst
  | H : fail _ _ = Ok _ |- _ => apply fail_Ok in H; destruct H
  | H : defined _ _ = Ok _ |- _ => apply defined_Ok in H as [? ?]; subst
  | H : (if ?c then _ else _) _ = Ok _ |- _ => destruct c eqn:?
  | H : (let '(_, _) := ?p in _) _ = Ok _ |- _ => destruct p
  end.

(** Run a call forward along the equations at hand. *)
Ltac meval :=
  unfold bind, gets, defined, ret, modify, fail; simpl;
  repeat match goal with
  | H : ?x = _ |- context [?x] => rewrite H; simpl
  end;
  try done.

(** ** Arrays *)

Lemma index_Some {A} (a : list A) i x :
  index a i = Some x ↔ 0 ≤ i ∧ a !! Z.to_nat i = Some x.
Proof.
  unfold index. destruct (Z.leb_spec 0 i); [naive_solver | split; [done | lia]].
Qed.

Lemma index_is_Some {A} (a : list A) i :
  is_Some (index a i) ↔ 0 ≤ i < Z.of_nat (length a).
Proof.
  unfold is_Some. setoid_rewrite index_Some. split.
  - intros (x & ? & Hx). apply lookup_lt_Some in Hx. lia.
  - intros [? ?]. destruct (lookup_lt_is_Some_2 a (Z.to_nat i)) as [x Hx]; [lia | eauto].
Qed.

Lemma store_Some {A} (a : list A) i x a' :
  store a i x = Some a' ↔
  0 ≤ i < Z.of_nat (length a) ∧ a' = <[Z.to_nat i := x]> a.
Proof.
  unfold store.
  destruct (Z.leb_spec 0 i), (Z.ltb_spec i (Z.of_nat (length a))); simpl;
    naive_solver lia.
Qed.

Lemma store_length {A} (a : list A) i x a' :
  store a i x = Some a' → length a' = length a.
Proof. intros (_ & ->)%store_Some. apply length_insert. Qed.

Lemma index_store {A} (a : list A) i x a' :
  store a i x = Some a' → index a' i = Some x.
Proof.
  intros (? & ->)%store_Some. apply index_Some. split; [lia |].
  apply list_lookup_insert_eq. lia.
Qed.

Lemma index_store_ne {A} (a : list A) i j x a' :
  store a i x = Some a' → i ≠ j → index a' j = index a j.
Proof.
  intros (? & ->)%store_Some ?. unfold index.
  destruct (Z.leb_spec 0 j); [| done].
  apply list_lookup_insert_ne. lia.
Qed.

Lemma slice_length {A} (a : list A) off n :
  0 ≤ off → 0 ≤ n → off + n ≤ Z.of_nat (length a) →
  Z.of_nat (length (slice a off n)) = n.
Proof. intros. unfold slice. rewrite length_take, length_drop. lia. Qed.

Lemma load_range_Some {A} (a : list A) off n d :
  load_range a off n = Some d ↔
  0 ≤ off ∧ off + n ≤ Z.of_nat (length a) ∧ d = slice a off n.
Proof.
  unfold load_range.
  destruct (Z.leb_spec 0 off), (Z.leb_spec (off + n) (Z.of_nat (length a)));
    simpl; naive_solver lia.
Qed.

Lemma store_range_Some {A} (a : list A) off d a' :
  store_range a off d = Some a' ↔
  0 ≤ off ∧ off + Z.of_nat (length d) ≤ Z.of_nat (length a) ∧
  a' = take (Z.to_nat off) a ++ d ++ drop (Z.to_nat off + length d) a.
Proof.
  unfold store_range.
  destruct (Z.leb_spec 0 off),
    (Z.leb_spec (off + Z.of_nat (length d)) (Z.of_nat (length a)));
    simpl; naive_solver lia.
Qed.

Lemma store_range_length {A} (a : list A) off d a' :
  store_range a off d = Some a' → length a' = length a.
Proof.
  intros (? & ? & ->)%store_range_Some.
  rewrite !length_app, length_take, length_drop. lia.
Qed.

(** What was stored is what is read back. *)
Lemma slice_store_range {A} (a : list A) off d a' :
  store_range a off d = Some a' → slice a' off (Z.of_nat (length d)) = d.
Proof.
  intros (? & ? & ->)%store_range_Some. unfold slice.
  rewrite drop_app_length'; [| rewrite length_take; lia].
  rewrite Nat2Z.id. by rewrite take_app_length.
Qed.

(** Outside the stored range nothing changes. *)
Lemma lookup_store_range_ne {A} (a : list A) off d a' (j : nat) :
  store_range a off d = Some a' →
  (Z.of_nat j < off ∨ off + Z.of_nat (length d) ≤ Z.of_nat j) →
  a' !! j = a !! j.
Proof.
  intros (? & ? & ->)%store_range_Some Hj.
  destruct Hj as [Hj | Hj].
  - rewrite lookup_app_l; [| rewrite length_take; lia].
    apply lookup_take_lt. lia.
  - rewrite lookup_app_r; [| rewrite length_take; lia].
    rewrite lookup_app_r; [| rewrite length_take; lia].
    rewrite lookup_drop, length_take. f_equal. lia.
Qed.

Lemma lookup_store_range {A} (a : list A) off d a' (k : nat) :
  store_range a off d = Some a' → (k < length d)%nat →
  a' !! (Z.to_nat off + k)%nat = d !! k.
Proof.
  intros (? & ? & ->)%store_range_Some Hk.
  rewrite lookup_app_r; [| rewrite length_take; lia].
  rewrite length_take, lookup_app_l; [f_equal; lia | lia].
Qed.

Lemma lookup_slice {A} (a : list A) off n (k : nat) :
  0 ≤ off → Z.of_nat k < n →
  slice a off n !! k = a !! (Z.to_nat off + k)%nat.
Proof.
  intros. unfold slice. rewrite lookup_take_lt by lia. by rewrite lookup_drop.
Qed.

Lemma file_write_length contents position data :
  length (file_write contents position data) = length contents.
Proof.
  unfold file_write. rewrite !length_app, !length_take, length_drop. lia.
Qed.

(** A write that fits in the file is read back as written. *)
Lemma slice_file_write contents position data :
  0 ≤ position →
  position + Z.of_nat (length data) ≤ Z.of_nat (length contents) →
  slice (file_write contents (Z.to_nat position) data) position
    (Z.of_nat (length data)) = data.
Proof.
  intros Hpos Hfit. unfold slice, file_write.
  replace ((length contents - Z.to_nat position) `min` length data)%nat
    with (length data) by lia.
  rewrite drop_app_length'; [| rewrite length_take; lia].
  rewrite Nat2Z.id, take_app_length', firstn_all; [done | ].
  rewrite firstn_all. done.
Qed.

(** A write of the whole file replaces its contents. *)
Lemma file_write_all contents data :
  length data = length contents → file_write contents 0 data = data.
Proof.
  intros Hlen. unfold file_write. simpl.
  replace ((length contents - 0) `min` length data)%nat with (length data) by lia.
  rewrite firstn_all, Hlen, drop_all. apply app_nil_r.
Qed.

(** ** The eviction policy *)

Section Properties.
Context `{MachineConfig}.

(** The scan returns [ans] when no element is older than [O], and
    otherwise the index of the first of the oldest elements. *)
Lemma FrameSearch_scan_spec (entries : list InvEntry) (i O ans : Z) :
  (FrameSearch_scan entries i O ans = ans ∧ Forall (λ e, time e ≤ O) entries)
  ∨ ∃ (k : nat) e,
      entries !! k = Some e ∧
      FrameSearch_scan entries i O ans = i + Z.of_nat k ∧
      O < time e ∧
      (∀ (j : nat) e', entries !! j = Some e' → time e' ≤ time e) ∧
      (∀ (j : nat) e', (j < k)%nat → entries !! j = Some e' → time e' < time e).
Proof.
  revert i O ans. induction entries as [|e rest IH]; intros i O ans; simpl.
  - left. by split.
  - destruct (Z.gtb_spec (time e) O) as [Hgt | Hle].
    + destruct (IH (i + 1) (time e) i) as [[Hr Hall] | (k & e1 & Hk & Hr & Hlt & Hmax & Hfirst)].
      * right. exists 0%nat, e. simpl. repeat split; [lia | lia | | intros; lia].
        intros [|j] e'; simpl; [intros [= <-]; lia |].
        intros Hj. rewrite Forall_lookup in Hall. eapply Hall, Hj.
      * right. exists (S k), e1. simpl. repeat split; [done | lia | lia | |].
        -- intros [|j] e'; simpl; [intros [= <-]; lia | apply Hmax].
        -- intros [|j] e' Hj; simpl; [intros [= <-]; lia |].
           apply Hfirst. lia.
    + destruct (IH (i + 1) O ans) as [[Hr Hall] | (k & e1 & Hk & Hr & Hlt & Hmax & Hfirst)].
      * left. split; [done |]. constructor; [lia | done].
      * right. exists (S k), e1. simpl. repeat split; [done | lia | lia | |].
        -- intros [|j] e'; simpl; [intros [= <-]; lia | apply Hmax].
        -- intros [|j] e' Hj; simpl; [intros [= <-]; lia |].
           apply Hfirst. lia.
Qed.

Lemma FrameSearch_abort s : swapMode s = 0 → FrameSearch s = Ok (-1, s).
Proof. intros Hm. unfold FrameSearch, bind, gets. by rewrite Hm. Qed.

Lemma FrameSearch_aged s :
  swapMode s = 1 →
  FrameSearch s = Ok (FrameSearch_scan (invPageTable s) 0 0 (-1), s).
Proof. intros Hm. unfold FrameSearch, bind, gets. by rewrite Hm. Qed.

Lemma FrameSearch_random s :
  swapMode s = 2 →
  FrameSearch s = Ok (Random_seq (randomCalls s) `rem` invPageTableSize,
                      set_randomCalls (S (randomCalls s)) s).
Proof. intros Hm. unfold FrameSearch, bind, gets. by rewrite Hm. Qed.

Lemma FrameSearch_other s :
  swapMode s ≠ 0 → swapMode s ≠ 1 → swapMode s ≠ 2 →
  FrameSearch s = Ok (-1, s).
Proof.
  intros H0 H1 H2. unfold FrameSearch, bind, gets.
  destruct (Z.eqb_spec (swapMode s) 0); [done |].
  destruct (Z.eqb_spec (swapMode s) 1); [done |].
  by destruct (Z.eqb_spec (swapMode s) 2).
Qed.

(** [FrameSearch] always returns, and changes nothing but the state of
    the random number generator. *)
Lemma FrameSearch_returns s :
  ∃ r s1, FrameSearch s = Ok (r, s1) ∧
          (s1 = s ∨ s1 = set_randomCalls (S (randomCalls s)) s).
Proof.
  destruct (decide (swapMode s = 0)); [rewrite FrameSearch_abort; eauto |].
  destruct (decide (swapMode s = 1)); [rewrite FrameSearch_aged; eauto |].
  destruct (decide (swapMode s = 2)); [rewrite FrameSearch_random; eauto |].
  rewrite FrameSearch_other; eauto.
Qed.

Lemma FrameSearch_semaphore v s :
  FrameSearch (set_invPageTableSemaphore v s) =
  match FrameSearch s with
  | Ok (r, s1) => Ok (r, set_invPageTableSemaphore v s1)
  | Err e => Err e
  end.
Proof.
  unfold FrameSearch, bind, gets, ret, Random. simpl.
  destruct (swapMode s =? 0); [done |].
  destruct (swapMode s =? 1); [done |].
  by destruct (swapMode s =? 2).
Qed.

(** ** Page tables and the registry, read and written *)

Lemma get_space_Ok this s a s' :
  get_space this s = Ok (a, s') ↔ spaces s !! this = Some a ∧ s' = s.
Proof.
  unfold get_space. split.
  - intros Hr. by minv.
  - intros [Ha ->]. meval.
Qed.

Lemma get_entry_Ok this i s e s' :
  get_entry this i s = Ok (e, s') ↔
  s' = s ∧ ∃ a pt, spaces s !! this = Some a ∧ pageTable a = Some pt ∧
                   index pt i = Some e.
Proof.
  unfold get_entry, get_space. split.
  - intros Hr. minv. eauto 10.
  - intros (-> & a & pt & Ha & Hp & Hi). meval.
Qed.

Lemma set_entry_Ok this i e s u s' :
  set_entry this i e s = Ok (u, s') ↔
  ∃ a pt pt', spaces s !! this = Some a ∧ pageTable a = Some pt ∧
              store pt i e = Some pt' ∧
              s' = set_spaces
                     (<[this := mkAddrSpace (Some pt') (numPages a)]> (spaces s)) s.
Proof.
  unfold set_entry, get_space. destruct u. split.
  - intros Hr. minv. eauto 10.
  - intros (a & pt & pt' & Ha & Hp & Hst & ->). meval.
Qed.

Lemma get_inv_Ok i s e s' :
  get_inv i s = Ok (e, s') ↔ index (invPageTable s) i = Some e ∧ s' = s.
Proof.
  unfold get_inv. split.
  - intros Hr. by minv.
  - intros [Hi ->]. meval.
Qed.

Lemma set_inv_Ok i e s u s' :
  set_inv i e s = Ok (u, s') ↔
  ∃ t', store (invPageTable s) i e = Some t' ∧ s' = set_invPageTable t' s.
Proof.
  unfold set_inv. destruct u. split.
  - intros Hr. minv. eauto.
  - intros (t' & Hst & ->). meval.
Qed.

(** ** Files, the semaphore and the pool *)

Lemma FileSystem_Open_Ok name s h s' :
  FileSystem_Open name s = Ok (h, s') ↔
  s' = s ∧ h = match fileSystem s !! name with
               | Some _ => Some name
               | None => None
               end.
Proof. unfold FileSystem_Open. rewrite gets_Ok. naive_solver. Qed.

Lemma OpenFile_ReadAt_Ok file n pos s d s' :
  OpenFile_ReadAt file n pos s = Ok (d, s') ↔
  ∃ name contents, file = Some name ∧ fileSystem s !! name = Some contents ∧
                   0 ≤ pos ∧ d = slice contents pos n ∧ s' = s.
Proof.
  unfold OpenFile_ReadAt. split.
  - intros Hr. minv. apply Z.ltb_ge in Heqb. eauto 10.
  - intros (name & contents & -> & Hc & Hpos & -> & ->). meval.
    by destruct (Z.ltb_spec pos 0); [lia |].
Qed.

Lemma OpenFile_WriteAt_Ok file from n pos s u s' :
  OpenFile_WriteAt file from n pos s = Ok (u, s') ↔
  ∃ name contents, file = Some name ∧ fileSystem s !! name = Some contents ∧
    0 ≤ pos ∧
    s' = set_fileSystem
           (<[name := file_write contents (Z.to_nat pos)
                        (take (Z.to_nat n) from)]> (fileSystem s)) s.
Proof.
  unfold OpenFile_WriteAt. destruct u. split.
  - intros Hr. minv. apply Z.ltb_ge in Heqb. eauto 10.
  - intros (name & contents & -> & Hc & Hpos & ->). meval.
    by destruct (Z.ltb_spec pos 0); [lia |].
Qed.

Lemma Semaphore_P_Ok s u s' :
  Semaphore_P s = Ok (u, s') ↔
  invPageTableSemaphore s ≠ 0 ∧
  s' = set_invPageTableSemaphore (invPageTableSemaphore s - 1) s.
Proof.
  unfold Semaphore_P. destruct u.
  destruct (Z.eqb_spec (invPageTableSemaphore s) 0); naive_solver.
Qed.

Lemma Semaphore_V_Ok s u s' :
  Semaphore_V s = Ok (u, s') ↔
  s' = set_invPageTableSemaphore (invPageTableSemaphore s + 1) s.
Proof. unfold Semaphore_V. by rewrite modify_Ok. Qed.

(** With every frame allocated, [Find] answers -1 and allocates nothing. *)
Lemma BitMap_Find_full s :
  Forall (λ b, b = true) (memMap s) → BitMap_Find s = Ok (-1, s).
Proof.
  intros Hfull. unfold BitMap_Find.
  assert (list_find (λ b, b = false) (memMap s) = None) as ->; [| done].
  apply list_find_None. eapply Forall_impl; [exact Hfull |].
  by intros b ->.
Qed.

(** Otherwise it answers the first free frame and allocates it. *)
Lemma BitMap_Find_Ok s r s' :
  BitMap_Find s = Ok (r, s') →
  (r = -1 ∧ s' = s ∧ Forall (λ b, b = true) (memMap s))
  ∨ (0 ≤ r < Z.of_nat (length (memMap s)) ∧
     memMap s !! Z.to_nat r = Some false ∧
     s' = set_memMap (<[Z.to_nat r := true]> (memMap s)) s).
Proof.
  unfold BitMap_Find.
  destruct (list_find _ _) as [[i b]|] eqn:Hf; intros [= <- <-].
  - right. apply list_find_Some in Hf as (Hi & -> & _).
    rewrite Nat2Z.id. apply lookup_lt_Some in Hi as Hlt.
    repeat split; [lia | lia | done].
  - left. repeat split. apply list_find_None in Hf.
    eapply Forall_impl; [exact Hf |]. by intros [] ?.
Qed.

End Properties.

(** Take apart the runs of the accessors as well. *)
Ltac minv2 :=
  repeat first [progress minv | match goal with
  | H : get_space _ _ = Ok _ |- _ => apply get_space_Ok in H as [? ?]; subst
  | H : get_entry _ _ _ = Ok _ |- _ =>
      apply get_entry_Ok in H as (? & ? & ? & ? & ? & ?); subst
  | H : set_entry _ _ _ _ = Ok _ |- _ =>
      apply set_entry_Ok in H as (? & ? & ? & ? & ? & ? & ?); subst
  | H : get_inv _ _ = Ok _ |- _ => apply get_inv_Ok in H as [? ?]; subst
  | H : set_inv _ _ _ = Ok _ |- _ => apply set_inv_Ok in H as (? & ? & ?); subst
  | H : FileSystem_Open _ _ = Ok _ |- _ =>
      apply FileSystem_Open_Ok in H as [? ?]; subst
  | H : OpenFile_ReadAt _ _ _ _ = Ok _ |- _ =>
      apply OpenFile_ReadAt_Ok in H as (? & ? & ? & ? & ? & ? & ?); subst
  | H : OpenFile_WriteAt _ _ _ _ _ = Ok _ |- _ =>
      apply OpenFile_WriteAt_Ok in H as (? & ? & ? & ? & ? & ?); subst
  | H : Semaphore_P _ = Ok _ |- _ => apply Semaphore_P_Ok in H as [? ?]; subst
  | H : Semaphore_V _ = Ok _ |- _ => apply Semaphore_V_Ok in H; subst
  end].

(** ** The fault resolver, step by step *)

Section Resolver.
Context `{MachineConfig}.

(** What [write_back] does when it returns, and when it returns. *)
Lemma write_back_Ok frame s u s' :
  write_back frame s = Ok (u, s') ↔
  ∃ e f d t th owner a pt pte pt',
    index (invPageTable s) frame = Some e ∧
    fileSystem s !! swap_filename (process e) = Some f ∧
    load_range (mainMemory s) (frame * PageSize) PageSize = Some d ∧
    0 ≤ page e * PageSize ∧
    processThread e = Some t ∧ threads s !! t = Some th ∧
    space th = Some owner ∧
    spaces s !! owner = Some a ∧ pageTable a = Some pt ∧
    index pt (page e) = Some pte ∧
    store pt (page e)
      (mkTranslationEntry (virtualPage pte) (physicalPage pte) false
         (readOnly pte) (use pte) (dirty pte)) = Some pt' ∧
    s' = set_spaces (<[owner := mkAddrSpace (Some pt') (numPages a)]> (spaces s))
           (set_fileSystem
              (<[swap_filename (process e) :=
                   file_write f (Z.to_nat (page e * PageSize))
                     (take (Z.to_nat PageSize) d)]> (fileSystem s)) s).
Proof.
  unfold write_back. destruct u. split.
  - intros Hr. minv2. simplify_eq/=.
    destruct (fileSystem s !! swap_filename _) eqn:Hf; simplify_eq/=.
    eexists _, _, _, _, _, _, _, _, _, _. repeat (split; [eassumption |]). done.
  - intros (e & f & d & t & th & owner & a & pt & pte & pt' & He & Hf & Hd
            & Hpos & Ht & Hth & Hsp & Ha & Hpt & Hpte & Hst & ->).
    erewrite bind_eval; [| by apply get_inv_Ok].
    erewrite bind_eval; [| apply FileSystem_Open_Ok; by rewrite Hf].
    erewrite bind_eval; [| by apply gets_Ok].
    erewrite bind_eval; [| by apply defined_Ok].
    erewrite bind_eval; [| apply (OpenFile_WriteAt_Ok _ _ _ _ _ tt); eauto 10].
    erewrite bind_eval; [| by apply defined_Ok].
    erewrite bind_eval; [| by apply gets_Ok].
    erewrite bind_eval; [| by apply defined_Ok].
    erewrite bind_eval; [| by apply defined_Ok].
    erewrite bind_eval; [| apply get_entry_Ok; eauto 10].
    apply set_entry_Ok. eauto 10.
Qed.

(** What [load_frame] does when it returns, and when it returns. *)
Lemma load_frame_Ok this vpn pageOffset frame frameOffset theThreadID s r s' :
  load_frame this vpn pageOffset frame frameOffset theThreadID s = Ok (r, s') ↔
  ∃ f mem' a pt pte pt' t',
    fileSystem s !! swap_filename theThreadID = Some f ∧
    0 ≤ pageOffset ∧
    PageSize ≤ Z.of_nat (length (slice f pageOffset PageSize)) ∧
    store_range (mainMemory s) frameOffset (slice f pageOffset PageSize)
      = Some mem' ∧
    spaces s !! this = Some a ∧ pageTable a = Some pt ∧
    index pt vpn = Some pte ∧
    store pt vpn
      (mkTranslationEntry vpn (Some frame) true (readOnly pte) (use pte)
         (dirty pte)) = Some pt' ∧
    store (tick <$> invPageTable s) frame
      (mkInvEntry 0 theThreadID (currentThread s) vpn) = Some t' ∧
    r = 0 ∧
    s' = set_invPageTableSemaphore (invPageTableSemaphore s + 1)
           (set_invPageTable t'
              (set_spaces
                 (<[this := mkAddrSpace (Some pt') (numPages a)]> (spaces s))
                 (set_mainMemory mem' s))).
Proof.
  unfold load_frame. split.
  - intros Hr. minv2. simplify_eq/=.
    destruct (fileSystem s !! swap_filename _) eqn:Hf; simplify_eq/=.
    apply Z.ltb_ge in Heqb.
    eexists _, _, _, _, _, _, _. repeat (split; [eassumption |]). done.
  - intros (f & mem' & a & pt & pte & pt' & t' & Hf & Hpos & Hlen & Hmem & Ha
            & Hpt & Hpte & Hst & Ht' & -> & ->).
    erewrite bind_eval; [| apply FileSystem_Open_Ok; by rewrite Hf].
    erewrite bind_eval; [| apply OpenFile_ReadAt_Ok; eauto 10].
    destruct (Z.ltb_spec (Z.of_nat (length (slice f pageOffset PageSize)))
                PageSize) as [? | _]; [lia |].
    erewrite bind_eval; [| by apply (ret_Ok tt)].
    erewrite bind_eval; [| by apply gets_Ok].
    erewrite bind_eval; [| by apply defined_Ok].
    erewrite bind_eval; [| by apply (modify_Ok _ _ tt)].
    erewrite bind_eval; [| apply get_entry_Ok; eauto 10].
    erewrite bind_eval; [| apply (set_entry_Ok _ _ _ _ tt); simpl; eauto 10].
    erewrite bind_eval; [| by apply (modify_Ok _ _ tt)].
    erewrite bind_eval; [| by apply gets_Ok].
    erewrite bind_eval; [| apply (set_inv_Ok _ _ _ tt); simpl; eauto].
    erewrite bind_eval; [| by apply (Semaphore_V_Ok _ tt)].
    done.
Qed.

(** The paths through [PageFaultLoadPage]: a free frame, no frame at
    all, or a victim. *)
Lemma PageFaultLoadPage_Ok this pageFaultAddr theThreadID s r s' :
  let vpn := pageFaultAddr `quot` PageSize in
  PageFaultLoadPage this pageFaultAddr theThreadID s = Ok (r, s') ↔
  ∃ s0 frame s1,
    Semaphore_P s = Ok (tt, s0) ∧ BitMap_Find s0 = Ok (frame, s1) ∧
    ((frame ≠ -1 ∧
      load_frame this vpn (vpn * PageSize) frame (frame * PageSize)
        theThreadID s1 = Ok (r, s'))
     ∨ (frame = -1 ∧ ∃ victim s2,
          FrameSearch s1 = Ok (victim, s2) ∧
          ((victim = -1 ∧ r = 1 ∧ s' = s2)
           ∨ (victim ≠ -1 ∧ ∃ s3,
                write_back victim s2 = Ok (tt, s3) ∧
                load_frame this vpn (vpn * PageSize) victim
                  (victim * PageSize) theThreadID s3 = Ok (r, s'))))).
Proof.
  intros vpn. unfold PageFaultLoadPage. fold vpn. split.
  - intros Hr. apply bind_Ok in Hr as ([] & s0 & HP & Hr).
    apply bind_Ok in Hr as (frame & s1 & HF & Hr).
    exists s0, frame, s1. do 2 (split; [done |]).
    apply bind_Ok in Hr as ([fr off] & s2 & Hacq & Hr).
    destruct (Z.eqb_spec frame (-1)) as [-> | Hne].
    + right. split; [done |].
      apply bind_Ok in Hacq as (victim & s3 & HS & Hacq).
      exists victim, s3. split; [done |].
      destruct (Z.eqb_spec victim (-1)) as [-> | Hv]; simpl in Hacq.
      * left. apply ret_Ok in Hacq as [[= -> ->] ->]. simpl in Hr.
        by apply ret_Ok in Hr as [-> ->].
      * right. split; [done |].
        apply bind_Ok in Hacq as ([] & s4 & HW & Hacq).
        apply ret_Ok in Hacq as [[= -> ->] ->].
        exists s4. split; [done |].
        by destruct (Z.eqb_spec victim (-1)).
    + left. split; [done |].
      apply ret_Ok in Hacq as [[= -> ->] ->].
      by destruct (Z.eqb_spec frame (-1)).
  - intros (s0 & frame & s1 & HP & HF & Hcase).
    erewrite bind_eval; [| exact HP]. erewrite bind_eval; [| exact HF].
    destruct Hcase as [[Hne Hl] | (-> & victim & s2 & HS & Hv)].
    + destruct (Z.eqb_spec frame (-1)); [done |].
      erewrite bind_eval; [| by apply ret_Ok].
      cbv beta iota. by destruct (Z.eqb_spec frame (-1)).
    + simpl. destruct Hv as [(-> & -> & ->) | (Hne & s3 & HW & Hl)].
      * erewrite bind_eval.
        2:{ erewrite bind_eval; [| exact HS]. by apply ret_Ok. }
        done.
      * erewrite bind_eval.
        2:{ erewrite bind_eval; [| exact HS].
            destruct (Z.eqb_spec victim (-1)); [lia |]. simpl.
            erewrite bind_eval; [| exact HW]. by apply ret_Ok. }
        cbv beta iota. by destruct (Z.eqb_spec victim (-1)).
Qed.

End Resolver.

(** ** The lock *)

Section Lock.
Context `{MachineConfig}.

(** A resolution that succeeds gives the lock back; one that fails
    returns with the lock still taken. *)
Lemma PageFaultLoadPage_semaphore this pageFaultAddr theThreadID s r s' :
  PageFaultLoadPage this pageFaultAddr theThreadID s = Ok (r, s') →
  (r = 0 ∧ invPageTableSemaphore s' = invPageTableSemaphore s)
  ∨ (r = 1 ∧ invPageTableSemaphore s' = invPageTableSemaphore s - 1).
Proof.
  intros (s0 & frame & s1 & HP & HF & Hcase)%PageFaultLoadPage_Ok.
  apply Semaphore_P_Ok in HP as [_ ->].
  assert (invPageTableSemaphore s1 = invPageTableSemaphore s - 1) as Hs1.
  { apply BitMap_Find_Ok in HF as [(_ & -> & _) | (_ & _ & ->)]; done. }
  destruct Hcase as [[_ Hl] | (_ & victim & s2 & HS & Hv)].
  - left. apply load_frame_Ok in Hl
      as (? & ? & ? & ? & ? & ? & ? & _ & _ & _ & _ & _ & _ & _ & _ & _ & -> & ->).
    simpl. lia.
  - assert (invPageTableSemaphore s2 = invPageTableSemaphore s - 1) as Hs2.
    { destruct (FrameSearch_returns s1) as (? & ? & HS' & Hs2);
        rewrite HS in HS'; by destruct Hs2; simplify_eq. }
    destruct Hv as [(_ & -> & ->) | (_ & s3 & HW & Hl)]; [by right | left].
    apply write_back_Ok in HW
      as (? & ? & ? & ? & ? & ? & ? & ? & ? & ? & _ & _ & _ & _ & _ & _ & _ & _
          & _ & _ & _ & ->).
    apply load_frame_Ok in Hl
      as (? & ? & ? & ? & ? & ? & ? & _ & _ & _ & _ & _ & _ & _ & _ & _ & -> & ->).
    simpl. lia.
Qed.

(** C2: with no free frame and no victim from the eviction policy, the
    resolver returns failure (1) and leaves every page table, the
    registry, the frame pool, the swap files and physical memory as they
    were. *)
Theorem no_victim_commits_nothing this pageFaultAddr theThreadID s :
  invPageTableSemaphore s ≠ 0 →
  Forall (λ b, b = true) (memMap s) →
  (∃ s1, FrameSearch s = Ok (-1, s1)) →
  ∃ s', PageFaultLoadPage this pageFaultAddr theThreadID s = Ok (1, s') ∧
        spaces s' = spaces s ∧ invPageTable s' = invPageTable s ∧
        memMap s' = memMap s ∧ fileSystem s' = fileSystem s ∧
        mainMemory s' = mainMemory s.
Proof.
  intros Hsem Hfull [s1 HS].
  set (s0 := set_invPageTableSemaphore (invPageTableSemaphore s - 1) s).
  exists (set_invPageTableSemaphore (invPageTableSemaphore s - 1) s1).
  split.
  - apply PageFaultLoadPage_Ok. exists s0, (-1), s0.
    split; [by apply Semaphore_P_Ok |].
    split; [by apply BitMap_Find_full |].
    right. split; [done |]. eexists _, _. split; [| left; done].
    unfold s0. rewrite FrameSearch_semaphore. by rewrite HS.
  - destruct (FrameSearch_returns s) as (? & ? & HS' & Hs1);
      rewrite HS in HS'; by destruct Hs1; simplify_eq.
Qed.

(** The policies that yield no victim: abort mode, and aged-victim mode
    when no entry has a positive age. *)
Lemma no_victim_abort s : swapMode s = 0 → ∃ s1, FrameSearch s = Ok (-1, s1).
Proof. intros. exists s. by apply FrameSearch_abort. Qed.

Lemma no_victim_aged s :
  swapMode s = 1 → Forall (λ e, time e ≤ 0) (invPageTable s) →
  ∃ s1, FrameSearch s = Ok (-1, s1).
Proof.
  intros Hm Hall. exists s. rewrite FrameSearch_aged by done.
  destruct (FrameSearch_scan_spec (invPageTable s) 0 0 (-1))
    as [[-> _] | (k & e & Hk & _ & Hlt & _)]; [done |].
  rewrite Forall_lookup in Hall. specialize (Hall _ _ Hk). simpl in Hall. lia.
Qed.

(** C3, as amended: in aged-victim mode [FrameSearch] returns the first
    of the entries with the greatest age when some entry has a positive
    age, and -1 when none has; in abort mode it returns -1. *)
Theorem aged_victim_is_first_oldest s :
  (swapMode s = 0 → FrameSearch s = Ok (-1, s)) ∧
  (swapMode s = 1 →
   ∃ r, FrameSearch s = Ok (r, s) ∧
     ((r = -1 ∧ Forall (λ e, time e ≤ 0) (invPageTable s))
      ∨ ∃ e, index (invPageTable s) r = Some e ∧ 0 < time e ∧
             (∀ j e', index (invPageTable s) j = Some e' → time e' ≤ time e) ∧
             (∀ j e', j < r → index (invPageTable s) j = Some e' →
                      time e' < time e))).
Proof.
  split; [apply FrameSearch_abort |].
  intros Hm. eexists. split; [by apply FrameSearch_aged |].
  destruct (FrameSearch_scan_spec (invPageTable s) 0 0 (-1))
    as [[-> Hall] | (k & e & Hk & -> & Hlt & Hmax & Hfirst)]; [by left | right].
  exists e. split; [apply index_Some; rewrite Z.add_0_l, Nat2Z.id; split; [lia | done] |].
  split; [done |]. split.
  - intros j e' [? Hj]%index_Some. by eapply Hmax.
  - intros j e' Hlt' [? Hj]%index_Some. eapply Hfirst; [| exact Hj]. lia.
Qed.

End Lock.

(** ** Resolving a fault *)

Section Fault.
Context `{MachineConfig}.

(** The state [load_frame] leaves, described from the state it starts in. *)
Lemma load_frame_effect this vpn frame theThreadID s r s' :
  0 < PageSize →
  load_frame this vpn (vpn * PageSize) frame (frame * PageSize) theThreadID s
    = Ok (r, s') →
  r = 0 ∧
  fileSystem s' = fileSystem s ∧ memMap s' = memMap s ∧
  invPageTableSemaphore s' = invPageTableSemaphore s + 1 ∧
  ∃ f a pt pte,
    fileSystem s !! swap_filename theThreadID = Some f ∧
    slice (mainMemory s') (frame * PageSize) PageSize
      = slice f (vpn * PageSize) PageSize ∧
    Z.of_nat (length (slice f (vpn * PageSize) PageSize)) = PageSize ∧
    spaces s' !! this = Some a ∧ pageTable a = Some pt ∧
    index pt vpn = Some pte ∧ valid pte = true ∧
    physicalPage pte = Some frame ∧ virtualPage pte = vpn ∧
    index (invPageTable s') frame
      = Some (mkInvEntry 0 theThreadID (currentThread s) vpn) ∧
    length (invPageTable s') = length (invPageTable s) ∧
    (∀ i e, i ≠ frame → index (invPageTable s) i = Some e →
            index (invPageTable s') i = Some (tick e)).
Proof.
  intros HPS (f & mem' & a & pt & pte & pt' & t' & Hf & Hpos & Hlen & Hmem & Ha
              & Hpt & Hpte & Hst & Ht' & -> & ->)%load_frame_Ok.
  simpl. do 4 (split; [done |]).
  assert (Z.of_nat (length (slice f (vpn * PageSize) PageSize)) = PageSize) as Hd.
  { apply Z.le_antisymm; [| done]. unfold slice. rewrite length_take. lia. }
  eexists f, _, pt', _. split; [done |].
  split; [pose proof (slice_store_range _ _ _ _ Hmem) as Hs; by rewrite Hd in Hs |].
  split; [done |].
  split; [apply lookup_insert_eq |]. simpl. split; [done |].
  split; [by eapply index_store |]. simpl. do 3 (split; [done |]).
  split; [by eapply index_store |].
  split; [apply store_length in Ht'; by rewrite Ht', length_fmap |].
  intros i e Hi He. erewrite index_store_ne; [| done | done].
  apply index_Some in He as [? He]. apply index_Some. split; [done |].
  by rewrite list_lookup_fmap, He.
Qed.

(** Up to the point where the frame is loaded, the resolver changes
    neither the registry nor the current thread. *)
Lemma write_back_registry frame s u s' :
  write_back frame s = Ok (u, s') →
  invPageTable s' = invPageTable s ∧ currentThread s' = currentThread s ∧
  memMap s' = memMap s ∧ mainMemory s' = mainMemory s ∧
  invPageTableSemaphore s' = invPageTableSemaphore s.
Proof.
  intros (? & ? & ? & ? & ? & ? & ? & ? & ? & ? & _ & _ & _ & _ & _ & _ & _ & _
          & _ & _ & _ & ->)%write_back_Ok. done.
Qed.

Lemma FrameSearch_registry s r s' :
  FrameSearch s = Ok (r, s') →
  invPageTable s' = invPageTable s ∧ currentThread s' = currentThread s ∧
  memMap s' = memMap s ∧ mainMemory s' = mainMemory s ∧
  fileSystem s' = fileSystem s ∧ spaces s' = spaces s ∧
  threads s' = threads s ∧ swapMode s' = swapMode s.
Proof.
  intros HS. destruct (FrameSearch_returns s) as (? & ? & HS' & Hs1).
  rewrite HS in HS'. by destruct Hs1; simplify_eq.
Qed.

Lemma BitMap_Find_registry s r s' :
  BitMap_Find s = Ok (r, s') →
  invPageTable s' = invPageTable s ∧ currentThread s' = currentThread s ∧
  mainMemory s' = mainMemory s ∧ fileSystem s' = fileSystem s ∧
  spaces s' = spaces s ∧ threads s' = threads s ∧ swapMode s' = swapMode s ∧
  randomCalls s' = randomCalls s.
Proof. by intros [(_ & -> & _) | (_ & _ & ->)]%BitMap_Find_Ok. Qed.

(** The frame a successful resolution ends up with, and the state in
    which it is loaded. *)
Lemma PageFaultLoadPage_success this pageFaultAddr theThreadID s s' :
  let vpn := pageFaultAddr `quot` PageSize in
  PageFaultLoadPage this pageFaultAddr theThreadID s = Ok (0, s') →
  ∃ frame s1,
    load_frame this vpn (vpn * PageSize) frame (frame * PageSize)
      theThreadID s1 = Ok (0, s') ∧
    invPageTable s1 = invPageTable s ∧ currentThread s1 = currentThread s.
Proof.
  intros vpn (s0 & frame & s1 & HP & HF & Hcase)%PageFaultLoadPage_Ok.
  apply Semaphore_P_Ok in HP as [_ ->].
  apply BitMap_Find_registry in HF as (Hi1 & Hc1 & _).
  destruct Hcase as [[_ Hl] | (_ & victim & s2 & HS & Hv)].
  - exists frame, s1. by rewrite Hi1, Hc1.
  - apply FrameSearch_registry in HS as (Hi2 & Hc2 & _).
    destruct Hv as [(_ & [=] & _) | (_ & s3 & HW & Hl)].
    apply write_back_registry in HW as (Hi3 & Hc3 & _).
    exists victim, s3. by rewrite Hi3, Hc3, Hi2, Hc2, Hi1, Hc1.
Qed.


End Fault.

(** ** Eviction *)

Section Eviction.
Context `{MachineConfig}.

(** An assignment to one page table entry, seen through [entry_of]. *)
Lemma entry_of_store s s' sp a pt i x pt' :
  spaces s !! sp = Some a → pageTable a = Some pt → store pt i x = Some pt' →
  spaces s' = <[sp := mkAddrSpace (Some pt') (numPages a)]> (spaces s) →
  entry_of s' sp i = Some x ∧
  ∀ sp' vp, (sp', vp) ≠ (sp, i) → entry_of s' sp' vp = entry_of s sp' vp.
Proof.
  intros Ha Hpt Hst Hs'. unfold entry_of. rewrite Hs'. split.
  - rewrite lookup_insert_eq. simpl. by eapply index_store.
  - intros sp' vp Hne. destruct (decide (sp' = sp)) as [-> | Hsp].
    + rewrite lookup_insert_eq, Ha. simpl. rewrite Hpt. simpl.
      eapply index_store_ne; [done | congruence].
    + by rewrite lookup_insert_ne.
Qed.

Lemma entry_of_Some s sp vp e :
  entry_of s sp vp = Some e ↔
  ∃ a pt, spaces s !! sp = Some a ∧ pageTable a = Some pt ∧ index pt vp = Some e.
Proof.
  unfold entry_of. split.
  - destruct (spaces s !! sp) as [a|]; [simpl | done].
    destruct (pageTable a) as [pt|] eqn:Hpt; [simpl | done]. eauto.
  - intros (a & pt & -> & Hpt & Hi). simpl. by rewrite Hpt.
Qed.

(** [write_back] returns when the victim's registry entry leads to a
    page table entry and to a swap file that holds the page; this is
    what it does then. *)
Lemma write_back_effect victim s e owner pte :
  0 < PageSize →
  index (invPageTable s) victim = Some e →
  0 ≤ victim →
  victim * PageSize + PageSize ≤ Z.of_nat (length (mainMemory s)) →
  owner_of s e = Some owner →
  entry_of s owner (page e) = Some pte →
  backed s (process e) (page e) →
  ∃ s', write_back victim s = Ok (tt, s') ∧
    invPageTable s' = invPageTable s ∧ currentThread s' = currentThread s ∧
    memMap s' = memMap s ∧ mainMemory s' = mainMemory s ∧
    invPageTableSemaphore s' = invPageTableSemaphore s ∧
    swap_bytes s' (process e) (page e) = Some (frame_bytes s victim) ∧
    (∀ ID vp, backed s ID vp → backed s' ID vp) ∧
    (∃ pte', entry_of s' owner (page e) = Some pte' ∧ valid pte' = false) ∧
    (∀ sp vp, (sp, vp) ≠ (owner, page e) →
              entry_of s' sp vp = entry_of s sp vp).
Proof.
  intros HPS He Hv Hmem Hown Hpte (f & Hf & Hvp & Hfit).
  unfold owner_of in Hown.
  destruct (processThread e) as [t|] eqn:Ht; [simpl in Hown | done].
  destruct (threads s !! t) as [th|] eqn:Hth; [simpl in Hown | done].
  apply entry_of_Some in Hpte as (a & pt & Ha & Hpt & Hi).
  set (d := slice (mainMemory s) (victim * PageSize) PageSize).
  assert (Z.of_nat (length d) = PageSize) as Hd
    by (apply slice_length; lia).
  set (pte' := mkTranslationEntry (virtualPage pte) (physicalPage pte) false
                 (readOnly pte) (use pte) (dirty pte)).
  destruct (store pt (page e) pte') as [pt'|] eqn:Hst.
  2:{ exfalso. unfold store in Hst.
      assert (0 ≤ page e < Z.of_nat (length pt)) as [? ?]
        by (apply index_is_Some; eauto).
      destruct (Z.leb_spec 0 (page e)), (Z.ltb_spec (page e) (Z.of_nat (length pt)));
        simpl in Hst; (done || lia). }
  eexists. split.
  { apply write_back_Ok. exists e, f, d, t, th, owner, a, pt, pte, pt'.
    do 2 (split; [done |]).
    split; [apply load_range_Some; repeat split; (done || nia) |].
    split; [nia |]. by repeat (split; [done |]). }
  simpl. do 5 (split; [done |]).
  assert (take (Z.to_nat PageSize) d = d) as Htd
    by (apply take_ge; lia).
  split; [| split; [| split]].
  - unfold swap_bytes, frame_bytes. simpl. rewrite lookup_insert_eq. simpl.
    f_equal. rewrite Htd. fold d.
    pose proof (slice_file_write f (page e * PageSize) d) as Hs.
    rewrite Hd in Hs. apply Hs; nia.
  - intros ID vp (g & Hg & ? & ?). unfold backed. simpl.
    destruct (decide (swap_filename (process e) = swap_filename ID)) as [Heq | Hne].
    + rewrite Heq, lookup_insert_eq. eexists. split; [done |].
      rewrite file_write_length. rewrite Heq in Hf. by simplify_eq.
    + rewrite lookup_insert_ne by done. eauto.
  - exists pte'. split; [| done].
    by eapply (entry_of_store s _ owner a pt (page e)).
  - by eapply (entry_of_store s _ owner a pt (page e)).
Qed.

(** [load_frame] returns when the swap file holds the page, the page
    table has the entry, and the frame lies in memory and in the
    registry. *)
Lemma load_frame_runs this vpn frame theThreadID s :
  0 < PageSize →
  backed s theThreadID vpn →
  is_Some (entry_of s this vpn) →
  0 ≤ frame →
  frame * PageSize + PageSize ≤ Z.of_nat (length (mainMemory s)) →
  frame < Z.of_nat (length (invPageTable s)) →
  ∃ s', load_frame this vpn (vpn * PageSize) frame (frame * PageSize)
          theThreadID s = Ok (0, s') ∧
        ∀ sp vp, (sp, vp) ≠ (this, vpn) → entry_of s' sp vp = entry_of s sp vp.
Proof.
  intros HPS (f & Hf & Hvp & Hfit) [pte Hpte] Hfr Hmem Hreg.
  apply entry_of_Some in Hpte as (a & pt & Ha & Hpt & Hi).
  set (d := slice f (vpn * PageSize) PageSize).
  assert (Z.of_nat (length d) = PageSize) as Hd by (apply slice_length; lia).
  assert (0 ≤ vpn < Z.of_nat (length pt)) as [? ?]
    by (apply index_is_Some; eauto).
  eexists. split.
  - apply load_frame_Ok. exists f. eexists _, a, pt, pte, _, _.
    split; [done |]. split; [lia |]. split; [fold d; lia |].
    split; [apply store_range_Some; fold d; split; [lia | split; [lia | done]] |].
    do 3 (split; [done |]).
    split; [apply store_Some; split; [lia | done] |].
    split; [apply store_Some; rewrite length_fmap; split; [lia | done] |].
    done.
  - simpl. eapply (entry_of_store s _ this a pt vpn); [done | done | | done].
    apply store_Some. split; [lia | done].
Qed.

(** C6: with no free frame and a victim from the eviction policy, the
    resolver writes the victim frame's bytes to the swap file of the
    victim's owner at the victim page's offset, whatever the dirty flag
    says, leaves the owner's page table entry invalid, and maps the
    faulting page to the victim frame; no frame is taken from the pool. *)
Theorem eviction_writes_back_and_reuses
    this pageFaultAddr theThreadID s victim s1 e owner pte :
  0 < PageSize →
  invPageTableSemaphore s ≠ 0 →
  Forall (λ b, b = true) (memMap s) →
  FrameSearch s = Ok (victim, s1) → victim ≠ -1 →
  index (invPageTable s) victim = Some e →
  victim * PageSize + PageSize ≤ Z.of_nat (length (mainMemory s)) →
  owner_of s e = Some owner →
  entry_of s owner (page e) = Some pte →
  backed s (process e) (page e) →
  let vpn := pageFaultAddr `quot` PageSize in
  backed s theThreadID vpn →
  is_Some (entry_of s this vpn) →
  ∃ s', PageFaultLoadPage this pageFaultAddr theThreadID s = Ok (0, s') ∧
    memMap s' = memMap s ∧
    swap_bytes s' (process e) (page e) = Some (frame_bytes s victim) ∧
    ((owner, page e) ≠ (this, vpn) →
     ∃ pte', entry_of s' owner (page e) = Some pte' ∧ valid pte' = false) ∧
    (∃ pte', entry_of s' this vpn = Some pte' ∧ valid pte' = true ∧
             physicalPage pte' = Some victim) ∧
    swap_bytes s' theThreadID vpn = Some (frame_bytes s' victim).
Proof.
  intros HPS Hsem Hfull HS Hne He Hmem Hown Hpte Hback vpn Hback' Hthis.
  set (v := invPageTableSemaphore s - 1).
  assert (FrameSearch (set_invPageTableSemaphore v s)
          = Ok (victim, set_invPageTableSemaphore v s1)) as HS0
    by (by rewrite FrameSearch_semaphore, HS).
  apply FrameSearch_registry in HS
    as (Hi1 & Hc1 & Hm1 & Hmm1 & Hf1 & Hsp1 & Hth1 & _).
  set (s2 := set_invPageTableSemaphore v s1) in *.
  assert (0 ≤ victim) as Hv0 by (by apply index_Some in He as [? _]).
  destruct (write_back_effect victim s2 e owner pte)
    as (s3 & HW & Hi3 & Hc3 & Hm3 & Hmm3 & _ & Hswap & Hback3 & Hinv & Hframe3);
    [done | by rewrite <- Hi1 in He | done | by rewrite <- Hmm1 in Hmem
     | unfold owner_of in *; simpl; by rewrite Hth1
     | unfold entry_of in *; simpl; by rewrite Hsp1
     | unfold backed in *; simpl; by rewrite Hf1 |].
  assert (is_Some (entry_of s3 this vpn)) as Hthis3.
  { destruct (decide ((this, vpn) = (owner, page e))) as [[= -> ->] | Hd].
    - destruct Hinv as (? & -> & _). done.
    - rewrite Hframe3 by done. unfold entry_of in *. simpl. by rewrite Hsp1. }
  destruct (load_frame_runs this vpn victim theThreadID s3)
    as (s' & Hl & Hframe');
    [done | apply Hback3; unfold backed in *; simpl; by rewrite Hf1 | done
     | done | rewrite Hmm3; simpl; by rewrite Hmm1
     | rewrite Hi3; simpl; rewrite Hi1;
       apply (index_is_Some (invPageTable s) victim); eauto |].
  exists s'. split.
  { apply PageFaultLoadPage_Ok.
    exists (set_invPageTableSemaphore v s), (-1), (set_invPageTableSemaphore v s).
    split; [by apply Semaphore_P_Ok |].
    split; [by apply BitMap_Find_full |].
    right. split; [done |]. exists victim, s2. split; [done |].
    right. split; [done |]. by exists s3. }
  apply load_frame_effect in Hl
    as (_ & Hfs & Hm' & _ & f & a & pt & pte2 & Hf & Hbytes & _ & Ha & Hpt & Hpte2
        & Hval & Hpp & _); [| done].
  split; [by rewrite Hm', Hm3 |].
  split.
  { unfold swap_bytes in *. rewrite Hfs, Hswap. unfold frame_bytes. simpl.
    by rewrite Hmm1. }
  split.
  { intros Hd. rewrite Hframe' by done. exact Hinv. }
  split.
  { exists pte2. split; [| done]. apply entry_of_Some. eauto. }
  unfold swap_bytes, frame_bytes. rewrite Hfs, Hf. simpl. by rewrite Hbytes.
Qed.

End Eviction.

(** ** Construction *)

Section Construction.
Context `{MachineConfig}.

(** [divRoundUp] is the ceiling of the quotient. *)
Lemma divRoundUp_bounds n s :
  0 ≤ n → 0 < s →
  (divRoundUp n s - 1) * s < n ≤ divRoundUp n s * s.
Proof.
  intros Hn Hs. unfold divRoundUp.
  rewrite Z.quot_div_nonneg, Z.rem_mod_nonneg by lia.
  pose proof (Z.div_mod n s ltac:(lia)).
  pose proof (Z.mod_pos_bound n s Hs).
  destruct (Z.gtb_spec (n `mod` s) 0); nia.
Qed.

Lemma divRoundUp_ceiling n s :
  0 ≤ n → 0 < s →
  divRoundUp n s = Qceiling (inject_Z n / inject_Z s)%Q.
Proof.
  intros Hn Hs. pose proof (divRoundUp_bounds n s Hn Hs) as Hb.
  destruct s as [|p|p]; [lia | | lia].
  unfold Qceiling, Qfloor, Qdiv, Qinv, Qmult, Qopp, inject_Z. simpl.
  rewrite Z.mul_1_r.
  assert ((divRoundUp n (Z.pos p) - 1) * Z.pos p < n ≤ divRoundUp n (Z.pos p) * Z.pos p)
    as [Hlo Hhi] by done.
  rewrite Pos.mul_1_l.
  assert (- divRoundUp n (Z.pos p) = - n / Z.pos p) as <-; [| lia].
  apply (Z.div_unique_pos _ _ _ (- n + divRoundUp n (Z.pos p) * Z.pos p)); lia.
Qed.

Lemma read_header_Ok executable s noffH s' :
  read_header executable s = Ok (noffH, s') ↔
  noffH = loaded_header executable ∧ noffMagic noffH = NOFFMAGIC ∧ s' = s.
Proof.
  unfold read_header.
  destruct (Z.eqb_spec (noffMagic (loaded_header executable)) NOFFMAGIC);
    [rewrite ret_Ok | rewrite fail_Ok]; naive_solver.
Qed.

Lemma space_numPages_ceiling noffH :
  0 < PageSize → 0 ≤ image_size noffH < 2 ^ 32 →
  space_numPages noffH = Qceiling (inject_Z (image_size noffH) / inject_Z PageSize)%Q.
Proof.
  intros HPS Hsz. unfold space_numPages, space_size, to_uint.
  fold (image_size noffH). rewrite Z.mod_small by done.
  apply divRoundUp_ceiling; lia.
Qed.

Lemma index_fresh_entries n i :
  0 ≤ i < n → index (fresh_entry <$> seqZ 0 n) i = Some (fresh_entry i).
Proof.
  intros Hi. apply index_Some. split; [lia |].
  rewrite list_lookup_fmap, lookup_seqZ_lt by lia. simpl. f_equal. f_equal. lia.
Qed.

(** C8: the constructor computes
    numPages = ceil((code + initData + uninitData + stack) / PageSize),
    makes a page table of exactly that many entries, entry [i] with
    virtualPage [i] and valid, dirty and readOnly all false, and writes
    nothing to physical memory. *)
Theorem constructor_builds_page_table this executable s :
  let noffH := loaded_header executable in
  0 < PageSize →
  noffMagic noffH = NOFFMAGIC →
  0 ≤ image_size noffH < 2 ^ 32 →
  (invPageTableNotYetLoaded s ≠ 0 → invPageTableSemaphore s ≠ 0) →
  ∃ s' n pt,
    AddrSpace_ctor this executable s = Ok (tt, s') ∧
    spaces s' !! this = Some (mkAddrSpace (Some pt) n) ∧
    n = Qceiling (inject_Z (image_size noffH) / inject_Z PageSize)%Q ∧
    Z.of_nat (length pt) = n ∧
    (∀ i, 0 ≤ i < n →
       ∃ e, index pt i = Some e ∧ virtualPage e = i ∧ valid e = false ∧
            dirty e = false ∧ readOnly e = false) ∧
    mainMemory s' = mainMemory s.
Proof.
  intros noffH HPS Hmagic Hsz Hlock.
  assert (0 ≤ space_numPages noffH) as Hn.
  { rewrite space_numPages_ceiling by done. unfold space_numPages.
    rewrite <- divRoundUp_ceiling by lia.
    pose proof (divRoundUp_bounds (image_size noffH) PageSize). nia. }
  assert (∀ s0, read_header executable s0 = Ok (noffH, s0)) as Hread
    by (intros; by apply read_header_Ok).
  assert (∃ s', AddrSpace_ctor this executable s = Ok (tt, s') ∧
            spaces s' !! this
              = Some (mkAddrSpace
                        (Some (fresh_entry <$> seqZ 0 (space_numPages noffH)))
                        (space_numPages noffH)) ∧
            mainMemory s' = mainMemory s) as (s' & Hrun & Hthis & Hmem).
  { unfold AddrSpace_ctor.
    erewrite bind_eval; [| by apply gets_Ok].
    destruct (Z.eqb_spec (invPageTableNotYetLoaded s) 0) as [Hz | Hnz]; simpl.
    - erewrite bind_eval; [| by apply (ret_Ok tt)].
      erewrite bind_eval; [| apply Hread].
      eexists. split; [done |]. simpl. split; [apply lookup_insert_eq | done].
    - erewrite bind_eval.
      2:{ erewrite bind_eval; [| apply (Semaphore_P_Ok _ tt); eauto].
          erewrite bind_eval; [| by apply (modify_Ok _ _ tt)].
          erewrite bind_eval; [| by apply (modify_Ok _ _ tt)].
          by apply (Semaphore_V_Ok _ tt). }
      erewrite bind_eval; [| apply Hread].
      eexists. split; [done |]. simpl. split; [apply lookup_insert_eq | done]. }
  exists s', (space_numPages noffH), (fresh_entry <$> seqZ 0 (space_numPages noffH)).
  do 2 (split; [done |]).
  split; [by apply space_numPages_ceiling |].
  split; [rewrite length_fmap, length_seqZ; lia |].
  split; [| done].
  intros i Hi. exists (fresh_entry i). by rewrite index_fresh_entries.
Qed.

End Construction.

(** ** The swap image *)

Section SwapImage.
Context `{MachineConfig}.

(** One segment copied into the image. *)
Lemma read_segment_effect executable (swapData : list byte) g s :
  segment_fits executable (Z.of_nat (length swapData)) g →
  ∃ sd', read_segment executable swapData g s = Ok (sd', s) ∧
    length sd' = length swapData ∧
    (∀ j, in_segment g j →
       index sd' j
       = index (exe_bytes executable) (inFileAddr g + (j - virtualAddr g))) ∧
    (∀ j, ¬ in_segment g j → index sd' j = index swapData j).
Proof.
  intros Hfit. unfold read_segment, in_segment.
  destruct (Z.gtb_spec (size g) 0) as [Hpos | Hnpos].
  - destruct (Hfit Hpos) as (Hva & Hend & Hifa & Hfile).
    destruct (Z.ltb_spec (inFileAddr g) 0) as [? | _]; [lia |].
    set (d := slice (exe_bytes executable) (inFileAddr g) (size g)).
    assert (Z.of_nat (length d) = size g) as Hd by (apply slice_length; lia).
    destruct (store_range swapData (virtualAddr g) d) as [sd'|] eqn:Hst.
    2:{ exfalso. unfold store_range in Hst.
        destruct (Z.leb_spec 0 (virtualAddr g)),
          (Z.leb_spec (virtualAddr g + Z.of_nat (length d))
             (Z.of_nat (length swapData))); simpl in Hst; (done || lia). }
    exists sd'. split; [done |].
    split; [by eapply store_range_length |]. split.
    + intros j Hj. unfold index.
      destruct (Z.leb_spec 0 j) as [_ | ?]; [| lia].
      destruct (Z.leb_spec 0 (inFileAddr g + (j - virtualAddr g))) as [_ | ?];
        [| lia].
      replace (Z.to_nat j)
        with (Z.to_nat (virtualAddr g) + Z.to_nat (j - virtualAddr g))%nat by lia.
      erewrite lookup_store_range; [| done | lia].
      unfold d. rewrite lookup_slice by lia. f_equal. lia.
    + intros j Hj. unfold index. destruct (Z.leb_spec 0 j) as [? | ?]; [| done].
      eapply lookup_store_range_ne; [done | lia].
  - exists swapData. split; [done |]. split; [done |].
    split; [intros; lia | done].
Qed.

(** C9: [GenerateSWAP] leaves a file named "<ID>.swap" of exactly
    numPages * PageSize bytes that holds the code segment at the code
    segment's virtual address, the initialised data at theirs, and zero
    everywhere else. *)
Theorem GenerateSWAP_writes_image this executable ID s :
  let noffH := loaded_header executable in
  let n := space_numPages noffH in
  0 < PageSize →
  noffMagic noffH = NOFFMAGIC →
  0 ≤ image_size noffH →
  image_size noffH + PageSize ≤ 2 ^ 32 →
  is_Some (spaces s !! this) →
  segment_fits executable (n * PageSize) (code noffH) →
  segment_fits executable (n * PageSize) (initData noffH) →
  (∀ j, in_segment (code noffH) j → in_segment (initData noffH) j → False) →
  ∃ s' f,
    GenerateSWAP this executable ID s = Ok (tt, s') ∧
    fileSystem s' !! (pretty ID +:+ ".swap") = Some f ∧
    Z.of_nat (length f) = n * PageSize ∧
    numPages <$> spaces s' !! this = Some n ∧
    (∀ j, in_segment (code noffH) j →
       index f j = index (exe_bytes executable)
                     (inFileAddr (code noffH) + (j - virtualAddr (code noffH)))) ∧
    (∀ j, in_segment (initData noffH) j →
       index f j = index (exe_bytes executable)
                     (inFileAddr (initData noffH)
                      + (j - virtualAddr (initData noffH)))) ∧
    (∀ j, 0 ≤ j < n * PageSize →
       ¬ in_segment (code noffH) j → ¬ in_segment (initData noffH) j →
       index f j = Some x00).
Proof.
  intros noffH n HPS Hmagic Hsz0 Hsz [a Ha] Hcode Hdata Hdisj.
  assert (0 ≤ n * PageSize < 2 ^ 32) as Hn.
  { pose proof (divRoundUp_bounds (image_size noffH) PageSize Hsz0 HPS) as Hb.
    unfold n, space_numPages, space_size, to_uint. fold (image_size noffH).
    rewrite Z.mod_small by lia. nia. }
  assert (to_uint (n * PageSize) = n * PageSize) as Hu
    by (unfold to_uint; by rewrite Z.mod_small).
  set (len := Z.to_nat (n * PageSize)).
  set (sd0 := replicate len x00).
  assert (Z.of_nat (length sd0) = n * PageSize) as Hl0
    by (unfold sd0, len; rewrite length_replicate; lia).
  set (s1 := set_fileSystem (<[swap_filename ID := sd0]> (fileSystem s))
               (set_spaces (<[this := mkAddrSpace (pageTable a) n]> (spaces s)) s)).
  destruct (read_segment_effect executable sd0 (code noffH) s1)
    as (sd1 & Hr1 & Hl1 & Hin1 & Hout1); [by rewrite Hl0 |].
  destruct (read_segment_effect executable sd1 (initData noffH) s1)
    as (sd2 & Hr2 & Hl2 & Hin2 & Hout2); [by rewrite Hl1, Hl0 |].
  eexists _, sd2. split.
  { unfold GenerateSWAP.
    erewrite bind_eval; [| by apply read_header_Ok].
    cbv zeta. fold noffH. fold n. rewrite Hu.
    erewrite bind_eval; [| by apply get_space_Ok].
    erewrite bind_eval; [| by apply (modify_Ok _ _ tt)].
    erewrite bind_eval; [| by apply (modify_Ok _ _ tt)].
    erewrite bind_eval.
    2:{ apply FileSystem_Open_Ok. split; [done |]. simpl.
        by rewrite lookup_insert_eq. }
    fold len sd0 s1.
    erewrite bind_eval; [| exact Hr1]. erewrite bind_eval; [| exact Hr2].
    apply OpenFile_WriteAt_Ok. eexists _, sd0.
    split; [done |]. split; [apply lookup_insert_eq |]. split; [done |].
    rewrite take_ge by lia. rewrite file_write_all by lia. done. }
  simpl. rewrite insert_insert_eq.
  split; [apply lookup_insert_eq |].
  split; [lia |].
  split; [by rewrite lookup_insert_eq |].
  split; [| split].
  - intros j Hj. rewrite Hout2; [by apply Hin1 | naive_solver].
  - done.
  - intros j Hj Hnc Hnd. rewrite Hout2, Hout1 by done.
    apply index_Some. split; [lia |]. apply lookup_replicate_2. lia.
Qed.

End SwapImage.

(** ** Teardown *)

Section Teardown.
Context `{MachineConfig}.

Lemma assign_all_length {A} (x : A) fs a :
  length (assign_all x fs a) = length a.
Proof.
  revert a. induction fs as [|f fs IH]; intros a; simpl; [done |].
  unfold assign_all in *. simpl. by rewrite IH, length_insert.
Qed.

Lemma assign_all_app {A} (x : A) fs1 fs2 a :
  assign_all x (fs1 ++ fs2) a = assign_all x fs2 (assign_all x fs1 a).
Proof. unfold assign_all. apply foldl_app. Qed.

Lemma index_assign_all_notin {A} (x : A) fs a j :
  Forall (λ f, 0 ≤ f) fs → j ∉ fs →
  index (assign_all x fs a) j = index a j.
Proof.
  revert a. induction fs as [|f fs IH]; intros a Hpos Hj; [done |].
  apply Forall_cons in Hpos as [Hf Hpos].
  apply not_elem_of_cons in Hj as [Hne Hj].
  change (assign_all x (f :: fs) a) with (assign_all x fs (<[Z.to_nat f := x]> a)).
  rewrite IH by done. unfold index. destruct (Z.leb_spec 0 j); [| done].
  apply list_lookup_insert_ne. lia.
Qed.

Lemma index_assign_all_in {A} (x : A) fs a j :
  Forall (λ f, 0 ≤ f < Z.of_nat (length a)) fs → j ∈ fs →
  index (assign_all x fs a) j = Some x.
Proof.
  revert a. induction fs as [|f fs IH]; intros a Hpos Hj; [by apply elem_of_nil in Hj |].
  apply Forall_cons in Hpos as [Hf Hpos].
  change (assign_all x (f :: fs) a) with (assign_all x fs (<[Z.to_nat f := x]> a)).
  destruct (decide (j ∈ fs)) as [Hin | Hnin].
  - apply IH; [| done]. by rewrite length_insert.
  - apply elem_of_cons in Hj as [-> | ?]; [| done].
    rewrite index_assign_all_notin; [| | done].
    + apply index_Some. split; [lia |]. apply list_lookup_insert_eq. lia.
    + eapply Forall_impl; [exact Hpos |]. simpl. lia.
Qed.

(** Releasing an allocated frame frees exactly one frame. *)
Lemma NumClear_release (m : list bool) (i : nat) :
  m !! i = Some true →
  BitMap_NumClear (<[i := false]> m) = S (BitMap_NumClear m).
Proof.
  intros Hi. unfold BitMap_NumClear.
  rewrite <- (take_drop_middle m i true Hi) at 2.
  rewrite insert_take_drop by (by eapply lookup_lt_Some).
  rewrite !filter_app, !length_app, filter_cons_True by done.
  rewrite (filter_cons_False _ true) by done. simpl. lia.
Qed.

Lemma NumClear_release_all fs (m : list bool) :
  NoDup fs →
  Forall (λ f, index m f = Some true) fs →
  BitMap_NumClear (assign_all false fs m) = (BitMap_NumClear m + length fs)%nat.
Proof.
  revert m. induction fs as [|f fs IH]; intros m Hnd Hall; simpl; [lia |].
  apply NoDup_cons in Hnd as [Hf Hnd]. apply Forall_cons in Hall as [Hmf Hall].
  change (assign_all false (f :: fs) m)
    with (assign_all false fs (<[Z.to_nat f := false]> m)).
  apply index_Some in Hmf as [Hf0 Hmf].
  rewrite IH, NumClear_release; [lia | done | done |].
  rewrite Forall_forall in Hall. apply Forall_forall. intros g Hg.
  specialize (Hall g Hg). apply index_Some in Hall as [Hg0 Hmg].
  apply index_Some. split; [done |].
  rewrite list_lookup_insert_ne; [done |]. intros Heq.
  assert (f = g) as -> by lia. done.
Qed.

Lemma frames_of_cons e pt :
  frames_of (e :: pt) = frames_of [e] ++ frames_of pt.
Proof. unfold frames_of. simpl. by destruct (valid e), (physicalPage e). Qed.

Lemma BitMap_Clear_Ok which s :
  0 ≤ which < Z.of_nat (length (memMap s)) →
  BitMap_Clear which s
  = Ok (tt, set_memMap (<[Z.to_nat which := false]> (memMap s)) s).
Proof.
  intros Hw. unfold BitMap_Clear.
  by destruct (Z.leb_spec 0 which), (Z.ltb_spec which (Z.of_nat (length (memMap s))));
    [| lia | lia | lia].
Qed.

(** One round of the destructor's loop. *)
Lemma dtor_body_effect this i s a pt e :
  spaces s !! this = Some a → pageTable a = Some pt → index pt i = Some e →
  (valid e = true →
   ∃ f, physicalPage e = Some f ∧ 0 ≤ f < Z.of_nat (length (memMap s)) ∧
        f < Z.of_nat (length (invPageTable s))) →
  ∃ s', dtor_body this i s = Ok (tt, s') ∧
    spaces s' = <[this := mkAddrSpace (Some (<[Z.to_nat i := retired e]> pt))
                            (numPages a)]> (spaces s) ∧
    memMap s' = assign_all false (frames_of [e]) (memMap s) ∧
    invPageTable s' = assign_all cleared_entry (frames_of [e]) (invPageTable s).
Proof.
  intros Ha Hpt Hi Hvalid. unfold dtor_body.
  assert (0 ≤ i < Z.of_nat (length pt)) as Hrange
    by (apply index_is_Some; eauto).
  erewrite bind_eval; [| apply get_entry_Ok; eauto 10].
  unfold frames_of. simpl. destruct (valid e) eqn:Hv.
  - destruct Hvalid as (f & Hf & Hm & Hr); [done |]. rewrite Hf. simpl.
    erewrite bind_eval.
    2:{ erewrite bind_eval; [| by apply ret_Ok].
        erewrite bind_eval; [| by apply BitMap_Clear_Ok].
        apply (set_inv_Ok _ _ _ tt). eexists. split; [| done].
        apply store_Some. simpl. split; [lia | done]. }
    eexists. split.
    + apply set_entry_Ok. eexists a, pt, _. do 2 (split; [done |]).
      split; [apply store_Some; split; [lia | done] | done].
    + simpl. unfold retired. by rewrite Hf.
  - erewrite bind_eval; [| by apply (ret_Ok tt)].
    eexists. split.
    + apply set_entry_Ok. eexists a, pt, _. do 2 (split; [done |]).
      split; [apply store_Some; split; [lia | done] | done].
    + done.
Qed.

(** The rounds from [k] on. *)
Lemma dtor_loop_from this np (n : nat) :
  ∀ (k : nat) s pt,
    spaces s !! this = Some (mkAddrSpace (Some pt) np) →
    (k + n = length pt)%nat →
    (∀ e, e ∈ drop k pt → valid e = true →
       ∃ f, physicalPage e = Some f ∧ 0 ≤ f < Z.of_nat (length (memMap s)) ∧
            f < Z.of_nat (length (invPageTable s))) →
    ∃ s', for_each (dtor_body this) (seqZ (Z.of_nat k) (Z.of_nat n)) s
          = Ok (tt, s') ∧
      spaces s' = <[this := mkAddrSpace
                              (Some (take k pt ++ (retired <$> drop k pt))) np]>
                    (spaces s) ∧
      memMap s' = assign_all false (frames_of (drop k pt)) (memMap s) ∧
      invPageTable s'
        = assign_all cleared_entry (frames_of (drop k pt)) (invPageTable s).
Proof.
  induction n as [|n IH]; intros k s pt Ha Hlen Hvalid.
  - exists s. rewrite drop_ge, take_ge by lia. simpl. rewrite app_nil_r.
    split; [done |]. split; [| done]. by rewrite insert_id.
  - destruct (lookup_lt_is_Some_2 pt k) as [e He]; [lia |].
    rewrite seqZ_cons by lia. simpl.
    rewrite <- (take_drop_middle pt k e He) in Hvalid.
    rewrite (drop_S pt e k He).
    rewrite drop_app_length' in Hvalid by (rewrite length_take; lia).
    destruct (dtor_body_effect this (Z.of_nat k) s _ pt e Ha eq_refl)
      as (s1 & Hbody & Hsp1 & Hm1 & Hr1).
    { apply index_Some. rewrite Nat2Z.id. split; [lia | done]. }
    { intros Hv. apply Hvalid; [left | done]. }
    simpl in Hsp1. rewrite Nat2Z.id in Hsp1.
    set (pt1 := <[k := retired e]> pt) in *.
    destruct (IH (S k) s1 pt1) as (s' & Hloop & Hsp' & Hm' & Hr').
    { rewrite Hsp1. apply lookup_insert_eq. }
    { unfold pt1. rewrite length_insert. lia. }
    { intros e' He' Hv'. unfold pt1 in He'. rewrite drop_insert_lt in He' by lia.
      rewrite Hm1, Hr1, !assign_all_length. apply Hvalid; [by right | done]. }
    exists s'. split.
    { erewrite bind_eval; [| exact Hbody].
      replace (Z.succ (Z.of_nat k)) with (Z.of_nat (S k)) by lia.
      replace (Z.pred (Z.of_nat (S n))) with (Z.of_nat n) by lia. exact Hloop. }
    assert (drop (S k) pt1 = drop (S k) pt) as Hdrop
      by (unfold pt1; apply drop_insert_lt; lia).
    split; [| split].
    + rewrite Hsp', Hsp1, insert_insert_eq, Hdrop. do 3 f_equal.
      unfold pt1. rewrite (take_S_r _ _ (retired e)).
      * rewrite take_insert_ge by lia. rewrite <- app_assoc. reflexivity.
      * apply list_lookup_insert_eq. lia.
    + rewrite Hm', Hm1, Hdrop, (frames_of_cons e (drop (S k) pt)).
      by rewrite assign_all_app.
    + rewrite Hr', Hr1, Hdrop, (frames_of_cons e (drop (S k) pt)).
      by rewrite assign_all_app.
Qed.

Lemma elem_of_frames_of pt f :
  f ∈ frames_of pt ↔ ∃ e, e ∈ pt ∧ valid e = true ∧ physicalPage e = Some f.
Proof.
  unfold frames_of. rewrite list_elem_of_omap. split.
  - intros (e & He & Hf). exists e. by destruct (valid e).
  - intros (e & He & Hv & Hf). exists e. by rewrite Hv.
Qed.

Lemma frames_of_length pt :
  (∀ e, e ∈ pt → valid e = true → is_Some (physicalPage e)) →
  length (frames_of pt) = length (filter (λ e, valid e = true) pt).
Proof.
  induction pt as [|e pt IH]; intros Hall; [done |].
  rewrite frames_of_cons, length_app, IH by (intros; apply Hall; [by right | done]).
  unfold frames_of. simpl. destruct (valid e) eqn:Hv.
  - destruct (Hall e) as [f Hf]; [by left | done |].
    rewrite Hf, filter_cons_True by done. done.
  - rewrite filter_cons_False by (by rewrite Hv). done.
Qed.

(** C7: destroying an address space with K valid page table entries
    releases the K frames they map to and clears the registry entries
    of those frames (age 0, process -1, page -1, no thread), leaves
    every page table entry invalid and not dirty before the table is
    deleted, and touches no other frame and no other registry entry. *)
Theorem destructor_releases_frames this s a pt :
  spaces s !! this = Some a →
  pageTable a = Some pt →
  numPages a = Z.of_nat (length pt) →
  (∀ e, e ∈ pt → valid e = true →
     ∃ f, physicalPage e = Some f ∧ 0 ≤ f < Z.of_nat (length (memMap s)) ∧
          f < Z.of_nat (length (invPageTable s))) →
  let K := length (filter (λ e, valid e = true) pt) in
  ∃ s1 s' pt1,
    dtor_loop this s = Ok (tt, s1) ∧
    (pageTable <$> spaces s1 !! this) = Some (Some pt1) ∧
    length pt1 = length pt ∧
    Forall (λ e, valid e = false ∧ dirty e = false) pt1 ∧
    AddrSpace_dtor this s = Ok (tt, s') ∧
    (pageTable <$> spaces s' !! this) = Some None ∧
    length (frames_of pt) = K ∧
    (∀ f, f ∈ frames_of pt →
       index (memMap s') f = Some false ∧
       index (invPageTable s') f = Some (mkInvEntry 0 (-1) None (-1))) ∧
    (∀ f, f ∉ frames_of pt →
       index (memMap s') f = index (memMap s) f ∧
       index (invPageTable s') f = index (invPageTable s) f) ∧
    (NoDup (frames_of pt) →
     (∀ f, f ∈ frames_of pt → index (memMap s) f = Some true) →
     BitMap_NumClear (memMap s') = (BitMap_NumClear (memMap s) + K)%nat).
Proof.
  intros Ha Hpt Hnp Hvalid K. destruct a as [opt np]. simpl in *. subst opt np.
  destruct (dtor_loop_from this (Z.of_nat (length pt)) (length pt) 0%nat s pt)
    as (s1 & Hloop & Hsp1 & Hm1 & Hr1); [done | done | by rewrite drop_0 |].
  rewrite drop_0, take_0 in *. simpl in Hsp1.
  assert (dtor_loop this s = Ok (tt, s1)) as Hdl.
  { unfold dtor_loop. erewrite bind_eval; [| by apply get_space_Ok]. done. }
  assert (Forall (λ f, 0 ≤ f < Z.of_nat (length (memMap s))) (frames_of pt)
          ∧ Forall (λ f, 0 ≤ f < Z.of_nat (length (invPageTable s))) (frames_of pt))
    as [HFm HFr].
  { split; apply Forall_forall; intros f (e & He & Hv & Hf)%elem_of_frames_of;
      destruct (Hvalid e He Hv) as (f' & Hf' & ? & ?); simplify_eq; lia. }
  assert (Forall (λ f, 0 ≤ f) (frames_of pt)) as HF0
    by (eapply Forall_impl; [exact HFm | simpl; lia]).
  exists s1, (set_spaces (<[this := mkAddrSpace None (Z.of_nat (length pt))]> (spaces s1)) s1),
    (retired <$> pt).
  split; [done |].
  split; [by rewrite Hsp1, lookup_insert_eq |].
  split; [by rewrite length_fmap |].
  split; [apply Forall_fmap, Forall_forall; by intros |].
  split.
  { unfold AddrSpace_dtor. erewrite bind_eval; [| by apply get_space_Ok].
    simpl. erewrite bind_eval; [| exact Hdl]. done. }
  simpl. split; [by rewrite lookup_insert_eq |].
  split.
  { apply frames_of_length. intros e He Hv.
    destruct (Hvalid e He Hv) as (f & -> & _). done. }
  rewrite Hm1, Hr1. split; [| split].
  - intros f Hf. split; [by apply index_assign_all_in |].
    change (mkInvEntry 0 (-1) None (-1)) with cleared_entry.
    by apply index_assign_all_in.
  - intros f Hf. split; by apply index_assign_all_notin.
  - intros Hnd Halloc. unfold K.
    rewrite <- frames_of_length.
    + apply NumClear_release_all; [done |]. by apply Forall_forall.
    + intros e He Hv. destruct (Hvalid e He Hv) as (f & -> & _). done.
Qed.

End Teardown.

(** ** The page table index *)

Section PageIndex.
Context `{MachineConfig}.


(** [write_back] changes no page table's length. *)
Lemma write_back_entries frame s u s' sp vp :
  write_back frame s = Ok (u, s') →
  is_Some (entry_of s' sp vp) → is_Some (entry_of s sp vp).
Proof.
  intros (e & f & d & t & th & owner & a & pt & pte & pt' & _ & _ & _ & _ & _
          & _ & _ & Ha & Hpt & _ & Hst & ->)%write_back_Ok.
  unfold entry_of. simpl. destruct (decide (sp = owner)) as [-> | Hne].
  - rewrite lookup_insert_eq, Ha. simpl. rewrite Hpt. simpl.
    rewrite !index_is_Some. by rewrite (store_length _ _ _ _ Hst).
  - by rewrite lookup_insert_ne.
Qed.

(** A resolution that succeeds has found the faulting page in the page
    table it started with. *)
Lemma PageFaultLoadPage_entry this pageFaultAddr theThreadID s s' :
  PageFaultLoadPage this pageFaultAddr theThreadID s = Ok (0, s') →
  is_Some (entry_of s this (pageFaultAddr `quot` PageSize)).
Proof.
  intros (s0 & frame & s1 & HP & HF & Hcase)%PageFaultLoadPage_Ok.
  apply Semaphore_P_Ok in HP as [_ ->].
  apply BitMap_Find_registry in HF as (_ & _ & _ & _ & Hsp1 & _).
  assert (∀ s2, spaces s2 = spaces s →
            (∃ r s3 frame, load_frame this (pageFaultAddr `quot` PageSize)
               (pageFaultAddr `quot` PageSize * PageSize) frame
               (frame * PageSize) theThreadID s2 = Ok (r, s3)) →
            is_Some (entry_of s this (pageFaultAddr `quot` PageSize))) as Hload.
  { intros s2 Hsp (r & s3 & fr & Hl).
    apply load_frame_Ok in Hl
      as (? & ? & a & pt & pte & ? & ? & _ & _ & _ & _ & Ha & Hpt & Hi & _).
    exists pte. apply entry_of_Some. rewrite <- Hsp. eauto. }
  destruct Hcase as [[_ Hl] | (_ & victim & s2 & HS & Hv)].
  - eapply Hload; [exact Hsp1 | eauto].
  - apply FrameSearch_registry in HS as (_ & _ & _ & _ & _ & Hsp2 & _).
    destruct Hv as [(_ & [=] & _) | (_ & s3 & HW & Hl)].
    assert (is_Some (entry_of s2 this (pageFaultAddr `quot` PageSize))) as Hs2.
    { eapply write_back_entries; [exact HW |].
      apply load_frame_Ok in Hl
        as (? & ? & a & pt & pte & ? & ? & _ & _ & _ & _ & Ha & Hpt & Hi & _).
      exists pte. apply entry_of_Some. eauto. }
    unfold entry_of in *. by rewrite Hsp2, Hsp1 in Hs2.
Qed.


End PageIndex.

(** ** The registry and the pool *)

Section Registry.
Context `{MachineConfig}.

Lemma FrameSearch_scan_range entries i O ans :
  FrameSearch_scan entries i O ans = ans
  ∨ i ≤ FrameSearch_scan entries i O ans < i + Z.of_nat (length entries).
Proof.
  destruct (FrameSearch_scan_spec entries i O ans)
    as [[-> _] | (k & e & Hk & -> & _)]; [by left | right].
  apply lookup_lt_Some in Hk. lia.
Qed.

(** Every call keeps the registry at its 32 entries. *)
Lemma PageFaultLoadPage_registry_size this pageFaultAddr theThreadID s r s' :
  PageFaultLoadPage this pageFaultAddr theThreadID s = Ok (r, s') →
  length (invPageTable s') = length (invPageTable s).
Proof.
  intros Hr. destruct (PageFaultLoadPage_semaphore _ _ _ _ _ _ Hr) as [[-> _] | [-> _]].
  - apply PageFaultLoadPage_success in Hr as (frame & s1 & Hl & <- & _).
    apply load_frame_Ok in Hl
      as (? & ? & ? & ? & ? & ? & t' & _ & _ & _ & _ & _ & _ & _ & _ & Ht' & _ & ->).
    simpl. apply store_length in Ht'. by rewrite Ht', length_fmap.
  - apply PageFaultLoadPage_Ok in Hr as (s0 & frame & s1 & HP & HF & Hcase).
    apply Semaphore_P_Ok in HP as [_ ->].
    apply BitMap_Find_registry in HF as (Hi1 & _).
    destruct Hcase as [[_ Hl] | (_ & victim & s2 & HS & Hv)].
    + by apply load_frame_Ok in Hl
        as (? & ? & ? & ? & ? & ? & ? & _ & _ & _ & _ & _ & _ & _ & _ & _ & [=] & _).
    + apply FrameSearch_registry in HS as (Hi2 & _).
      destruct Hv as [(_ & _ & ->) | (_ & s3 & HW & Hl)]; [by rewrite Hi2, Hi1 |].
      by apply load_frame_Ok in Hl
        as (? & ? & ? & ? & ? & ? & ? & _ & _ & _ & _ & _ & _ & _ & _ & _ & [=] & _).
Qed.

Lemma AddrSpace_ctor_registry_size this executable s u s' :
  Z.of_nat (length (invPageTable s)) = invPageTableSize →
  AddrSpace_ctor this executable s = Ok (u, s') →
  Z.of_nat (length (invPageTable s')) = invPageTableSize.
Proof.
  intros Hlen Hr. unfold AddrSpace_ctor in Hr.
  apply bind_Ok in Hr as (notYet & s0 & [-> ->]%gets_Ok & Hr).
  apply bind_Ok in Hr as ([] & s1 & Hinit & Hr).
  apply bind_Ok in Hr as (noffH & s2 & (_ & _ & ->)%read_header_Ok & Hr).
  apply modify_Ok in Hr as ->. simpl.
  destruct (negb _); simpl in Hinit; minv2; simpl; [reflexivity | done].
Qed.

Lemma dtor_body_registry_size this i s u s' :
  dtor_body this i s = Ok (u, s') →
  length (invPageTable s') = length (invPageTable s).
Proof.
  unfold dtor_body, BitMap_Clear. intros Hr. minv2; simpl; [| done].
  destruct (_ && _); simplify_eq. simpl in *. by eapply store_length.
Qed.

Lemma AddrSpace_dtor_registry_size this s u s' :
  AddrSpace_dtor this s = Ok (u, s') →
  length (invPageTable s') = length (invPageTable s).
Proof.
  assert (∀ l s u s', for_each (dtor_body this) l s = Ok (u, s') →
            length (invPageTable s') = length (invPageTable s)) as Hloop.
  { induction l as [|i l IH]; simpl; intros s0 u0 s0' Hr.
    - by apply ret_Ok in Hr as [_ ->].
    - apply bind_Ok in Hr as (? & s1 & Hb & Hr).
      apply dtor_body_registry_size in Hb. apply IH in Hr. congruence. }
  unfold AddrSpace_dtor, dtor_loop. intros Hr.
  apply bind_Ok in Hr as (a & s0 & [_ ->]%get_space_Ok & Hr).
  destruct (pageTable a); [| by apply ret_Ok in Hr as [_ ->]].
  apply bind_Ok in Hr as (? & s1 & Hl & ->%modify_Ok).
  apply bind_Ok in Hl as (a' & s2 & [_ ->]%get_space_Ok & Hl).
  simpl. by eapply Hloop.
Qed.

(** C4, as amended: the registry has 32 entries whatever the size of
    the pool, every frame index the eviction policy yields is an index
    into the registry, and it is a frame of the pool when the pool has
    at least 32 frames. *)
Theorem victim_within_registry mode s f s' :
  Z.of_nat (length (invPageTable s)) = invPageTableSize →
  (∀ n, 0 ≤ Random_seq n) →
  FrameSearch s = Ok (f, s') →
  f ≠ -1 →
  Z.of_nat (length (invPageTable (initial_state mode))) = invPageTableSize ∧
  invPageTableSize = 32 ∧
  Z.of_nat (length (invPageTable s')) = invPageTableSize ∧
  0 ≤ f < invPageTableSize ∧
  (invPageTableSize ≤ NumPhysPages → f < NumPhysPages).
Proof.
  intros Hlen Hrand HS Hf.
  assert (0 ≤ f < invPageTableSize) as Hrange.
  { destruct (decide (swapMode s = 0)) as [Hm | ?];
      [rewrite FrameSearch_abort in HS by done; by simplify_eq |].
    destruct (decide (swapMode s = 1)) as [Hm | ?].
    { rewrite FrameSearch_aged in HS by done. injection HS as <- _.
      destruct (FrameSearch_scan_range (invPageTable s) 0 0 (-1)); lia. }
    destruct (decide (swapMode s = 2)) as [Hm | ?];
      [| rewrite FrameSearch_other in HS by done; by simplify_eq].
    rewrite FrameSearch_random in HS by done. injection HS as <- _.
    apply Z.rem_bound_pos; [apply Hrand | done]. }
  apply FrameSearch_registry in HS as (-> & _).
  repeat split; (done || lia).
Qed.

End Registry.

(** ** The registry and the page tables agree *)

Section Consistency.
Context `{MachineConfig}.

Lemma registry_consistent_ext s s' :
  spaces s' = spaces s → invPageTable s' = invPageTable s →
  memMap s' = memMap s → threads s' = threads s →
  registry_consistent s → registry_consistent s'.
Proof.
  intros Hsp Hi Hm Ht Hc sp vp pte. unfold entry_of, owner_of.
  rewrite Hsp, Hi, Hm, Ht. apply Hc.
Qed.

(** The check decides the agreement. *)
Lemma registry_consistentb_sound s :
  registry_consistentb s = true → registry_consistent s.
Proof.
  intros Hb sp vp pte (a & pt & Ha & Hpt & [Hvp Hi]%index_Some)%entry_of_Some Hv.
  apply Is_true_true, forallb_True in Hb. rewrite Forall_forall in Hb.
  specialize (Hb (sp, a)). simpl in Hb. rewrite Hpt in Hb.
  apply forallb_True in Hb; [| by apply elem_of_map_to_list].
  rewrite Forall_forall in Hb.
  specialize (Hb (Z.to_nat vp, pte)). simpl in Hb.
  rewrite Z2Nat.id in Hb by done.
  assert (entry_recorded s sp vp pte = true) as Hrec.
  { apply Is_true_true, Hb, elem_of_lookup_imap. eauto. }
  unfold entry_recorded in Hrec. rewrite Hv in Hrec. simpl in Hrec.
  destruct (physicalPage pte) as [f|]; [| done].
  destruct (index (invPageTable s) f) as [e|] eqn:He; [| done].
  destruct (index (memMap s) f) as [[]|] eqn:Hm; [| done | done].
  apply andb_true_iff in Hrec as [Ho%bool_decide_eq_true Hp%Z.eqb_eq].
  by exists f, e.
Qed.

(** The step that installs the mapping restores the agreement when every
    other valid entry is recorded at a frame other than the one being
    installed. *)
Lemma load_frame_consistent this vpn frame theThreadID s r s' t :
  (∀ sp vp pte,
     (sp, vp) ≠ (this, vpn) → entry_of s sp vp = Some pte → valid pte = true →
     ∃ f e, physicalPage pte = Some f ∧ f ≠ frame ∧
            index (invPageTable s) f = Some e ∧
            owner_of s e = Some sp ∧ page e = vp ∧
            index (memMap s) f = Some true) →
  index (memMap s) frame = Some true →
  currentThread s = Some t →
  (threads s !! t ≫= space) = Some this →
  load_frame this vpn (vpn * PageSize) frame (frame * PageSize) theThreadID s
    = Ok (r, s') →
  registry_consistent s'.
Proof.
  intros Hothers Hbit Hcur Hthis
    (f & mem' & a & pt & pte0 & pt' & t' & _ & _ & _ & _ & Ha & Hpt & Hpte0
     & Hst & Ht' & _ & ->)%load_frame_Ok.
  intros sp vp pte Hpte Hvalid.
  destruct (entry_of_store s
              (set_invPageTableSemaphore (invPageTableSemaphore s + 1)
                 (set_invPageTable t'
                    (set_spaces
                       (<[this := mkAddrSpace (Some pt') (numPages a)]> (spaces s))
                       (set_mainMemory mem' s))))
              this a pt vpn _ pt' Ha Hpt Hst eq_refl) as [Hnew Hold].
  destruct (decide ((sp, vp) = (this, vpn))) as [[= -> ->] | Hne].
  - rewrite Hnew in Hpte. injection Hpte as <-. simpl.
    eexists frame, _. split; [done |].
    split; [by eapply index_store |].
    split; [| done]. unfold owner_of. simpl. by rewrite Hcur.
  - rewrite Hold in Hpte by done.
    destruct (Hothers sp vp pte Hne Hpte Hvalid)
      as (f0 & e0 & Hf0 & Hfr & He0 & Ho0 & Hp0 & Hm0).
    exists f0, (tick e0). split; [done |]. simpl.
    split.
    { erewrite index_store_ne; [| done | done].
      apply index_Some in He0 as [? He0]. apply index_Some. split; [done |].
      by rewrite list_lookup_fmap, He0. }
    done.
Qed.

(** A consistent registry keeps every frame to one valid entry. *)
Lemma registry_consistent_no_double_mapping s :
  registry_consistent s → no_double_mapping s.
Proof.
  intros Hc sp1 vp1 pte1 sp2 vp2 pte2 H1 Hv1 H2 Hv2 Heq.
  destruct (Hc _ _ _ H1 Hv1) as (f1 & e1 & Hf1 & Hi1 & Ho1 & Hp1 & _).
  destruct (Hc _ _ _ H2 Hv2) as (f2 & e2 & Hf2 & Hi2 & Ho2 & Hp2 & _).
  rewrite Hf1, Hf2 in Heq. simplify_eq. done.
Qed.

(** X1: a fault resolved for the running thread's own address space
    keeps the registry and the page tables in agreement, whatever the
    outcome, and so never leaves a frame mapped by two valid entries. *)
Theorem PageFaultLoadPage_keeps_registry_consistent
    this pageFaultAddr theThreadID s r s' t :
  0 < PageSize →
  memory_sized s →
  registry_consistent s →
  currentThread s = Some t →
  (threads s !! t ≫= space) = Some this →
  PageFaultLoadPage this pageFaultAddr theThreadID s = Ok (r, s') →
  registry_consistent s' ∧ no_double_mapping s'.
Proof.
  intros HPS Hmem Hc Hcur Hthis Hr.
  cut (registry_consistent s');
    [intros Hc'; split; [done | by apply registry_consistent_no_double_mapping] |].
  apply PageFaultLoadPage_Ok in Hr as (s0 & frame & s1 & HP & HF & Hcase).
  apply Semaphore_P_Ok in HP as [_ ->].
  apply BitMap_Find_Ok in HF as [(-> & -> & Hfull) | (Hrange & Hfree & ->)].
  - destruct Hcase as [[? _] | (_ & victim & s2 & HS & Hv)]; [done |].
    apply FrameSearch_registry in HS
      as (Hi2 & Hc2 & Hm2 & Hmm2 & Hf2 & Hsp2 & Ht2 & _).
    simpl in Hi2, Hc2, Hm2, Hmm2, Hf2, Hsp2, Ht2.
    destruct Hv as [(_ & _ & ->) | (Hne & s3 & HW & Hl)].
    { by eapply registry_consistent_ext. }
    pose proof HW as
      (e & f & d & t0 & th & owner & a & pt & pte & pt' & He & _ & Hd & _ & Ht0
       & Hth & Hown & Ha & Hpt & Hpte & Hst & Hs3)%write_back_Ok.
    assert (spaces s3
            = <[owner := mkAddrSpace (Some pt') (numPages a)]> (spaces s2))
      as Hsp3 by (by rewrite Hs3).
    pose proof (entry_of_store s2 s3 owner a pt (page e) _ pt' Ha Hpt Hst Hsp3)
      as [Hinv Hkeep].
    rewrite Hi2 in He. rewrite Hmm2 in Hd.
    rewrite Ht2 in Hth. rewrite Hsp2 in Ha.
    assert (owner_of s e = Some owner) as Howner
      by (unfold owner_of; rewrite Ht0; simpl; rewrite Hth; done).
    assert (index (memMap s) victim = Some true) as Hbit.
    { apply load_range_Some in Hd as (Hv0 & Hvend & _).
      apply index_Some in He as [Hv1 _]. unfold memory_sized in Hmem.
      assert (victim < Z.of_nat (length (memMap s))) as Hlt by nia.
      destruct (lookup_lt_is_Some_2 (memMap s) (Z.to_nat victim)) as [b Hb]; [lia |].
      rewrite Forall_lookup in Hfull. rewrite (Hfull _ _ Hb) in Hb.
      apply index_Some. split; [lia | done]. }
    apply write_back_registry in HW as (Hi3 & Hc3 & Hm3 & _).
    eapply (load_frame_consistent this _ victim theThreadID s3 r s' t);
      [| by rewrite Hm3, Hm2 | by rewrite Hc3, Hc2
       | rewrite Hs3; simpl; by rewrite Ht2 | exact Hl].
    intros sp vp pte1 Hne1 Hpte1 Hv1.
    destruct (decide ((sp, vp) = (owner, page e))) as [[= -> ->] | Hne2].
    { rewrite Hinv in Hpte1. by injection Hpte1 as <-. }
    rewrite Hkeep in Hpte1 by done.
    assert (entry_of s sp vp = Some pte1) as Hpte1'
      by (unfold entry_of in *; simpl in Hpte1; by rewrite Hsp2 in Hpte1).
    destruct (Hc sp vp pte1 Hpte1' Hv1) as (f0 & e0 & Hf0 & He0 & Ho0 & Hp0 & Hm0).
    exists f0, e0. split; [done |]. split.
    { intros ->. rewrite He in He0. injection He0 as <-.
      rewrite Howner in Ho0. injection Ho0 as <-. by rewrite Hp0 in Hne2. }
    split; [by rewrite Hi3, Hi2 |].
    split; [unfold owner_of in *; rewrite Hs3; simpl; by rewrite Ht2 |].
    split; [done |]. by rewrite Hm3, Hm2.
  - destruct Hcase as [[_ Hl] | (-> & _)]; [| lia].
    simpl in Hrange, Hfree.
    refine (load_frame_consistent this _ frame theThreadID _ r s' t _ _ _ _ Hl);
      [| | done | done].
    + intros sp vp pte1 _ Hpte1 Hv1.
      destruct (Hc sp vp pte1 Hpte1 Hv1) as (f0 & e0 & Hf0 & He0 & Ho0 & Hp0 & Hm0).
      exists f0, e0. split; [done |].
      assert (f0 ≠ frame) as Hnf.
      { intros ->. apply index_Some in Hm0 as [_ Hm0]. congruence. }
      split; [done |]. do 3 (split; [done |]). simpl.
      apply index_Some in Hm0 as [? Hm0]. apply index_Some. split; [done |].
      rewrite list_lookup_insert_ne; [done | lia].
    + simpl. apply index_Some. split; [lia |].
      apply list_lookup_insert_eq. lia.
Qed.

End Consistency.

(** ** What the destructor leaves alone *)

Section TeardownFrame.
Context `{MachineConfig}.

Lemma dtor_body_frame this i s u s' :
  dtor_body this i s = Ok (u, s') →
  threads s' = threads s ∧ fileSystem s' = fileSystem s ∧
  mainMemory s' = mainMemory s ∧
  invPageTableSemaphore s' = invPageTableSemaphore s ∧
  ∀ sp, sp ≠ this → spaces s' !! sp = spaces s !! sp.
Proof.
  unfold dtor_body, BitMap_Clear. intros Hr. minv2; simpl.
  - destruct (_ && _); simplify_eq. simpl.
    repeat split. intros sp Hsp. by rewrite lookup_insert_ne.
  - repeat split. intros sp Hsp. by rewrite lookup_insert_ne.
Qed.

Lemma dtor_rounds_frame this l s u s' :
  for_each (dtor_body this) l s = Ok (u, s') →
  threads s' = threads s ∧ fileSystem s' = fileSystem s ∧
  mainMemory s' = mainMemory s ∧
  invPageTableSemaphore s' = invPageTableSemaphore s ∧
  ∀ sp, sp ≠ this → spaces s' !! sp = spaces s !! sp.
Proof.
  revert s u s'. induction l as [|i l IH]; simpl; intros s u s' Hr.
  - by apply ret_Ok in Hr as [_ ->].
  - apply bind_Ok in Hr as (? & s1 & Hb & Hr).
    apply dtor_body_frame in Hb as (Ht & Hf & Hm & Hs & Hsp).
    apply IH in Hr as (Ht' & Hf' & Hm' & Hs' & Hsp').
    rewrite Ht', Hf', Hm', Hs'. repeat split; try done.
    intros sp Hne. by rewrite Hsp', Hsp.
Qed.

Lemma AddrSpace_dtor_frame this s u s' :
  AddrSpace_dtor this s = Ok (u, s') →
  invPageTableSemaphore s' = invPageTableSemaphore s ∧
  fileSystem s' = fileSystem s ∧
  mainMemory s' = mainMemory s ∧
  threads s' = threads s ∧
  ∀ sp, sp ≠ this → spaces s' !! sp = spaces s !! sp.
Proof.
  unfold AddrSpace_dtor, dtor_loop. intros Hr.
  apply bind_Ok in Hr as (a & s0 & [_ ->]%get_space_Ok & Hr).
  destruct (pageTable a); [| by apply ret_Ok in Hr as [_ ->]].
  apply bind_Ok in Hr as (? & s1 & Hl & ->%modify_Ok).
  apply bind_Ok in Hl as (a' & s2 & [_ ->]%get_space_Ok & Hl).
  apply dtor_rounds_frame in Hl as (Ht & Hf & Hm & Hs & Hsp). simpl.
  repeat split; try done. intros sp Hne. by rewrite lookup_insert_ne, Hsp.
Qed.

(** X2: the destructor takes no lock, deletes and writes no swap file,
    writes no physical memory and touches no other address space. *)
Theorem destructor_leaves_the_rest this s u s' :
  AddrSpace_dtor this s = Ok (u, s') →
  invPageTableSemaphore s' = invPageTableSemaphore s ∧
  fileSystem s' = fileSystem s ∧
  mainMemory s' = mainMemory s ∧
  threads s' = threads s ∧
  ∀ sp, sp ≠ this → spaces s' !! sp = spaces s !! sp.
Proof. apply AddrSpace_dtor_frame. Qed.

(** X3: a destructor that has run leaves a NULL page table behind, so
    that running it again changes nothing. *)
Theorem destructor_twice_is_harmless this s u s' :
  AddrSpace_dtor this s = Ok (u, s') →
  (pageTable <$> spaces s' !! this) = Some None ∧
  AddrSpace_dtor this s' = Ok (tt, s').
Proof.
  unfold AddrSpace_dtor. intros Hr.
  apply bind_Ok in Hr as (a & s0 & [Ha ->]%get_space_Ok & Hr).
  destruct (pageTable a) eqn:Hpt.
  - apply bind_Ok in Hr as (? & s1 & Hl & ->%modify_Ok). simpl.
    rewrite lookup_insert_eq. split; [done |].
    erewrite bind_eval; [| apply get_space_Ok; simpl; by rewrite lookup_insert_eq].
    done.
  - apply ret_Ok in Hr as [_ ->]. rewrite Ha. simpl. rewrite Hpt.
    split; [done |].
    erewrite bind_eval; [| by apply get_space_Ok]. by rewrite Hpt.
Qed.

(** The destructor of an address space whose page count is the length
    of its page table and whose valid entries name frames of the pool
    and of the registry. *)
Lemma AddrSpace_dtor_runs this s a pt :
  spaces s !! this = Some a →
  pageTable a = Some pt →
  numPages a = Z.of_nat (length pt) →
  (∀ e, e ∈ pt → valid e = true →
     ∃ f, physicalPage e = Some f ∧ 0 ≤ f < Z.of_nat (length (memMap s)) ∧
          f < Z.of_nat (length (invPageTable s))) →
  ∃ s', AddrSpace_dtor this s = Ok (tt, s') ∧
    spaces s' = <[this := mkAddrSpace None (numPages a)]> (spaces s) ∧
    memMap s' = assign_all false (frames_of pt) (memMap s) ∧
    invPageTable s' = assign_all cleared_entry (frames_of pt) (invPageTable s).
Proof.
  intros Ha Hpt Hnp Hvalid. destruct a as [opt np]. simpl in *. subst opt np.
  destruct (dtor_loop_from this (Z.of_nat (length pt)) (length pt) 0%nat s pt)
    as (s1 & Hloop & Hsp1 & Hm1 & Hr1); [done | done | by rewrite drop_0 |].
  rewrite drop_0 in *.
  eexists. split.
  { unfold AddrSpace_dtor. erewrite bind_eval; [| by apply get_space_Ok].
    simpl. erewrite bind_eval.
    2:{ unfold dtor_loop. erewrite bind_eval; [| by apply get_space_Ok].
        exact Hloop. }
    done. }
  simpl. by rewrite Hsp1, insert_insert_eq.
Qed.

(** X4: the destructor of an address space of a consistent machine runs
    to its end and leaves the machine consistent, with no frame mapped
    twice and none by the address space destroyed. *)
Theorem destructor_keeps_registry_consistent this s a :
  registry_consistent s →
  spaces s !! this = Some a →
  space_sized a →
  ∃ s', AddrSpace_dtor this s = Ok (tt, s') ∧
        registry_consistent s' ∧ no_double_mapping s' ∧
        ∀ vp, entry_of s' this vp = None.
Proof.
  intros Hc Ha (pt & Hpt & Hnp).
  assert (∀ i e, pt !! i = Some e → valid e = true →
            ∃ f r, physicalPage e = Some f ∧
                   index (invPageTable s) f = Some r ∧
                   owner_of s r = Some this ∧
                   index (memMap s) f = Some true) as Hmine.
  { intros i e Hi Hv.
    assert (entry_of s this (Z.of_nat i) = Some e) as He.
    { apply entry_of_Some. exists a, pt. do 2 (split; [done |]).
      apply index_Some. rewrite Nat2Z.id. split; [lia | done]. }
    destruct (Hc this (Z.of_nat i) e He Hv) as (f & r & ? & ? & ? & _ & ?).
    by exists f, r. }
  destruct (AddrSpace_dtor_runs this s a pt Ha Hpt Hnp)
    as (s' & Hrun & Hsp & Hm & Hr).
  { intros e [i Hi]%list_elem_of_lookup Hv.
    destruct (Hmine i e Hi Hv) as (f & r & Hf & Hr & _ & Hb).
    exists f. split; [done |].
    assert (is_Some (index (invPageTable s) f)) as ?%index_is_Some by eauto.
    assert (is_Some (index (memMap s) f)) as ?%index_is_Some by eauto. lia. }
  pose proof (AddrSpace_dtor_frame this s tt s' Hrun) as (_ & _ & _ & Ht & _).
  assert (∀ vp, entry_of s' this vp = None) as Hgone
    by (intros vp; unfold entry_of; by rewrite Hsp, lookup_insert_eq).
  assert (registry_consistent s') as Hc'.
  { intros sp vp pte Hpte Hv.
    destruct (decide (sp = this)) as [-> | Hne]; [by rewrite Hgone in Hpte |].
    assert (entry_of s sp vp = Some pte) as Hpte'
      by (unfold entry_of in *; by rewrite Hsp, lookup_insert_ne in Hpte).
    destruct (Hc sp vp pte Hpte' Hv) as (f & e & Hf & He & Ho & Hp & Hb).
    assert (f ∉ frames_of pt) as Hnot.
    { intros (e1 & [i Hi]%list_elem_of_lookup & Hv1 & Hf1)%elem_of_frames_of.
      destruct (Hmine i e1 Hi Hv1) as (f1 & r1 & Hf1' & Hr1 & Ho1 & _).
      simplify_eq. }
    assert (Forall (λ f, 0 ≤ f) (frames_of pt)) as Hpos.
    { apply Forall_forall.
      intros f1 (e1 & [i Hi]%list_elem_of_lookup & Hv1 & Hf1)%elem_of_frames_of.
      destruct (Hmine i e1 Hi Hv1) as (f1' & r1 & Hf1' & [? _]%index_Some & _).
      by simplify_eq. }
    exists f, e. split; [done |].
    split; [by rewrite Hr, index_assign_all_notin |].
    split; [unfold owner_of in *; by rewrite Ht |].
    split; [done |]. by rewrite Hm, index_assign_all_notin. }
  exists s'. split; [done |]. split; [done |].
  split; [by apply registry_consistent_no_double_mapping | done].
Qed.

End TeardownFrame.

(** ** Swap files *)

Section SwapFiles.
Context `{MachineConfig}.

(** Two processes never share a swap file. *)
Lemma length_append (s t : string) :
  String.length (s +:+ t) = (String.length s + String.length t)%nat.
Proof. induction s as [|a s IH]; simpl; [done | by rewrite IH]. Qed.

Lemma append_inj_r (t s1 s2 : string) : s1 +:+ t = s2 +:+ t → s1 = s2.
Proof.
  revert s2. induction s1 as [|a s1 IH]; intros [|b s2] Heq.
  - done.
  - apply (f_equal String.length) in Heq. rewrite !length_append in Heq.
    simpl in Heq. lia.
  - apply (f_equal String.length) in Heq. rewrite !length_append in Heq.
    simpl in Heq. lia.
  - injection Heq as -> Heq. f_equal. by apply IH.
Qed.

Lemma swap_filename_inj ID1 ID2 :
  swap_filename ID1 = swap_filename ID2 → ID1 = ID2.
Proof.
  unfold swap_filename. intros Heq%append_inj_r. by apply (inj pretty) in Heq.
Qed.

Lemma lookup_file_write_ne contents position data (j : nat) :
  (j < position ∨ position + length data ≤ j)%nat →
  file_write contents position data !! j = contents !! j.
Proof.
  intros Hj. destruct (decide (j < length contents)%nat) as [Hlt | Hge].
  2:{ rewrite !lookup_ge_None_2; [done | lia | rewrite file_write_length; lia]. }
  unfold file_write. destruct Hj as [Hj | Hj].
  - rewrite lookup_app_l by (rewrite length_take; lia).
    by rewrite lookup_take_lt.
  - replace ((length contents - position) `min` length data)%nat
      with (length data) by lia.
    rewrite firstn_all.
    rewrite lookup_app_r by (rewrite length_take; lia).
    rewrite lookup_app_r by (rewrite length_take; lia).
    rewrite lookup_drop, length_take. f_equal. lia.
Qed.

(** A write into one page of a file leaves its other pages as they were. *)
Lemma slice_file_write_other contents (p q : Z) data :
  0 < PageSize → 0 ≤ p → 0 ≤ q → p ≠ q →
  Z.of_nat (length data) ≤ PageSize →
  slice (file_write contents (Z.to_nat (p * PageSize)) data) (q * PageSize) PageSize
  = slice contents (q * PageSize) PageSize.
Proof.
  intros HPS Hp Hq Hne Hlen. unfold slice. apply list_eq. intros i.
  destruct (decide (i < Z.to_nat PageSize)%nat) as [Hi | Hi].
  - rewrite !lookup_take_lt, !lookup_drop by done.
    apply lookup_file_write_ne.
    destruct (Z.lt_total p q) as [? | [? | ?]]; [right | done | left]; nia.
  - by rewrite !lookup_take_ge by lia.
Qed.

(** What a fault does to the file system: nothing, or one write of at
    most a page into the page of one registry entry's swap file. *)
Lemma PageFaultLoadPage_files this pageFaultAddr theThreadID s r s' :
  PageFaultLoadPage this pageFaultAddr theThreadID s = Ok (r, s') →
  fileSystem s' = fileSystem s
  ∨ ∃ victim e f d,
      index (invPageTable s) victim = Some e ∧
      fileSystem s !! swap_filename (process e) = Some f ∧
      0 ≤ page e * PageSize ∧
      Z.of_nat (length d) ≤ Z.max 0 PageSize ∧
      fileSystem s'
      = <[swap_filename (process e) :=
            file_write f (Z.to_nat (page e * PageSize)) d]> (fileSystem s).
Proof.
  intros (s0 & frame & s1 & HP & HF & Hcase)%PageFaultLoadPage_Ok.
  apply Semaphore_P_Ok in HP as [_ ->].
  apply BitMap_Find_registry in HF as (Hi1 & _ & Hm1 & Hf1 & _).
  simpl in Hi1, Hm1, Hf1.
  assert (∀ s2 vpn fr, load_frame this vpn (vpn * PageSize) fr (fr * PageSize)
                         theThreadID s2 = Ok (r, s') →
                       fileSystem s' = fileSystem s2) as Hload.
  { intros s2 vpn fr Hl. by apply load_frame_Ok in Hl
      as (? & ? & ? & ? & ? & ? & ? & _ & _ & _ & _ & _ & _ & _ & _ & _ & _ & ->). }
  destruct Hcase as [[_ Hl] | (_ & victim & s2 & HS & Hv)].
  - left. by rewrite (Hload _ _ _ Hl).
  - apply FrameSearch_registry in HS as (Hi2 & _ & _ & Hm2 & Hf2 & _).
    destruct Hv as [(_ & _ & ->) | (_ & s3 & HW & Hl)]; [left; congruence |].
    right.
    apply write_back_Ok in HW
      as (e & f & d & ? & ? & ? & ? & ? & ? & ? & He & Hf & _ & Hpos & _ & _ & _
          & _ & _ & _ & _ & ->).
    exists victim, e, f, (take (Z.to_nat PageSize) d).
    split; [by rewrite Hi2, Hi1 in He |].
    split; [by rewrite Hf2, Hf1 in Hf |]. split; [done |].
    split; [rewrite length_take; lia |].
    rewrite (Hload _ _ _ Hl). simpl. by rewrite Hf2, Hf1.
Qed.

(** X5: a fault neither creates nor deletes a swap file, and changes no
    file's length. *)
Theorem fault_keeps_swap_files_and_lengths
    this pageFaultAddr theThreadID s r s' name :
  PageFaultLoadPage this pageFaultAddr theThreadID s = Ok (r, s') →
  length <$> fileSystem s' !! name = length <$> fileSystem s !! name.
Proof.
  intros [-> | (victim & e & f & d & _ & Hf & _ & _ & ->)]%PageFaultLoadPage_files;
    [done |].
  destruct (decide (swap_filename (process e) = name)) as [<- | Hne].
  - rewrite lookup_insert_eq, Hf. simpl. by rewrite file_write_length.
  - by rewrite lookup_insert_ne.
Qed.

Lemma PageFaultLoadPage_swap_bytes this pageFaultAddr theThreadID s r s' ID vp :
  0 < PageSize →
  0 ≤ vp →
  (∀ i e, index (invPageTable s) i = Some e → ¬ (process e = ID ∧ page e = vp)) →
  PageFaultLoadPage this pageFaultAddr theThreadID s = Ok (r, s') →
  swap_bytes s' ID vp = swap_bytes s ID vp.
Proof.
  intros HPS Hvp Hnone Hr. unfold swap_bytes.
  apply PageFaultLoadPage_files in Hr
    as [-> | (victim & e & f & d & He & Hf & Hpos & Hlen & ->)]; [done |].
  destruct (decide (swap_filename (process e) = swap_filename ID)) as [Heq | Hne].
  - rewrite <- Heq, lookup_insert_eq, Hf. simpl. f_equal.
    apply swap_filename_inj in Heq.
    apply slice_file_write_other; [done | nia | done | | lia].
    intros Hp. by apply (Hnone victim e).
  - by rewrite lookup_insert_ne.
Qed.

(** X6: a fault leaves the swap copy of every page that no registry
    entry names as it was: the only page of swap a fault can write is the
    page of the victim it evicts. *)
Theorem fault_writes_only_the_victims_swap_page
    this pageFaultAddr theThreadID s r s' ID vp :
  0 < PageSize →
  0 ≤ vp →
  (∀ i e, index (invPageTable s) i = Some e → ¬ (process e = ID ∧ page e = vp)) →
  PageFaultLoadPage this pageFaultAddr theThreadID s = Ok (r, s') →
  swap_bytes s' ID vp = swap_bytes s ID vp.
Proof. apply PageFaultLoadPage_swap_bytes. Qed.

(** X7: without the swap file of the faulting process no fault of that
    process is resolved. *)
Theorem fault_without_swap_file_fails this pageFaultAddr theThreadID s s' :
  fileSystem s !! swap_filename theThreadID = None →
  PageFaultLoadPage this pageFaultAddr theThreadID s ≠ Ok (0, s').
Proof.
  intros Hnone Hr.
  assert (fileSystem s' !! swap_filename theThreadID = None) as Hlen.
  { destruct (PageFaultLoadPage_files _ _ _ _ _ _ Hr)
      as [-> | (victim & e & f & d & _ & Hf & _ & _ & ->)]; [done |].
    rewrite lookup_insert_ne; [done |]. intros Heq. rewrite Heq in Hf.
    congruence. }
  apply PageFaultLoadPage_success in Hr as (frame & s1 & Hl & _).
  apply load_frame_Ok in Hl
    as (f & ? & ? & ? & ? & ? & ? & Hf & _ & _ & _ & _ & _ & _ & _ & _ & _ & ->).
  simpl in Hlen. by rewrite Hf in Hlen.
Qed.

(** X8: [KillSWAP] removes the swap file of the process it names and
    touches nothing else: no other process's swap file, no page table,
    no frame, no registry entry. *)
Theorem KillSWAP_removes_one_file theThreadID s :
  ∃ s', KillSWAP theThreadID s = Ok (tt, s') ∧
    fileSystem s' !! swap_filename theThreadID = None ∧
    (∀ ID, ID ≠ theThreadID →
       fileSystem s' !! swap_filename ID = fileSystem s !! swap_filename ID) ∧
    spaces s' = spaces s ∧ memMap s' = memMap s ∧
    invPageTable s' = invPageTable s ∧ mainMemory s' = mainMemory s ∧
    invPageTableSemaphore s' = invPageTableSemaphore s.
Proof.
  eexists. split; [reflexivity |]. simpl.
  split; [apply lookup_delete_eq |]. split; [| done].
  intros ID Hne. apply lookup_delete_ne. intros Heq.
  by apply swap_filename_inj in Heq.
Qed.

(** What [GenerateSWAP] changes: the page count of its address space
    and the file it writes. *)
Lemma GenerateSWAP_Ok this executable ID s u s' :
  GenerateSWAP this executable ID s = Ok (u, s') →
  ∃ a f,
    spaces s !! this = Some a ∧
    s' = set_fileSystem (<[swap_filename ID := f]> (fileSystem s))
           (set_spaces
              (<[this := mkAddrSpace (pageTable a)
                           (space_numPages (loaded_header executable))]>
                 (spaces s)) s).
Proof.
  unfold GenerateSWAP, read_segment, FileSystem_Create. intros Hr.
  apply bind_Ok in Hr as (noffH & s0 & (-> & _ & ->)%read_header_Ok & Hr).
  cbv zeta in Hr. minv2; simpl in *; rewrite lookup_insert_eq in *;
    simplify_eq; simpl; rewrite insert_insert_eq; by eexists _, _.
Qed.

(** X9: [GenerateSWAP] loads nothing into physical memory and takes no
    frame, lock or registry entry; it changes no page table and no swap
    file but the one it writes. *)
Theorem GenerateSWAP_touches_one_file this executable ID s u s' :
  GenerateSWAP this executable ID s = Ok (u, s') →
  mainMemory s' = mainMemory s ∧ memMap s' = memMap s ∧
  invPageTable s' = invPageTable s ∧
  invPageTableSemaphore s' = invPageTableSemaphore s ∧
  (∀ sp vp, entry_of s' sp vp = entry_of s sp vp) ∧
  (∀ ID', ID' ≠ ID →
     fileSystem s' !! swap_filename ID' = fileSystem s !! swap_filename ID').
Proof.
  intros (a & f & Ha & ->)%GenerateSWAP_Ok. simpl.
  do 4 (split; [done |]). split.
  - intros sp vp. unfold entry_of. simpl.
    destruct (decide (sp = this)) as [-> | Hne].
    + by rewrite lookup_insert_eq, Ha.
    + by rewrite lookup_insert_ne.
  - intros ID' Hne. apply lookup_insert_ne. intros Heq.
    by apply swap_filename_inj in Heq.
Qed.

(** X10: [KillSWAP] undoes what [GenerateSWAP] did to the file system. *)
Theorem KillSWAP_undoes_GenerateSWAP this executable ID s u s1 :
  fileSystem s !! swap_filename ID = None →
  GenerateSWAP this executable ID s = Ok (u, s1) →
  ∃ s2, KillSWAP ID s1 = Ok (tt, s2) ∧ fileSystem s2 = fileSystem s.
Proof.
  intros Hnone (a & f & Ha & ->)%GenerateSWAP_Ok.
  eexists. split; [reflexivity |]. simpl.
  by rewrite delete_insert_id.
Qed.

End SwapFiles.

(** ** The paths of a fault *)

Section Paths.
Context `{MachineConfig}.

Lemma NumClear_allocate (m : list bool) (i : nat) :
  m !! i = Some false →
  S (BitMap_NumClear (<[i := true]> m)) = BitMap_NumClear m.
Proof.
  intros Hi. unfold BitMap_NumClear.
  rewrite <- (take_drop_middle m i false Hi) at 2.
  rewrite insert_take_drop by (by eapply lookup_lt_Some).
  rewrite !filter_app, !length_app, (filter_cons_True _ false) by done.
  rewrite (filter_cons_False _ true) by done. simpl. lia.
Qed.

(** X11: with a free frame in the pool the resolver takes the lowest
    free frame, evicts nothing and writes no swap file: the pool has one
    free frame less, the faulting page is mapped to that frame and holds
    its swap copy, and every other page table entry is as it was. *)
Theorem free_frame_is_taken_without_eviction
    this pageFaultAddr theThreadID s (f : nat) :
  0 < PageSize →
  invPageTableSemaphore s ≠ 0 →
  memory_sized s →
  memMap s !! f = Some false →
  (∀ j, (j < f)%nat → memMap s !! j = Some true) →
  (f < length (invPageTable s))%nat →
  let vpn := pageFaultAddr `quot` PageSize in
  backed s theThreadID vpn →
  is_Some (entry_of s this vpn) →
  ∃ s' pte,
    PageFaultLoadPage this pageFaultAddr theThreadID s = Ok (0, s') ∧
    memMap s' = <[f := true]> (memMap s) ∧
    S (BitMap_NumClear (memMap s')) = BitMap_NumClear (memMap s) ∧
    fileSystem s' = fileSystem s ∧
    entry_of s' this vpn = Some pte ∧ valid pte = true ∧
    physicalPage pte = Some (Z.of_nat f) ∧
    swap_bytes s' theThreadID vpn = Some (frame_bytes s' (Z.of_nat f)) ∧
    (∀ sp vp, (sp, vp) ≠ (this, vpn) → entry_of s' sp vp = entry_of s sp vp).
Proof.
  intros HPS Hsem Hmem Hfree Hlow Hreg vpn Hback Hthis.
  set (s0 := set_invPageTableSemaphore (invPageTableSemaphore s - 1) s).
  set (s1 := set_memMap (<[f := true]> (memMap s)) s0).
  apply lookup_lt_Some in Hfree as Hlt. unfold memory_sized in Hmem.
  destruct (load_frame_runs this vpn (Z.of_nat f) theThreadID s1)
    as (s' & Hl & Hothers);
    [done | done | done | lia | simpl; nia | simpl; lia |].
  pose proof Hl as
    (_ & Hfs & Hmm & _ & g & a & pt & pte & Hg & Hbytes & _ & Ha & Hpt & Hpte
     & Hv & Hpp & _)%load_frame_effect; [| done].
  exists s', pte. split.
  { apply PageFaultLoadPage_Ok. exists s0, (Z.of_nat f), s1.
    split; [by apply Semaphore_P_Ok |]. split.
    - unfold BitMap_Find.
      assert (list_find (λ b, b = false) (memMap s0) = Some (f, false)) as ->;
        [| done].
      apply list_find_Some. split; [done |]. split; [done |].
      intros j b Hj Hjf ->. simpl in Hj. rewrite (Hlow j Hjf) in Hj. done.
    - left. split; [lia | done]. }
  split; [by rewrite Hmm |].
  split; [rewrite Hmm; simpl; by apply NumClear_allocate |].
  split; [by rewrite Hfs |].
  split; [apply entry_of_Some; eauto |].
  do 2 (split; [done |]).
  split; [| exact Hothers].
  unfold swap_bytes, frame_bytes. rewrite Hfs. simpl in Hg. simpl.
  rewrite Hg. simpl. by rewrite Hbytes.
Qed.

(** Two machine states whose address spaces have the same page counts
    and page tables of the same lengths. *)
Lemma store_same_shape (spaces0 : gmap nat AddrSpace) sp a pt i x pt' sp1 :
  spaces0 !! sp = Some a → pageTable a = Some pt → store pt i x = Some pt' →
  (λ a, (numPages a, length <$> pageTable a))
    <$> <[sp := mkAddrSpace (Some pt') (numPages a)]> spaces0 !! sp1
  = (λ a, (numPages a, length <$> pageTable a)) <$> spaces0 !! sp1.
Proof.
  intros Ha Hpt Hst. destruct (decide (sp1 = sp)) as [-> | Hne].
  - rewrite lookup_insert_eq, Ha. simpl. rewrite Hpt. simpl.
    by rewrite (store_length _ _ _ _ Hst).
  - by rewrite lookup_insert_ne.
Qed.

Lemma load_frame_same_shape this vpn po frame fo theThreadID s r s' sp :
  load_frame this vpn po frame fo theThreadID s = Ok (r, s') →
  (λ a, (numPages a, length <$> pageTable a)) <$> spaces s' !! sp
  = (λ a, (numPages a, length <$> pageTable a)) <$> spaces s !! sp.
Proof.
  intros (? & ? & a & pt & ? & pt' & ? & _ & _ & _ & _ & Ha & Hpt & _ & Hst & _
          & _ & ->)%load_frame_Ok.
  simpl. by eapply store_same_shape.
Qed.

Lemma PageFaultLoadPage_same_shape this pageFaultAddr theThreadID s r s' sp :
  PageFaultLoadPage this pageFaultAddr theThreadID s = Ok (r, s') →
  (λ a, (numPages a, length <$> pageTable a)) <$> spaces s' !! sp
  = (λ a, (numPages a, length <$> pageTable a)) <$> spaces s !! sp.
Proof.
  intros (s0 & frame & s1 & HP & HF & Hcase)%PageFaultLoadPage_Ok.
  apply Semaphore_P_Ok in HP as [_ ->].
  apply BitMap_Find_registry in HF as (_ & _ & _ & _ & Hsp1 & _).
  simpl in Hsp1.
  destruct Hcase as [[_ Hl] | (_ & victim & s2 & HS & Hv)].
  - by rewrite (load_frame_same_shape _ _ _ _ _ _ _ _ _ sp Hl), Hsp1.
  - apply FrameSearch_registry in HS as (_ & _ & _ & _ & _ & Hsp2 & _).
    destruct Hv as [(_ & _ & ->) | (_ & s3 & HW & Hl)]; [congruence |].
    rewrite (load_frame_same_shape _ _ _ _ _ _ _ _ _ sp Hl).
    apply write_back_Ok in HW
      as (? & ? & ? & ? & ? & owner & a & pt & ? & pt' & _ & _ & _ & _ & _ & _ & _
          & Ha & Hpt & _ & Hst & ->).
    simpl. rewrite (store_same_shape _ _ _ _ _ _ _ sp Ha Hpt Hst).
    by rewrite Hsp2, Hsp1.
Qed.

(** X12: a fault creates and destroys no address space and changes no
    page count and no page table's length. *)
Theorem fault_keeps_page_table_sizes this pageFaultAddr theThreadID s r s' sp :
  PageFaultLoadPage this pageFaultAddr theThreadID s = Ok (r, s') →
  (λ a, (numPages a, length <$> pageTable a)) <$> spaces s' !! sp
  = (λ a, (numPages a, length <$> pageTable a)) <$> spaces s !! sp.
Proof. apply PageFaultLoadPage_same_shape. Qed.

(** X13: a fault writes at most two page table entries: the one of the
    faulting page and the one the victim's registry entry names. *)
Theorem fault_writes_at_most_two_entries
    this pageFaultAddr theThreadID s r s' sp vp :
  PageFaultLoadPage this pageFaultAddr theThreadID s = Ok (r, s') →
  (sp, vp) ≠ (this, pageFaultAddr `quot` PageSize) →
  (∀ i e, index (invPageTable s) i = Some e →
          ¬ (owner_of s e = Some sp ∧ page e = vp)) →
  entry_of s' sp vp = entry_of s sp vp.
Proof.
  intros (s0 & frame & s1 & HP & HF & Hcase)%PageFaultLoadPage_Ok Hne Hnone.
  apply Semaphore_P_Ok in HP as [_ ->].
  apply BitMap_Find_registry in HF as (Hi1 & _ & _ & _ & Hsp1 & Ht1 & _).
  simpl in Hi1, Hsp1, Ht1.
  assert (∀ s2 fr, load_frame this (pageFaultAddr `quot` PageSize)
                     (pageFaultAddr `quot` PageSize * PageSize) fr
                     (fr * PageSize) theThreadID s2 = Ok (r, s') →
                   entry_of s' sp vp = entry_of s2 sp vp) as Hload.
  { intros s2 fr (? & ? & a & pt & ? & pt' & ? & _ & _ & _ & _ & Ha & Hpt & _
                  & Hst & _ & _ & ->)%load_frame_Ok.
    by eapply (entry_of_store s2 _ this a pt). }
  destruct Hcase as [[_ Hl] | (_ & victim & s2 & HS & Hv)].
  - rewrite (Hload _ _ Hl). unfold entry_of. by rewrite Hsp1.
  - apply FrameSearch_registry in HS as (Hi2 & _ & _ & _ & _ & Hsp2 & Ht2 & _).
    destruct Hv as [(_ & _ & ->) | (_ & s3 & HW & Hl)];
      [unfold entry_of; by rewrite Hsp2, Hsp1 |].
    rewrite (Hload _ _ Hl).
    apply write_back_Ok in HW
      as (e & ? & ? & t0 & th & owner & a & pt & ? & pt' & He & _ & _ & _ & Ht0
          & Hth & Hown & Ha & Hpt & _ & Hst & ->).
    rewrite Hi2, Hi1 in He. rewrite Ht2, Ht1 in Hth.
    transitivity (entry_of s2 sp vp); [| unfold entry_of; by rewrite Hsp2, Hsp1].
    eapply (entry_of_store s2 _ owner a pt (page e)); [done | done | done | done |].
    intros [= -> ->]. apply (Hnone victim e He). split; [| done].
    unfold owner_of. rewrite Ht0. simpl. by rewrite Hth.
Qed.

(** X14: a call that returns has returned 0 or 1; its [P] is matched by
    a [V] exactly when it returns 0: then the semaphore has the value it
    had at entry, and when the call returns 1 the value is one less. *)
Theorem fault_returns_with_the_lock_only_on_success
    this pageFaultAddr theThreadID s r s' :
  PageFaultLoadPage this pageFaultAddr theThreadID s = Ok (r, s') →
  (r = 0 ∨ r = 1) ∧
  (r = 0 → invPageTableSemaphore s' = invPageTableSemaphore s) ∧
  (r = 1 → invPageTableSemaphore s' = invPageTableSemaphore s - 1).
Proof.
  intros Hr.
  destruct (PageFaultLoadPage_semaphore _ _ _ _ _ _ Hr) as [[-> ?] | [-> ?]];
    (split; [by eauto | split; intros; (done || lia)]).
Qed.

(** X15: once a fault has been resolved, aged-victim mode finds a
    victim, and it is not the frame just installed (for a registry of
    at least two entries none of which had a negative age). *)
Theorem aged_victim_after_a_fault this pageFaultAddr theThreadID s s' :
  PageFaultLoadPage this pageFaultAddr theThreadID s = Ok (0, s') →
  swapMode s = 1 →
  (2 ≤ length (invPageTable s))%nat →
  Forall (λ e, 0 ≤ time e) (invPageTable s) →
  ∃ frame pte victim,
    entry_of s' this (pageFaultAddr `quot` PageSize) = Some pte ∧
    physicalPage pte = Some frame ∧
    FrameSearch s' = Ok (victim, s') ∧
    0 ≤ victim < Z.of_nat (length (invPageTable s')) ∧
    victim ≠ frame.
Proof.
  intros Hr Hmode Hlen Hages.
  assert (swapMode s' = 1) as Hmode'.
  { rewrite <- Hmode.
    apply PageFaultLoadPage_Ok in Hr as (s0 & frame & s1 & HP & HF & Hcase).
    apply Semaphore_P_Ok in HP as [_ ->].
    apply BitMap_Find_registry in HF as (_ & _ & _ & _ & _ & _ & Hsw1 & _).
    assert (∀ s2 fr, load_frame this (pageFaultAddr `quot` PageSize)
                       (pageFaultAddr `quot` PageSize * PageSize) fr
                       (fr * PageSize) theThreadID s2 = Ok (0, s') →
                     swapMode s' = swapMode s2) as Hload.
    { by intros s2 fr (? & ? & ? & ? & ? & ? & ? & _ & _ & _ & _ & _ & _ & _ & _
                       & _ & _ & ->)%load_frame_Ok. }
    destruct Hcase as [[_ Hl] | (_ & victim & s2 & HS & Hv)].
    - by rewrite (Hload _ _ Hl), Hsw1.
    - apply FrameSearch_registry in HS as (_ & _ & _ & _ & _ & _ & _ & Hsw2).
      destruct Hv as [(_ & [=] & _) | (_ & s3 & HW & Hl)].
      rewrite (Hload _ _ Hl).
      apply write_back_Ok in HW
        as (? & ? & ? & ? & ? & ? & ? & ? & ? & ? & _ & _ & _ & _ & _ & _ & _ & _
            & _ & _ & _ & ->).
      simpl. by rewrite Hsw2, Hsw1. }
  apply PageFaultLoadPage_success in Hr as (frame & s1 & Hl & Hi & _).
  apply load_frame_Ok in Hl
    as (? & ? & a & pt & pte0 & pt' & t' & _ & _ & _ & _ & Ha & Hpt & _ & Hst
        & Ht' & _ & Hs').
  rewrite Hi in Ht'. apply store_Some in Ht' as [Hfr Ht'].
  rewrite length_fmap in Hfr.
  assert (invPageTable s' = t') as Hreg by (by rewrite Hs').
  assert (entry_of s' this (pageFaultAddr `quot` PageSize)
          = Some (mkTranslationEntry (pageFaultAddr `quot` PageSize) (Some frame)
                    true (readOnly pte0) (use pte0) (dirty pte0))) as Hentry.
  { rewrite Hs'. by eapply (entry_of_store s1 _ this a pt). }
  eexists frame, _, _. split; [exact Hentry |]. split; [done |].
  rewrite FrameSearch_aged by done. split; [done |].
  destruct (FrameSearch_scan_spec (invPageTable s') 0 0 (-1))
    as [[_ Hall] | (k & e & Hk & -> & Hpos & _)].
  - exfalso. rewrite Hreg, Ht' in Hall.
    set (j := if decide (Z.to_nat frame = 0)%nat then 1%nat else 0%nat).
    destruct (lookup_lt_is_Some_2 (invPageTable s) j) as [ej Hj];
      [unfold j; case_decide; lia |].
    rewrite Forall_lookup in Hall, Hages.
    specialize (Hall j (tick ej)). specialize (Hages j ej Hj). simpl in *.
    rewrite list_lookup_insert_ne, list_lookup_fmap, Hj in Hall
      by (unfold j; case_decide; lia).
    specialize (Hall eq_refl). simpl in Hall. lia.
  - apply lookup_lt_Some in Hk as Hklt. split; [lia |].
    intros Heq. rewrite Hreg, Ht' in Hk.
    replace k with (Z.to_nat frame) in Hk by lia.
    rewrite list_lookup_insert_eq in Hk by (rewrite length_fmap; lia).
    injection Hk as <-. simpl in Hpos. lia.
Qed.

End Paths.

(** ** Out to swap and back *)

Section RoundTrip.
Context `{MachineConfig}.

(** After an eviction the victim's page of swap holds what the frame held. *)
Lemma eviction_swap_bytes this pageFaultAddr theThreadID s s1 victim sx e :
  0 < PageSize →
  Forall (λ b, b = true) (memMap s) →
  FrameSearch s = Ok (victim, sx) →
  index (invPageTable s) victim = Some e →
  backed s (process e) (page e) →
  PageFaultLoadPage this pageFaultAddr theThreadID s = Ok (0, s1) →
  swap_bytes s1 (process e) (page e) = Some (frame_bytes s victim).
Proof.
  intros HPS Hfull HS He (f & Hf & Hvp & Hfit)
    (s0 & frame & s2 & HP & HF & Hcase)%PageFaultLoadPage_Ok.
  apply Semaphore_P_Ok in HP as [_ ->].
  rewrite BitMap_Find_full in HF by done. injection HF as <- <-.
  destruct Hcase as [[? _] | (_ & victim' & s3 & HS' & Hv)]; [done |].
  rewrite FrameSearch_semaphore, HS in HS'. injection HS' as <- <-.
  apply FrameSearch_registry in HS
    as (Hi2 & _ & _ & Hmm2 & Hf2 & _).
  destruct Hv as [(_ & [=] & _) | (_ & s4 & HW & Hl)].
  apply write_back_Ok in HW
    as (e' & f' & d & ? & ? & ? & ? & ? & ? & ? & He' & Hf' & Hd & _ & _ & _ & _
        & _ & _ & _ & _ & ->).
  simpl in He', Hf', Hd. rewrite Hi2, He in He'. injection He' as <-.
  rewrite Hf2, Hf in Hf'. injection Hf' as <-. rewrite Hmm2 in Hd.
  apply load_range_Some in Hd as (Hv0 & Hvend & ->).
  apply load_frame_Ok in Hl
    as (? & ? & ? & ? & ? & ? & ? & _ & _ & _ & _ & _ & _ & _ & _ & _ & _ & ->).
  unfold swap_bytes, frame_bytes. simpl. rewrite lookup_insert_eq. simpl.
  f_equal.
  set (d := slice (mainMemory s) (victim * PageSize) PageSize).
  assert (Z.of_nat (length d) = PageSize) as Hd by (apply slice_length; lia).
  rewrite (take_ge d) by lia.
  pose proof (slice_file_write f (page e * PageSize) d) as Hs.
  rewrite Hd in Hs. apply Hs; nia.
Qed.

(** X16: a page that was evicted comes back as it left: when a fault
    evicts a frame and a later fault brings the victim's page in again,
    the frame it is loaded into holds the bytes the victim frame held at
    the eviction (if the second fault does not itself write that page of
    swap, which no registry entry names). *)
Theorem evicted_page_comes_back
    this1 pageFaultAddr1 theThreadID1 s victim sx e s1 this2 s2 :
  0 < PageSize →
  Forall (λ b, b = true) (memMap s) →
  FrameSearch s = Ok (victim, sx) →
  index (invPageTable s) victim = Some e →
  backed s (process e) (page e) →
  PageFaultLoadPage this1 pageFaultAddr1 theThreadID1 s = Ok (0, s1) →
  (∀ i e2, index (invPageTable s1) i = Some e2 →
           ¬ (process e2 = process e ∧ page e2 = page e)) →
  PageFaultLoadPage this2 (page e * PageSize) (process e) s1 = Ok (0, s2) →
  ∃ frame pte,
    entry_of s2 this2 (page e) = Some pte ∧ valid pte = true ∧
    physicalPage pte = Some frame ∧
    frame_bytes s2 frame = frame_bytes s victim.
Proof.
  intros HPS Hfull HS He Hback Hr1 Hnone Hr2.
  pose proof (eviction_swap_bytes _ _ _ _ _ _ _ _ HPS Hfull HS He Hback Hr1)
    as Hout.
  assert (0 ≤ page e) as Hp by (by destruct Hback as (? & _ & ? & _)).
  pose proof (PageFaultLoadPage_swap_bytes _ _ _ _ _ _ _ _ HPS Hp Hnone Hr2)
    as Hkeep.
  apply PageFaultLoadPage_success in Hr2 as (frame & s3 & Hl & _).
  rewrite Z.quot_mul in Hl by lia.
  apply load_frame_effect in Hl
    as (_ & Hfs & _ & _ & f & a & pt & pte & Hf & Hbytes & _ & Ha & Hpt & Hpte
        & Hv & Hpp & _); [| done].
  exists frame, pte. split; [apply entry_of_Some; eauto |].
  do 2 (split; [done |]).
  rewrite Hout in Hkeep. unfold swap_bytes in Hkeep.
  rewrite Hfs, Hf in Hkeep. simpl in Hkeep. injection Hkeep as Hkeep.
  unfold frame_bytes in *. by rewrite Hbytes.
Qed.

End RoundTrip.

(** ** Loading a program *)

Section Loader.
Context `{MachineConfig}.

(** The constructor returns when the lock is free for its first call
    and the magic number is right; what it leaves is the registry
    cleared on the first call, and the new page table. *)
Lemma AddrSpace_ctor_Ok this executable s u s' :
  AddrSpace_ctor this executable s = Ok (u, s') ↔
  noffMagic (loaded_header executable) = NOFFMAGIC ∧
  (invPageTableNotYetLoaded s ≠ 0 → invPageTableSemaphore s ≠ 0) ∧
  let n := space_numPages (loaded_header executable) in
  let s0 :=
    if invPageTableNotYetLoaded s =? 0 then s
    else set_invPageTableSemaphore (invPageTableSemaphore s - 1 + 1)
           (set_invPageTableNotYetLoaded 0
              (set_invPageTable
                 (replicate (Z.to_nat invPageTableSize) cleared_entry)
                 (set_invPageTableSemaphore (invPageTableSemaphore s - 1) s))) in
  s' = set_spaces
         (<[this := mkAddrSpace (Some (fresh_entry <$> seqZ 0 n)) n]> (spaces s0))
         s0.
Proof.
  destruct u.
  unfold AddrSpace_ctor, read_header, bind, gets, modify, ret, fail,
    Semaphore_P, Semaphore_V, modify.
  destruct (Z.eqb_spec (invPageTableNotYetLoaded s) 0) as [Hz | Hnz]; simpl.
  - destruct (Z.eqb_spec (noffMagic (loaded_header executable)) NOFFMAGIC);
      split; [intros [= <-]; split; [done | split; [lia | done]]
             | by intros (_ & _ & ->) | done | by intros [? _]].
  - destruct (Z.eqb_spec (invPageTableSemaphore s) 0) as [Hs | Hs]; simpl.
    { split; [done | intros (_ & Hl & _); by destruct (Hl Hnz)]. }
    destruct (Z.eqb_spec (noffMagic (loaded_header executable)) NOFFMAGIC);
      split; [intros [= <-]; done | by intros (_ & _ & ->) | done
             | by intros [? _]].
Qed.

(** X17: the constructor clears the registry on its first call only, and
    hands the lock back: it leaves the lock as it found it, and frames,
    physical memory, files, threads and the other address spaces too. *)
Theorem constructor_initialises_registry_once this executable s u s' :
  AddrSpace_ctor this executable s = Ok (u, s') →
  invPageTableNotYetLoaded s' = 0 ∧
  invPageTableSemaphore s' = invPageTableSemaphore s ∧
  invPageTable s'
  = (if invPageTableNotYetLoaded s =? 0 then invPageTable s
     else replicate (Z.to_nat invPageTableSize) cleared_entry) ∧
  memMap s' = memMap s ∧ mainMemory s' = mainMemory s ∧
  fileSystem s' = fileSystem s ∧ threads s' = threads s ∧
  ∀ sp, sp ≠ this → spaces s' !! sp = spaces s !! sp.
Proof.
  intros (_ & _ & ->)%AddrSpace_ctor_Ok. cbv zeta.
  destruct (Z.eqb_spec (invPageTableNotYetLoaded s) 0) as [Hz | Hnz]; simpl.
  - do 7 (split; [done |]). intros sp Hne. by rewrite lookup_insert_ne.
  - split; [done |]. split; [lia |]. do 5 (split; [done |]).
    intros sp Hne. by rewrite lookup_insert_ne.
Qed.

(** X18: the constructor keeps the registry and the page tables in
    agreement: the table it makes has no valid entry and as many entries
    as its page count says, and the registry is cleared only while no
    page table has a valid entry. *)
Theorem constructor_keeps_registry_consistent this executable s u s' :
  0 < PageSize →
  registry_consistent s →
  (invPageTableNotYetLoaded s ≠ 0 →
   ∀ sp vp pte, entry_of s sp vp = Some pte → valid pte = false) →
  AddrSpace_ctor this executable s = Ok (u, s') →
  registry_consistent s' ∧ no_double_mapping s' ∧
  (∀ vp pte, entry_of s' this vp = Some pte → valid pte = false) ∧
  ∃ a, spaces s' !! this = Some a ∧ space_sized a.
Proof.
  intros HPS Hc Hfirst (_ & _ & Hs')%AddrSpace_ctor_Ok. cbv zeta in Hs'.
  set (n := space_numPages (loaded_header executable)) in *.
  assert (spaces s' = <[this := mkAddrSpace (Some (fresh_entry <$> seqZ 0 n)) n]>
                        (spaces s)) as Hsp
    by (rewrite Hs'; by destruct (_ =? _)).
  assert (threads s' = threads s) as Ht by (rewrite Hs'; by destruct (_ =? _)).
  assert (memMap s' = memMap s) as Hm by (rewrite Hs'; by destruct (_ =? _)).
  assert (invPageTableNotYetLoaded s = 0 → invPageTable s' = invPageTable s)
    as Hi.
  { intros Hz. rewrite Hs'.
    by destruct (Z.eqb_spec (invPageTableNotYetLoaded s) 0). }
  assert (∀ vp pte, entry_of s' this vp = Some pte → valid pte = false) as Hnew.
  { intros vp pte. unfold entry_of. rewrite Hsp, lookup_insert_eq. simpl.
    intros [_ Hl]%index_Some. rewrite list_lookup_fmap in Hl.
    destruct (seqZ 0 n !! Z.to_nat vp); simpl in Hl; by simplify_eq. }
  assert (registry_consistent s') as Hc'.
  { intros sp vp pte Hpte Hv.
    destruct (decide (sp = this)) as [-> | Hne];
      [by rewrite (Hnew vp pte Hpte) in Hv |].
    assert (entry_of s sp vp = Some pte) as Hpte'
      by (unfold entry_of in *; by rewrite Hsp, lookup_insert_ne in Hpte).
    destruct (decide (invPageTableNotYetLoaded s = 0)) as [Hz | Hnz];
      [| by rewrite (Hfirst Hnz _ _ _ Hpte') in Hv].
    destruct (Hc sp vp pte Hpte' Hv) as (f & e & ? & ? & ? & ? & ?).
    exists f, e. unfold owner_of in *. by rewrite Hi, Ht, Hm. }
  split; [done |]. split; [by apply registry_consistent_no_double_mapping |].
  split; [done |]. eexists. rewrite Hsp, lookup_insert_eq. split; [done |].
  eexists. split; [done |]. simpl. rewrite length_fmap, length_seqZ.
  assert (0 ≤ n); [| lia].
  unfold n, space_numPages, divRoundUp, space_size, to_uint.
  pose proof (Z.mod_pos_bound
                (size (code (loaded_header executable))
                 + size (initData (loaded_header executable))
                 + size (uninitData (loaded_header executable)) + UserStackSize)
                (2 ^ 32) ltac:(lia)) as [Hge _].
  pose proof (Z.quot_pos _ PageSize Hge HPS). destruct (_ >? 0); lia.
Qed.

(** X19: the magic number is the only thing the constructor asserts: it
    fails its assertion exactly on a header whose magic number is wrong
    both as read and after the byte swap; [GenerateSWAP] fails on such a
    header too. *)
Theorem constructor_asserts_the_magic_number this executable ID s :
  (invPageTableNotYetLoaded s ≠ 0 → invPageTableSemaphore s ≠ 0) →
  (AddrSpace_ctor this executable s = Err AssertionFailed ↔
   noffMagic (exe_header executable) ≠ NOFFMAGIC ∧
   WordToHost (noffMagic (exe_header executable)) ≠ NOFFMAGIC) ∧
  (noffMagic (exe_header executable) ≠ NOFFMAGIC →
   WordToHost (noffMagic (exe_header executable)) ≠ NOFFMAGIC →
   GenerateSWAP this executable ID s = Err AssertionFailed).
Proof.
  intros Hlock.
  assert (noffMagic (loaded_header executable) ≠ NOFFMAGIC ↔
          noffMagic (exe_header executable) ≠ NOFFMAGIC ∧
          WordToHost (noffMagic (exe_header executable)) ≠ NOFFMAGIC) as Hbad.
  { unfold loaded_header.
    destruct (Z.eqb_spec (noffMagic (exe_header executable)) NOFFMAGIC),
      (Z.eqb_spec (WordToHost (noffMagic (exe_header executable))) NOFFMAGIC);
      simpl; naive_solver. }
  rewrite <- Hbad. split.
  - unfold AddrSpace_ctor, read_header, bind, gets, modify, ret, fail,
      Semaphore_P, Semaphore_V, modify.
    destruct (Z.eqb_spec (invPageTableNotYetLoaded s) 0) as [Hz | Hnz]; simpl.
    + by destruct (Z.eqb_spec (noffMagic (loaded_header executable)) NOFFMAGIC).
    + destruct (Z.eqb_spec (invPageTableSemaphore s) 0) as [Hs | Hs];
        [by destruct (Hlock Hnz) |]. simpl.
      by destruct (Z.eqb_spec (noffMagic (loaded_header executable)) NOFFMAGIC).
  - intros H1 H2. unfold GenerateSWAP, read_header, bind, fail.
    destruct (Z.eqb_spec (noffMagic (loaded_header executable)) NOFFMAGIC);
      [| done].
    by apply Hbad in e.
Qed.

(** X20: an executable whose header was written in the other byte order
    is loaded as the executable with the header in host order: the
    constructor and [GenerateSWAP] do with the one what they do with the
    other. *)
Theorem swapped_header_loads_as_native noffH bytes :
  noffMagic noffH = NOFFMAGIC →
  WordToHost NOFFMAGIC ≠ NOFFMAGIC →
  SwapHeader (SwapHeader noffH) = noffH →
  loaded_header (mkExecutable (SwapHeader noffH) bytes) = noffH ∧
  ∀ this ID s,
    AddrSpace_ctor this (mkExecutable (SwapHeader noffH) bytes) s
    = AddrSpace_ctor this (mkExecutable noffH bytes) s ∧
    GenerateSWAP this (mkExecutable (SwapHeader noffH) bytes) ID s
    = GenerateSWAP this (mkExecutable noffH bytes) ID s.
Proof.
  intros Hmagic Hswap Hinv.
  assert (loaded_header (mkExecutable noffH bytes) = noffH) as Hnative.
  { unfold loaded_header. simpl. rewrite Hmagic.
    by destruct (Z.eqb_spec NOFFMAGIC NOFFMAGIC). }
  assert (loaded_header (mkExecutable (SwapHeader noffH) bytes) = noffH)
    as Hother.
  { assert (noffMagic (SwapHeader noffH) = WordToHost NOFFMAGIC) as Hm
      by (simpl; by rewrite Hmagic).
    assert (WordToHost (WordToHost NOFFMAGIC) = NOFFMAGIC) as Hww.
    { pose proof (f_equal noffMagic Hinv) as Hw. simpl in Hw.
      by rewrite Hmagic in Hw. }
    unfold loaded_header. cbn [exe_header]. rewrite Hm, Hww, Z.eqb_refl.
    by destruct (Z.eqb_spec (WordToHost NOFFMAGIC) NOFFMAGIC). }
  split; [done |]. intros this ID s.
  unfold AddrSpace_ctor, GenerateSWAP, read_header, read_segment.
  by rewrite Hnative, Hother.
Qed.

Lemma read_segment_state executable swapData g s sd s' :
  read_segment executable swapData g s = Ok (sd, s') →
  s' = s ∧ length sd = length swapData.
Proof.
  unfold read_segment. intros Hr.
  destruct (size g >? 0); [| by apply ret_Ok in Hr as [-> ->]].
  destruct (inFileAddr g <? 0); [by apply fail_Ok in Hr |].
  apply defined_Ok in Hr as [Hst ->]. split; [done |].
  by eapply store_range_length.
Qed.

(** The file [GenerateSWAP] leaves has the page count's worth of bytes. *)
Lemma GenerateSWAP_file this executable ID s u s' :
  GenerateSWAP this executable ID s = Ok (u, s') →
  let n := space_numPages (loaded_header executable) in
  ∃ a f,
    spaces s !! this = Some a ∧
    spaces s' = <[this := mkAddrSpace (pageTable a) n]> (spaces s) ∧
    fileSystem s' !! swap_filename ID = Some f ∧
    length f = Z.to_nat (to_uint (n * PageSize)).
Proof.
  unfold GenerateSWAP. intros Hr.
  apply bind_Ok in Hr as (noffH & s0 & (-> & _ & ->)%read_header_Ok & Hr).
  cbv zeta in Hr.
  apply bind_Ok in Hr as (a & s1 & [Ha ->]%get_space_Ok & Hr).
  apply bind_Ok in Hr as (? & s2 & ->%modify_Ok & Hr).
  apply bind_Ok in Hr as (? & s3 & ->%modify_Ok & Hr).
  apply bind_Ok in Hr as (h & s4 & [-> ->]%FileSystem_Open_Ok & Hr).
  apply bind_Ok in Hr as (sd1 & s5 & [-> Hl1]%read_segment_state & Hr).
  apply bind_Ok in Hr as (sd2 & s6 & [-> Hl2]%read_segment_state & Hr).
  simpl in Hr. rewrite lookup_insert_eq in Hr.
  apply OpenFile_WriteAt_Ok in Hr as (name & contents & [= <-] & Hc & _ & ->).
  simpl in Hc. rewrite lookup_insert_eq in Hc. injection Hc as <-.
  cbv zeta. eexists a, _. split; [done |]. simpl. split; [done |].
  split; [apply lookup_insert_eq |].
  by rewrite file_write_length, length_replicate.
Qed.

(** X21: after the constructor and [GenerateSWAP] for the same
    executable every page of the new page table is backed by the swap
    file and waits, invalid, for its first fault; [GenerateSWAP] leaves
    the address spaces as the constructor made them. *)
Theorem loaded_program_is_backed this executable ID s s1 s2 :
  0 < PageSize →
  0 ≤ image_size (loaded_header executable) →
  image_size (loaded_header executable) + PageSize ≤ 2 ^ 32 →
  AddrSpace_ctor this executable s = Ok (tt, s1) →
  GenerateSWAP this executable ID s1 = Ok (tt, s2) →
  spaces s2 = spaces s1 ∧
  ∀ vp, 0 ≤ vp < space_numPages (loaded_header executable) →
    backed s2 ID vp ∧ entry_of s2 this vp = Some (fresh_entry vp).
Proof.
  intros HPS Hsz0 Hsz (_ & _ & Hs1)%AddrSpace_ctor_Ok Hgen.
  cbv zeta in Hs1.
  set (n := space_numPages (loaded_header executable)) in *.
  assert (spaces s1 !! this
          = Some (mkAddrSpace (Some (fresh_entry <$> seqZ 0 n)) n)) as Hthis
    by (rewrite Hs1; simpl; apply lookup_insert_eq).
  apply GenerateSWAP_file in Hgen as (a & f & Ha & Hsp & Hf & Hlen).
  fold n in Hsp, Hlen. rewrite Hthis in Ha. injection Ha as <-. simpl in Hsp.
  assert (spaces s2 = spaces s1) as Hsame
    by (rewrite Hsp; by apply insert_id).
  split; [done |]. intros vp Hvp.
  assert (0 ≤ n * PageSize < 2 ^ 32) as Hn.
  { pose proof (divRoundUp_bounds _ PageSize Hsz0 HPS) as Hb.
    unfold n, space_numPages, space_size, to_uint.
    fold (image_size (loaded_header executable)).
    rewrite Z.mod_small by lia. nia. }
  unfold to_uint in Hlen. rewrite Z.mod_small in Hlen by done.
  split.
  - exists f. split; [done |]. split; [lia |]. nia.
  - apply entry_of_Some. eexists _, _. rewrite Hsame.
    split; [done |]. split; [done |]. by apply index_fresh_entries.
Qed.

End Loader.

(** ** Registers and the translation context *)

Section Registers.
Context `{MachineConfig} `{RegisterFile}.

Lemma and_then_Ok {A B} (r : result A) (k : A → result B) b :
  and_then r k = Ok b ↔ ∃ a, r = Ok a ∧ k a = Ok b.
Proof. destruct r; simpl; naive_solver. Qed.

Lemma WriteRegister_Ok num value m m' :
  WriteRegister num value m = Ok m' ↔
  0 ≤ num < Z.of_nat (length (registers m)) ∧
  m' = mkMachine (<[Z.to_nat num := value]> (registers m))
         (machine_pageTable m) (pageTableSize m).
Proof.
  unfold WriteRegister.
  destruct (store (registers m) num value) as [r|] eqn:Hst.
  - apply store_Some in Hst as [? ->]. naive_solver.
  - split; [done |]. intros [Hin _].
    assert (is_Some (store (registers m) num value)) as [? ?]; [| congruence].
    eexists. by apply store_Some.
Qed.

Lemma WriteRegister_runs num value m :
  0 ≤ num < Z.of_nat (length (registers m)) →
  WriteRegister num value m
  = Ok (mkMachine (<[Z.to_nat num := value]> (registers m))
          (machine_pageTable m) (pageTableSize m)).
Proof. intros Hin. by apply WriteRegister_Ok. Qed.

(** The loop of [InitRegisters] over the first [k] registers. *)
Lemma zero_registers (k : nat) m :
  (k ≤ length (registers m))%nat →
  ∃ r,
    foldl (λ r i, and_then r (WriteRegister i 0)) (Ok m) (seqZ 0 (Z.of_nat k))
    = Ok (mkMachine r (machine_pageTable m) (pageTableSize m)) ∧
    length r = length (registers m) ∧
    (∀ i, (i < k)%nat → r !! i = Some 0) ∧
    (∀ i, (k ≤ i)%nat → r !! i = registers m !! i).
Proof.
  induction k as [|k IH]; intros Hk.
  - exists (registers m). destruct m. simpl. split; [done |].
    split; [done |]. split; [lia | done].
  - destruct IH as (r & Hloop & Hlen & Hlow & Hhigh); [lia |].
    exists (<[k := 0]> r). rewrite seqZ_S, foldl_app, Hloop. simpl. split.
    { apply WriteRegister_Ok. simpl. split; [lia |].
      by replace (Z.to_nat (0 + Z.of_nat k)) with k by lia. }
    split; [by rewrite length_insert |]. split.
    + intros i Hi. destruct (decide (i = k)) as [-> | Hne].
      * apply list_lookup_insert_eq. lia.
      * rewrite list_lookup_insert_ne by done. apply Hlow. lia.
    + intros i Hi. rewrite list_lookup_insert_ne by lia. apply Hhigh. lia.
Qed.

Lemma to_int_small x :
  - 2 ^ 31 ≤ x < 2 ^ 31 → to_int (to_uint x) = x.
Proof.
  intros Hx. unfold to_int, to_uint.
  rewrite Z.add_mod_idemp_l by lia. rewrite Z.mod_small by lia. lia.
Qed.

(** X22: [InitRegisters] leaves every register at zero but the next
    program counter, which is 4, and the stack pointer, which is
    numPages * PageSize - 16 computed in 32 bits: reduced modulo 2^32
    and read as a signed number, which is numPages * PageSize - 16
    itself when that is within the range of [int].  It does not touch
    the translation context. *)
Theorem InitRegisters_sets_registers this s m a :
  Z.of_nat (length (registers m)) = NumTotalRegs →
  0 ≤ PCReg < NumTotalRegs →
  0 ≤ NextPCReg < NumTotalRegs →
  0 ≤ StackReg < NumTotalRegs →
  spaces s !! this = Some a →
  ∃ m',
    InitRegisters this s m = Ok m' ∧
    (∀ i, 0 ≤ i < NumTotalRegs →
       index (registers m') i
       = Some (if decide (i = StackReg)
               then ((numPages a * PageSize - 16) `mod` 2 ^ 32 + 2 ^ 31)
                      `mod` 2 ^ 32 - 2 ^ 31
               else if decide (i = NextPCReg) then 4 else 0)) ∧
    (- 2 ^ 31 ≤ numPages a * PageSize - 16 < 2 ^ 31 →
     index (registers m') StackReg = Some (numPages a * PageSize - 16)) ∧
    machine_pageTable m' = machine_pageTable m ∧
    pageTableSize m' = pageTableSize m.
Proof.
  intros Hlen HPC HNext HStack Ha.
  destruct (zero_registers (Z.to_nat NumTotalRegs) m)
    as (r & Hloop & Hr & Hzero & _); [lia |].
  rewrite Z2Nat.id in Hloop by lia.
  eexists. unfold InitRegisters. rewrite Hloop, Ha. simpl.
  rewrite (WriteRegister_runs PCReg) by (simpl; lia). simpl.
  rewrite (WriteRegister_runs NextPCReg) by (simpl; rewrite length_insert; lia).
  simpl.
  rewrite (WriteRegister_runs StackReg)
    by (simpl; rewrite !length_insert; lia).
  split; [reflexivity |].
  cbn [registers machine_pageTable pageTableSize]. split; [| split; [| done]].
  2:{ intros Hsmall. apply index_Some. split; [lia |].
      rewrite to_int_small by done.
      apply list_lookup_insert_eq. rewrite !length_insert. lia. }
  intros i Hi. apply index_Some. split; [lia |].
  destruct (decide (i = StackReg)) as [-> | Hs].
  { apply list_lookup_insert_eq. rewrite !length_insert. lia. }
  rewrite list_lookup_insert_ne by lia.
  destruct (decide (i = NextPCReg)) as [-> | Hn].
  { apply list_lookup_insert_eq. rewrite !length_insert. lia. }
  rewrite list_lookup_insert_ne by lia.
  destruct (decide (i = PCReg)) as [-> | Hp].
  { apply list_lookup_insert_eq. lia. }
  rewrite list_lookup_insert_ne by lia. apply Hzero. lia.
Qed.

(** X23: for an image of at least 16 bytes whose page-rounded size is
    within the range of [int], the stack pointer [InitRegisters] sets for
    the address space the constructor has made lies sixteen bytes below
    the end of the page-rounded image, on a page of the page table. *)
Theorem initial_stack_pointer_is_mapped this executable s s' m m' :
  0 < PageSize →
  16 ≤ image_size (loaded_header executable) →
  image_size (loaded_header executable) + PageSize ≤ 2 ^ 31 →
  AddrSpace_ctor this executable s = Ok (tt, s') →
  InitRegisters this s' m = Ok m' →
  ∃ sp,
    index (registers m') StackReg = Some sp ∧
    0 ≤ sp ∧
    image_size (loaded_header executable) ≤ sp + 16
      < image_size (loaded_header executable) + PageSize ∧
    entry_of s' this (sp `quot` PageSize)
    = Some (fresh_entry (sp `quot` PageSize)).
Proof.
  intros HPS Hsz Hint (_ & _ & Hs')%AddrSpace_ctor_Ok Hinit. cbv zeta in Hs'.
  set (n := space_numPages (loaded_header executable)) in *.
  assert (spaces s' !! this
          = Some (mkAddrSpace (Some (fresh_entry <$> seqZ 0 n)) n)) as Hthis
    by (rewrite Hs'; simpl; apply lookup_insert_eq).
  assert (0 ≤ image_size (loaded_header executable)) as Hsz0 by lia.
  pose proof (divRoundUp_bounds (image_size (loaded_header executable)) PageSize
                Hsz0 HPS) as Hb.
  assert (n = divRoundUp (image_size (loaded_header executable)) PageSize) as Hn.
  { unfold n, space_numPages, space_size, to_uint.
    fold (image_size (loaded_header executable)).
    by rewrite Z.mod_small by lia. }
  rewrite <- Hn in Hb.
  unfold InitRegisters in Hinit.
  apply and_then_Ok in Hinit as (m1 & _ & Hinit).
  apply and_then_Ok in Hinit as (m2 & _ & Hinit).
  apply and_then_Ok in Hinit as (m3 & _ & Hinit).
  rewrite Hthis in Hinit. cbv beta iota in Hinit. cbn [numPages] in Hinit.
  rewrite to_int_small in Hinit by lia.
  apply WriteRegister_Ok in Hinit as [Hin ->]. cbn [registers].
  exists (n * PageSize - 16).
  split; [apply index_Some; split; [lia | apply list_lookup_insert_eq; lia] |].
  split; [lia |]. split; [lia |].
  apply entry_of_Some. eexists _, _. split; [done |]. split; [done |].
  apply index_fresh_entries. split.
  - apply Z.quot_pos; lia.
  - apply Z.quot_lt_upper_bound; [lia | lia | lia].
Qed.

(** X24: the translation context [RestoreState] installs outlives a
    fault: the resolver updates the page table in place, so saving and
    restoring the state after the fault gives the same context, through
    which the page just loaded is found valid. *)
Theorem context_survives_a_fault
    this s m m' pageFaultAddr theThreadID r s' :
  0 < PageSize →
  RestoreState this s m = Ok m' →
  PageFaultLoadPage this pageFaultAddr theThreadID s = Ok (r, s') →
  RestoreState this s' (SaveState m') = Ok m' ∧
  (r = 0 →
   machine_pageTable m' = Some this ∧
   ∃ pte, entry_of s' this (pageFaultAddr `quot` PageSize) = Some pte ∧
          valid pte = true).
Proof.
  intros HPS Hrs Hr. unfold RestoreState, SaveState in *.
  pose proof (PageFaultLoadPage_same_shape _ _ _ _ _ _ this Hr) as Hshape.
  destruct (spaces s !! this) as [a|] eqn:Ha; [| done].
  destruct (spaces s' !! this) as [a'|] eqn:Ha'; [| done].
  simpl in Hshape. injection Hshape as Hnp Hpt. injection Hrs as <-. simpl.
  assert (match pageTable a' with Some _ => Some this | None => None end
          = match pageTable a with Some _ => Some this | None => None end)
    as Hptr by (destruct (pageTable a'), (pageTable a); done).
  split; [by rewrite Hptr, Hnp |].
  intros ->.
  apply PageFaultLoadPage_success in Hr as (frame & s1 & Hl & _).
  apply load_frame_effect in Hl
    as (_ & _ & _ & _ & f & a0 & pt & pte & _ & _ & _ & Ha0 & Hpt0 & Hpte & Hv
        & _); [| done].
  rewrite Ha' in Ha0. injection Ha0 as <-. rewrite <- Hptr, Hpt0.
  split; [done |]. exists pte. split; [| done].
  apply entry_of_Some. eauto.
Qed.

End Registers.

(** * The properties at work on the example machine *)

Section Examples.
#[local] Existing Instance nachos.

Ltac run := vm_compute; first [reflexivity | done | repeat constructor].

(** C1: in abort mode with the pool full, [PageFaultLoadPage] takes the
    lock, returns failure and leaves the lock taken: the semaphore,
    1 before the call, is 0 after it, and the next fault blocks. *)
Theorem lock_held_after_failed_fault :
  swapMode (pool_full 0) = 0 ∧
  Forall (λ b, b = true) (memMap (pool_full 0)) ∧
  invPageTableSemaphore (pool_full 0) = 1 ∧
  ∃ s', PageFaultLoadPage 7 128 1 (pool_full 0) = Ok (1, s') ∧
        invPageTableSemaphore s' = 0 ∧
        PageFaultLoadPage 7 128 1 s' = Err Blocked.
Proof.
  split; [run |]. split; [run |]. split; [run |].
  eexists. split; [vm_compute; reflexivity |]. split; run.
Qed.

Lemma no_victim_commits_nothing_witness :
  ∃ s', PageFaultLoadPage 7 128 1 (pool_full 0) = Ok (1, s') ∧
        spaces s' = spaces (pool_full 0) ∧
        invPageTable s' = invPageTable (pool_full 0) ∧
        memMap s' = memMap (pool_full 0) ∧
        fileSystem s' = fileSystem (pool_full 0) ∧
        mainMemory s' = mainMemory (pool_full 0).
Proof.
  refine (no_victim_commits_nothing 7 128 1 (pool_full 0) _ _ _).
  - run.
  - run.
  - eexists. vm_compute. reflexivity.
Defined.

(** Right after the registry is initialised every age is 0, and the
    aged-victim scan finds no victim. *)
Lemma aged_scan_finds_no_victim_among_equal_ages :
  swapMode (booted 1) = 1 ∧
  Z.of_nat (length (invPageTable (booted 1))) = 32 ∧
  Forall (λ e, time e = 0) (invPageTable (booted 1)) ∧
  FrameSearch (booted 1) = Ok (-1, booted 1).
Proof. split; [run |]. split; [run |]. split; run. Qed.

Lemma aged_victim_is_first_oldest_witness :
  ∃ r, FrameSearch (pool_full 1) = Ok (r, pool_full 1) ∧
    ((r = -1 ∧ Forall (λ e, time e ≤ 0) (invPageTable (pool_full 1)))
     ∨ ∃ e, index (invPageTable (pool_full 1)) r = Some e ∧ 0 < time e ∧
            (∀ j e', index (invPageTable (pool_full 1)) j = Some e' →
                     time e' ≤ time e) ∧
            (∀ j e', j < r → index (invPageTable (pool_full 1)) j = Some e' →
                     time e' < time e)).
Proof.
  apply (proj2 (aged_victim_is_first_oldest (pool_full 1))). run.
Defined.

(** With a pool of two frames the registry still has 32 entries, and
    random mode picks frame 5, which the pool does not have. *)
Lemma registry_larger_than_pool :
  let s := state_after (H := nachos2) 2
             (boot (H := nachos2) ;; touch (H := nachos2) 2) in
  NumPhysPages (MachineConfig := nachos2) = 2 ∧
  Forall (λ b, b = true) (memMap s) ∧
  Z.of_nat (length (invPageTable s)) = 32 ∧
  ∃ s', FrameSearch (H := nachos2) s = Ok (5, s') ∧
        ¬ 5 < NumPhysPages (MachineConfig := nachos2).
Proof.
  split; [run |]. split; [run |]. split; [run |].
  eexists. split; [vm_compute; reflexivity | run].
Qed.

Lemma victim_within_registry_witness :
  Z.of_nat (length (invPageTable (initial_state 1))) = invPageTableSize ∧
  invPageTableSize = 32 ∧
  Z.of_nat (length (invPageTable (pool_full 1))) = invPageTableSize ∧
  0 ≤ 0 < invPageTableSize ∧
  (invPageTableSize ≤ NumPhysPages → 0 < NumPhysPages).
Proof.
  refine (victim_within_registry 1 (pool_full 1) 0 (pool_full 1) _ _ _ _).
  - run.
  - intros n. simpl. lia.
  - run.
  - run.
Defined.


Lemma eviction_writes_back_and_reuses_witness :
  let s := pool_full 1 in
  ∃ s', PageFaultLoadPage 7 128 1 s = Ok (0, s') ∧
    memMap s' = memMap s ∧
    swap_bytes s' 1 0 = Some (frame_bytes s 0) ∧
    ((7%nat, 0) ≠ (7%nat, 32) →
     ∃ pte', entry_of s' 7 0 = Some pte' ∧ valid pte' = false) ∧
    (∃ pte', entry_of s' 7 32 = Some pte' ∧ valid pte' = true ∧
             physicalPage pte' = Some 0) ∧
    swap_bytes s' 1 32 = Some (frame_bytes s' 0).
Proof.
  refine (eviction_writes_back_and_reuses 7 128 1 (pool_full 1) 0 (pool_full 1)
            (mkInvEntry 31 1 (Some 3%nat) 0) 7
            (mkTranslationEntry 0 (Some 0) true false false false)
            _ _ _ _ _ _ _ _ _ _ _ _).
  - simpl. lia.
  - run.
  - run.
  - run.
  - run.
  - run.
  - run.
  - run.
  - run.
  - eexists. split; [vm_compute; reflexivity | run].
  - eexists. split; [vm_compute; reflexivity | run].
  - eexists. vm_compute. reflexivity.
Defined.

Lemma destructor_releases_frames_witness :
  let s := state_after 1 (boot ;; touch 3) in
  let pt := three_resident in
  ∃ s1 s' pt1,
    dtor_loop 7 s = Ok (tt, s1) ∧
    (pageTable <$> spaces s1 !! 7%nat) = Some (Some pt1) ∧
    length pt1 = length pt ∧
    Forall (λ e, valid e = false ∧ dirty e = false) pt1 ∧
    AddrSpace_dtor 7 s = Ok (tt, s') ∧
    (pageTable <$> spaces s' !! 7%nat) = Some None ∧
    length (frames_of pt) = 3%nat ∧
    (∀ f, f ∈ frames_of pt →
       index (memMap s') f = Some false ∧
       index (invPageTable s') f = Some (mkInvEntry 0 (-1) None (-1))) ∧
    (∀ f, f ∉ frames_of pt →
       index (memMap s') f = index (memMap s) f ∧
       index (invPageTable s') f = index (invPageTable s) f) ∧
    (NoDup (frames_of pt) →
     (∀ f, f ∈ frames_of pt → index (memMap s) f = Some true) →
     BitMap_NumClear (memMap s') = (BitMap_NumClear (memMap s) + 3)%nat).
Proof.
  refine (destructor_releases_frames 7 (state_after 1 (boot ;; touch 3))
            (mkAddrSpace (Some three_resident) 35) three_resident _ _ _ _).
  - run.
  - run.
  - run.
  - assert (Z.of_nat (length (memMap (state_after 1 (boot ;; touch 3)))) = 32)
      as -> by run.
    assert (Z.of_nat (length (invPageTable (state_after 1 (boot ;; touch 3)))) = 32)
      as -> by run.
    intros e [He | He]%elem_of_app Hv.
    + apply list_elem_of_fmap in He as (i & -> & Hi%elem_of_seqZ).
      exists i. simpl. split; [done | lia].
    + by apply list_elem_of_fmap in He as (i & -> & _).
Defined.

Lemma constructor_builds_page_table_witness :
  ∃ s' n pt,
    AddrSpace_ctor 7 prog (initial_state 1) = Ok (tt, s') ∧
    spaces s' !! 7%nat = Some (mkAddrSpace (Some pt) n) ∧
    n = Qceiling (inject_Z 137 / inject_Z 4)%Q ∧
    Z.of_nat (length pt) = n ∧
    (∀ i, 0 ≤ i < n →
       ∃ e, index pt i = Some e ∧ virtualPage e = i ∧ valid e = false ∧
            dirty e = false ∧ readOnly e = false) ∧
    mainMemory s' = mainMemory (initial_state 1).
Proof.
  refine (constructor_builds_page_table 7 prog (initial_state 1) _ _ _ _).
  - simpl. lia.
  - run.
  - vm_compute. by split.
  - intros _. run.
Defined.

Lemma GenerateSWAP_writes_image_witness :
  let s := after (AddrSpace_ctor 7 prog) (initial_state 1) in
  ∃ s' f,
    GenerateSWAP 7 prog 1 s = Ok (tt, s') ∧
    fileSystem s' !! "1.swap" = Some f ∧
    Z.of_nat (length f) = 35 * 4 ∧
    numPages <$> spaces s' !! 7%nat = Some 35 ∧
    (∀ j, in_segment (mkSegment 0 40 6) j →
       index f j = index (exe_bytes prog) (40 + (j - 0))) ∧
    (∀ j, in_segment (mkSegment 8 46 3) j →
       index f j = index (exe_bytes prog) (46 + (j - 8))) ∧
    (∀ j, 0 ≤ j < 35 * 4 →
       ¬ in_segment (mkSegment 0 40 6) j → ¬ in_segment (mkSegment 8 46 3) j →
       index f j = Some x00).
Proof.
  refine (GenerateSWAP_writes_image 7 prog 1
            (after (AddrSpace_ctor 7 prog) (initial_state 1)) _ _ _ _ _ _ _ _).
  - simpl. lia.
  - run.
  - run.
  - run.
  - eexists. vm_compute. reflexivity.
  - intros _. vm_compute. repeat split; intros [=].
  - intros _. vm_compute. repeat split; intros [=].
  - unfold in_segment. simpl. lia.
Defined.



(** The properties of the later sections on the same machine. *)

Ltac decided := refine (bool_decide_unpack _ _); vm_compute; exact I.

Lemma PageFaultLoadPage_keeps_registry_consistent_witness :
  let s' := after (PageFaultLoadPage 7 128 1) (pool_full 1) in
  registry_consistent s' ∧ no_double_mapping s'.
Proof.
  refine (PageFaultLoadPage_keeps_registry_consistent 7 128 1 (pool_full 1) 0
            _ 3%nat _ _ _ _ _ _).
  - simpl. lia.
  - run.
  - apply registry_consistentb_sound. run.
  - run.
  - run.
  - run.
Defined.

Lemma destructor_leaves_the_rest_witness :
  let s := state_after 1 (boot ;; touch 3) in
  let s' := after (AddrSpace_dtor 7) s in
  invPageTableSemaphore s' = invPageTableSemaphore s ∧
  fileSystem s' = fileSystem s ∧
  mainMemory s' = mainMemory s ∧
  threads s' = threads s ∧
  ∀ sp, sp ≠ 7%nat → spaces s' !! sp = spaces s !! sp.
Proof.
  refine (destructor_leaves_the_rest 7 (state_after 1 (boot ;; touch 3)) tt _ _).
  run.
Defined.

Lemma destructor_twice_is_harmless_witness :
  let s' := after (AddrSpace_dtor 7) (state_after 1 (boot ;; touch 3)) in
  (pageTable <$> spaces s' !! 7%nat) = Some None ∧
  AddrSpace_dtor 7 s' = Ok (tt, s').
Proof.
  refine (destructor_twice_is_harmless 7 (state_after 1 (boot ;; touch 3)) tt _ _).
  run.
Defined.

Lemma destructor_keeps_registry_consistent_witness :
  ∃ s', AddrSpace_dtor 7 (state_after 1 (boot ;; touch 3)) = Ok (tt, s') ∧
        registry_consistent s' ∧ no_double_mapping s' ∧
        ∀ vp, entry_of s' 7 vp = None.
Proof.
  refine (destructor_keeps_registry_consistent 7
            (state_after 1 (boot ;; touch 3))
            (mkAddrSpace (Some three_resident) 35) _ _ _).
  - apply registry_consistentb_sound. run.
  - run.
  - eexists. split; [reflexivity | run].
Defined.

Lemma fault_keeps_swap_files_and_lengths_witness :
  let s := pool_full 1 in
  let s' := after (PageFaultLoadPage 7 128 1) s in
  length <$> fileSystem s' !! "1.swap" = length <$> fileSystem s !! "1.swap".
Proof.
  refine (fault_keeps_swap_files_and_lengths 7 128 1 (pool_full 1) 0 _ "1.swap" _).
  run.
Defined.

Lemma fault_writes_only_the_victims_swap_page_witness :
  let s := pool_full 1 in
  let s' := after (PageFaultLoadPage 7 128 1) s in
  swap_bytes s' 1 33 = swap_bytes s 1 33.
Proof.
  refine (fault_writes_only_the_victims_swap_page 7 128 1 (pool_full 1) 0 _ 1 33
            _ _ _ _).
  - simpl. lia.
  - lia.
  - intros i e [_ He%list_elem_of_lookup_2]%index_Some. revert e He.
    apply Forall_forall. decided.
  - run.
Defined.

Lemma fault_without_swap_file_fails_witness :
  PageFaultLoadPage 7 9 2 (booted 1) ≠ Ok (0, booted 1).
Proof.
  refine (fault_without_swap_file_fails 7 9 2 (booted 1) (booted 1) _).
  run.
Defined.

Lemma GenerateSWAP_touches_one_file_witness :
  let s := after (AddrSpace_ctor 7 prog) (initial_state 1) in
  let s' := after (GenerateSWAP 7 prog 1) s in
  mainMemory s' = mainMemory s ∧ memMap s' = memMap s ∧
  invPageTable s' = invPageTable s ∧
  invPageTableSemaphore s' = invPageTableSemaphore s ∧
  (∀ sp vp, entry_of s' sp vp = entry_of s sp vp) ∧
  (∀ ID', ID' ≠ 1 →
     fileSystem s' !! swap_filename ID' = fileSystem s !! swap_filename ID').
Proof.
  refine (GenerateSWAP_touches_one_file 7 prog 1
            (after (AddrSpace_ctor 7 prog) (initial_state 1)) tt _ _).
  run.
Defined.

Lemma KillSWAP_undoes_GenerateSWAP_witness :
  let s := after (AddrSpace_ctor 7 prog) (initial_state 1) in
  ∃ s2, KillSWAP 1 (after (GenerateSWAP 7 prog 1) s) = Ok (tt, s2) ∧
        fileSystem s2 = fileSystem s.
Proof.
  refine (KillSWAP_undoes_GenerateSWAP 7 prog 1
            (after (AddrSpace_ctor 7 prog) (initial_state 1)) tt _ _ _).
  - run.
  - run.
Defined.

Lemma free_frame_is_taken_without_eviction_witness :
  let s := state_after 1 (boot ;; touch 3) in
  ∃ s' pte,
    PageFaultLoadPage 7 20 1 s = Ok (0, s') ∧
    memMap s' = <[3%nat := true]> (memMap s) ∧
    S (BitMap_NumClear (memMap s')) = BitMap_NumClear (memMap s) ∧
    fileSystem s' = fileSystem s ∧
    entry_of s' 7 5 = Some pte ∧ valid pte = true ∧
    physicalPage pte = Some 3 ∧
    swap_bytes s' 1 5 = Some (frame_bytes s' 3) ∧
    (∀ sp vp, (sp, vp) ≠ (7%nat, 5) → entry_of s' sp vp = entry_of s sp vp).
Proof.
  refine (free_frame_is_taken_without_eviction 7 20 1
            (state_after 1 (boot ;; touch 3)) 3 _ _ _ _ _ _ _ _).
  - simpl. lia.
  - run.
  - run.
  - run.
  - intros [|[|[|j]]] Hj; [run | run | run | lia].
  - vm_compute. lia.
  - eexists. split; [vm_compute; reflexivity | run].
  - eexists. vm_compute. reflexivity.
Defined.

Lemma fault_keeps_page_table_sizes_witness :
  let s := pool_full 1 in
  let s' := after (PageFaultLoadPage 7 128 1) s in
  (λ a, (numPages a, length <$> pageTable a)) <$> spaces s' !! 7%nat
  = (λ a, (numPages a, length <$> pageTable a)) <$> spaces s !! 7%nat.
Proof.
  refine (fault_keeps_page_table_sizes 7 128 1 (pool_full 1) 0 _ 7%nat _).
  run.
Defined.

Lemma fault_writes_at_most_two_entries_witness :
  let s := pool_full 1 in
  let s' := after (PageFaultLoadPage 7 128 1) s in
  entry_of s' 7 33 = entry_of s 7 33.
Proof.
  refine (fault_writes_at_most_two_entries 7 128 1 (pool_full 1) 0 _ 7%nat 33
            _ _ _).
  - run.
  - intros [=].
  - intros i e [_ He%list_elem_of_lookup_2]%index_Some. revert e He.
    apply Forall_forall. decided.
Defined.

Lemma fault_returns_with_the_lock_only_on_success_witness :
  (let s := pool_full 1 in
   let s' := after (PageFaultLoadPage 7 128 1) s in
   (0 = 0 ∨ 0 = 1) ∧
   (0 = 0 → invPageTableSemaphore s' = invPageTableSemaphore s) ∧
   (0 = 1 → invPageTableSemaphore s' = invPageTableSemaphore s - 1)) ∧
  (let s := pool_full 0 in
   let s' := after (PageFaultLoadPage 7 128 1) s in
   (1 = 0 ∨ 1 = 1) ∧
   (1 = 0 → invPageTableSemaphore s' = invPageTableSemaphore s) ∧
   (1 = 1 → invPageTableSemaphore s' = invPageTableSemaphore s - 1)).
Proof.
  split.
  - refine (fault_returns_with_the_lock_only_on_success 7 128 1 (pool_full 1)
              0 _ _).
    run.
  - refine (fault_returns_with_the_lock_only_on_success 7 128 1 (pool_full 0)
              1 _ _).
    run.
Defined.

Lemma aged_victim_after_a_fault_witness :
  let s' := after (PageFaultLoadPage 7 9 1) (booted 1) in
  ∃ frame pte victim,
    entry_of s' 7 (9 `quot` PageSize) = Some pte ∧
    physicalPage pte = Some frame ∧
    FrameSearch s' = Ok (victim, s') ∧
    0 ≤ victim < Z.of_nat (length (invPageTable s')) ∧
    victim ≠ frame.
Proof.
  refine (aged_victim_after_a_fault 7 9 1 (booted 1) _ _ _ _ _).
  - run.
  - run.
  - vm_compute. lia.
  - decided.
Defined.

Lemma evicted_page_comes_back_witness :
  let s := pool_full 1 in
  let s2 := after (PageFaultLoadPage 7 0 1) (after (PageFaultLoadPage 7 128 1) s) in
  ∃ frame pte,
    entry_of s2 7 0 = Some pte ∧ valid pte = true ∧
    physicalPage pte = Some frame ∧
    frame_bytes s2 frame = frame_bytes s 0.
Proof.
  refine (evicted_page_comes_back 7 128 1 (pool_full 1) 0 (pool_full 1)
            (mkInvEntry 31 1 (Some 3%nat) 0)
            (after (PageFaultLoadPage 7 128 1) (pool_full 1)) 7 _
            _ _ _ _ _ _ _ _).
  - simpl. lia.
  - run.
  - run.
  - run.
  - eexists. split; [vm_compute; reflexivity | run].
  - run.
  - intros i e [_ He%list_elem_of_lookup_2]%index_Some. revert e He.
    apply Forall_forall. decided.
  - run.
Defined.

Lemma constructor_initialises_registry_once_witness :
  let s := pool_full 1 in
  let s' := after (AddrSpace_ctor 8 prog) s in
  invPageTableNotYetLoaded s' = 0 ∧
  invPageTableSemaphore s' = invPageTableSemaphore s ∧
  invPageTable s'
  = (if invPageTableNotYetLoaded s =? 0 then invPageTable s
     else replicate (Z.to_nat invPageTableSize) cleared_entry) ∧
  memMap s' = memMap s ∧ mainMemory s' = mainMemory s ∧
  fileSystem s' = fileSystem s ∧ threads s' = threads s ∧
  ∀ sp, sp ≠ 8%nat → spaces s' !! sp = spaces s !! sp.
Proof.
  refine (constructor_initialises_registry_once 8 prog (pool_full 1) tt _ _).
  run.
Defined.

Lemma constructor_keeps_registry_consistent_witness :
  let s' := after (AddrSpace_ctor 8 prog) (pool_full 1) in
  registry_consistent s' ∧ no_double_mapping s' ∧
  (∀ vp pte, entry_of s' 8 vp = Some pte → valid pte = false) ∧
  ∃ a, spaces s' !! 8%nat = Some a ∧ space_sized a.
Proof.
  refine (constructor_keeps_registry_consistent 8 prog (pool_full 1) tt _
            _ _ _ _).
  - simpl. lia.
  - apply registry_consistentb_sound. run.
  - intros Hfirst. exfalso. apply Hfirst. run.
  - run.
Defined.

Lemma constructor_asserts_the_magic_number_witness :
  let bad := mkExecutable
               (mkNoffHeader 1 (mkSegment 0 40 6) (mkSegment 8 46 3)
                  (mkSegment 12 0 120)) [] in
  (AddrSpace_ctor 7 bad (initial_state 1) = Err AssertionFailed ↔
   1 ≠ NOFFMAGIC ∧ WordToHost 1 ≠ NOFFMAGIC) ∧
  (1 ≠ NOFFMAGIC → WordToHost 1 ≠ NOFFMAGIC →
   GenerateSWAP 7 bad 1 (initial_state 1) = Err AssertionFailed).
Proof.
  refine (constructor_asserts_the_magic_number 7
            (mkExecutable
               (mkNoffHeader 1 (mkSegment 0 40 6) (mkSegment 8 46 3)
                  (mkSegment 12 0 120)) []) 1 (initial_state 1) _).
  intros _. run.
Defined.

Lemma swapped_header_loads_as_native_witness :
  let other := SwapHeader (H := nachos_be) (exe_header prog) in
  noffMagic other = 0xaddfba00 ∧
  loaded_header (H := nachos_be) (mkExecutable other (exe_bytes prog))
  = exe_header prog ∧
  ∀ this ID s,
    AddrSpace_ctor (H := nachos_be) this (mkExecutable other (exe_bytes prog)) s
    = AddrSpace_ctor (H := nachos_be) this
        (mkExecutable (exe_header prog) (exe_bytes prog)) s ∧
    GenerateSWAP (H := nachos_be) this (mkExecutable other (exe_bytes prog)) ID s
    = GenerateSWAP (H := nachos_be) this
        (mkExecutable (exe_header prog) (exe_bytes prog)) ID s.
Proof.
  split; [run |].
  refine (swapped_header_loads_as_native (H := nachos_be) (exe_header prog)
            (exe_bytes prog) _ _ _).
  - run.
  - vm_compute. intros [=].
  - run.
Defined.

Lemma loaded_program_is_backed_witness :
  let s1 := after (AddrSpace_ctor 7 prog) (initial_state 1) in
  let s2 := after (GenerateSWAP 7 prog 1) s1 in
  spaces s2 = spaces s1 ∧
  ∀ vp, 0 ≤ vp < 35 →
    backed s2 1 vp ∧ entry_of s2 7 vp = Some (fresh_entry vp).
Proof.
  refine (loaded_program_is_backed 7 prog 1 (initial_state 1) _ _ _ _ _ _ _).
  - simpl. lia.
  - vm_compute. intros [=].
  - vm_compute. intros [=].
  - run.
  - run.
Defined.

Lemma InitRegisters_sets_registers_witness :
  ∃ m',
    InitRegisters (H0 := mips) 7 (booted 1) (mkMachine (replicate 40 7) None 0)
    = Ok m' ∧
    (∀ i, 0 ≤ i < 40 →
       index (registers m') i
       = Some (if decide (i = 29)
               then ((35 * 4 - 16) `mod` 2 ^ 32 + 2 ^ 31) `mod` 2 ^ 32 - 2 ^ 31
               else if decide (i = 35) then 4 else 0)) ∧
    (- 2 ^ 31 ≤ 35 * 4 - 16 < 2 ^ 31 →
     index (registers m') 29 = Some (35 * 4 - 16)) ∧
    machine_pageTable m' = None ∧
    pageTableSize m' = 0.
Proof.
  refine (InitRegisters_sets_registers (H0 := mips) 7 (booted 1)
            (mkMachine (replicate 40 7) None 0)
            (mkAddrSpace (Some (fresh_entry <$> seqZ 0 35)) 35) _ _ _ _ _).
  - run.
  - simpl. lia.
  - simpl. lia.
  - simpl. lia.
  - run.
Defined.

Lemma initial_stack_pointer_is_mapped_witness :
  let s' := after (AddrSpace_ctor 7 prog) (initial_state 1) in
  let m' := mkMachine (<[29%nat := 124]> (<[35%nat := 4]> (replicate 40 0)))
              None 0 in
  ∃ sp,
    index (registers m') 29 = Some sp ∧
    0 ≤ sp ∧
    137 ≤ sp + 16 < 137 + 4 ∧
    entry_of s' 7 (sp `quot` 4) = Some (fresh_entry (sp `quot` 4)).
Proof.
  refine (initial_stack_pointer_is_mapped (H0 := mips) 7 prog (initial_state 1)
            _ (mkMachine (replicate 40 7) None 0) _ _ _ _ _ _).
  - simpl. lia.
  - vm_compute. intros [=].
  - vm_compute. intros [=].
  - run.
  - run.
Defined.

Lemma context_survives_a_fault_witness :
  let s' := after (PageFaultLoadPage 7 128 1) (pool_full 1) in
  let m' := mkMachine [] (Some 7%nat) 35 in
  RestoreState 7 s' (SaveState m') = Ok m' ∧
  (0 = 0 →
   machine_pageTable m' = Some 7%nat ∧
   ∃ pte, entry_of s' 7 (128 `quot` PageSize) = Some pte ∧ valid pte = true).
Proof.
  refine (context_survives_a_fault 7 (pool_full 1) (mkMachine [] None 0) _
            128 1 0 _ _ _ _).
  - simpl. lia.
  - run.
  - run.
Defined.
End Examples.
